(** * Ko-AD evaluation metric: the event-matching engine

    A shallow embedding of [eval_metric/utils.py], [eval_metric/matchers.py]
    and the precision / recall block of [eval_metric/cli.py], with the
    properties of the three matchers and of the statistics calculator.

    Conventions of the embedding.
    - Numbers. The times and the scores of the code are binary64 floats.
      The arithmetic of the code is embedded in [F64], over the
      [SpecFloat] operations of the Standard Library (rounding to nearest,
      infinities, NaN): the interval arithmetic of the events, the
      similarities and the table of the DP matcher are stated and proved
      there. The structure of the matchers (which events are grouped or
      aligned, which indices and texts a record carries, in which order)
      is developed over exact rationals ([Q]) with their boolean
      comparisons.
    - Python exceptions are [None] in the option monad: [IndexError] of an
      out-of-range subscript, [ValueError] of [min]/[max] over an empty
      sequence, [ZeroDivisionError] of [/], and running out of recursion
      budget in [UnionFind.find].
    - [math.exp] is a parameter of the development.
    - Strings are strings of 8-bit characters; [lower] and [split] act on
      the ASCII letters and the ASCII white space. *)

From Stdlib Require Import QArith Qminmax Qabs Ascii String.
From stdpp Require Import base tactics option list sorting gmap strings.
From Stdlib Require Import Lia Lqa.
From Stdlib Require SpecFloat.

Set Warnings "-clear-no-such-hyp".

(** * Part I: the embedding *)

(** ** Python built-ins *)

Module Py.
Local Open Scope Q_scope.

(** [a < b], [a <= b], [a == b], as booleans. *)
Definition lt (a b : Q) : bool := negb (Qle_bool b a).
Definition le (a b : Q) : bool := Qle_bool a b.
Definition eqb (a b : Q) : bool := Qeq_bool a b.

(** Two-argument [max(a, b)]: the first argument is kept unless the second
    is strictly greater. [min(a, b)] likewise with [<]. *)
Definition max (a b : Q) : Q := if lt a b then b else a.
Definition min (a b : Q) : Q := if lt b a then b else a.

(** [max(iterable)] and [min(iterable)]: [ValueError] on an empty one. *)
Definition max_of (l : list Q) : option Q :=
  match l with
  | [] => None
  | x :: xs => Some (fold_left max xs x)
  end.

Definition min_of (l : list Q) : option Q :=
  match l with
  | [] => None
  | x :: xs => Some (fold_left min xs x)
  end.

(** True division [a / b]: [ZeroDivisionError] when [b] is zero. *)
Definition truediv (a b : Q) : option Q :=
  if eqb b 0 then None else Some (a / b).

(** [abs(x)]. *)
Definition abs (x : Q) : Q := if lt x 0 then - x else x.

(** Truth value of a list: non-empty. *)
Definition truthy {A} (l : list A) : bool :=
  match l with [] => false | _ :: _ => true end.

(** [range(a, b)] and [enumerate(l)]. *)
Definition range (a b : nat) : list nat := seq a (b - a).
Definition enumerate {A} (l : list A) : list (nat * A) :=
  zip (seq 0 (length l)) l.

(** [l[i] = v]: [IndexError] out of range. *)
Definition setitem {A} (l : list A) (i : nat) (v : A) : option (list A) :=
  if decide (i < length l)%nat then Some (<[i:=v]> l) else None.

(** A [for] loop over [l] threading the state [s]; the body may raise. *)
Fixpoint for_ {S A} (l : list A) (body : A → S → option S) (s : S)
  : option S :=
  match l with
  | [] => Some s
  | x :: l' => s' ← body x s; for_ l' body s'
  end.

(** Comparison of 2-tuples [(a, t) < (b, u)]: the first components decide
    unless they are equal. *)
Definition tuple_lt (k1 k2 : Q * nat) : bool :=
  if eqb k1.1 k2.1 then (k1.2 <? k2.2)%nat else lt k1.1 k2.1.

(** [sorted(l, key=key)] and [l.sort(key=key)]: a stable sort that only
    uses [<] on keys. For a strict weak order the stable sorted
    permutation is unique, so insertion from the right computes what
    Timsort computes. *)
Section Sorted.
Context {A K : Type} (ltk : K → K → bool) (key : A → K).

Fixpoint insert (x : A) (l : list A) : list A :=
  match l with
  | [] => [x]
  | y :: l' => if ltk (key y) (key x) then y :: insert x l'
               else x :: y :: l'
  end.

Fixpoint sorted (l : list A) : list A :=
  match l with
  | [] => []
  | x :: l' => insert x (sorted l')
  end.
End Sorted.

(** [str.lower] and [str.split()] on 8-bit strings. *)
Definition lower_ascii (c : ascii) : ascii :=
  let n := nat_of_ascii c in
  if ((65 <=? n) && (n <=? 90))%nat then ascii_of_nat (n + 32) else c.

Fixpoint lower (s : string) : string :=
  match s with
  | EmptyString => EmptyString
  | String c s' => String (lower_ascii c) (lower s')
  end.

Definition is_space (c : ascii) : bool :=
  let n := nat_of_ascii c in
  (((9 <=? n) && (n <=? 13)) || ((28 <=? n) && (n <=? 32)))%nat.

(** [split_go cur s]: [cur] is the token being read, reversed. *)
Fixpoint split_go (cur : list ascii) (s : string) : list string :=
  let flush (rest : list string) :=
    match cur with
    | [] => rest
    | _ :: _ => string_of_list_ascii (rev cur) :: rest
    end in
  match s with
  | EmptyString => flush []
  | String c s' =>
      if is_space c then flush (split_go [] s')
      else split_go (c :: cur) s'
  end.

Definition split (s : string) : list string := split_go [] s.

End Py.

(** ** A two-dimensional [numpy] array: a list of rows *)

Module np.

Abbreviation ndarray A := (list (list A)) (only parsing).

Definition full {A} (n m : nat) (v : A) : ndarray A :=
  replicate n (replicate m v).

(** [a.shape]; a matrix without rows reports no columns. *)
Definition shape {A} (a : ndarray A) : nat * nat :=
  (length a, from_option length 0%nat (head a)).

(** [a[i, j]] and [a[i, j] = v]: [IndexError] out of range. *)
Definition get {A} (a : ndarray A) (i j : nat) : option A :=
  row ← a !! i; row !! j.

Definition set {A} (a : ndarray A) (i j : nat) (v : A)
  : option (ndarray A) :=
  row ← a !! i;
  row' ← Py.setitem row j v;
  Py.setitem a i row'.

End np.

(** ** Data model ([utils.py]) *)

(** [ADEvent]: the field [end] is spelled [end_]. *)
Record ADEvent := mkEvent {
  start : Q;
  end_ : Q;
  text : string;
  index : Z
}.

Inductive MatchType :=
  | cluster | generated_only | reference_only
  | overlap | no_overlap
  | dp_match | dp_gen_gap | dp_ref_gap.

(** [MatchedPair]; [gen_start] and [gen_end] are [None] in the records of
    reference events alone. *)
Record MatchedPair := mkPair {
  gen_events : list ADEvent;
  ref_events : list ADEvent;
  gen_indices : list Z;
  ref_indices : list Z;
  combined_gen_text : string;
  combined_ref_text : string;
  gen_start : option Q;
  gen_end : option Q;
  ref_start : option Q;
  ref_end : option Q;
  matched : bool;
  match_type : MatchType;
  score : option Q
}.

Section Intervals.
Local Open Scope Q_scope.

(** [ADEvent.overlap_duration]. *)
Definition overlap_duration (self other : ADEvent) : Q :=
  let overlap_start := Py.max (start self) (start other) in
  let overlap_end := Py.min (end_ self) (end_ other) in
  Py.max 0 (overlap_end - overlap_start).

(** [ADEvent.overlaps_with]: the body recomputes the duration. *)
Definition overlaps_with (self other : ADEvent) (min_overlap : Q) : bool :=
  let overlap_start := Py.max (start self) (start other) in
  let overlap_end := Py.min (end_ self) (end_ other) in
  let overlap_duration := Py.max 0 (overlap_end - overlap_start) in
  Py.le min_overlap overlap_duration.

(** [DPMatcher._temporal_iou] (a static method). *)
Definition _temporal_iou (g r : ADEvent) : option Q :=
  let inter_start := Py.max (start g) (start r) in
  let inter_end := Py.min (end_ g) (end_ r) in
  let intersection := Py.max 0 (inter_end - inter_start) in
  let union := (end_ g - start g) + (end_ r - start r) - intersection in
  if Py.le union 0 then Some 0
  else Py.truediv intersection union.

End Intervals.

(** [combine_texts(events, separator)]. *)
Definition combine_texts (separator : string) (events : list ADEvent)
  : string :=
  if negb (Py.truthy events) then EmptyString
  else
    let sorted_events := Py.sorted Py.lt start events in
    String.concat separator (map text sorted_events).

(** [get_time_range]. *)
Definition get_time_range (events : list ADEvent) : option (Q * Q) :=
  if negb (Py.truthy events) then Some (0%Q, 0%Q)
  else
    min_start ← Py.min_of (map start events);
    max_end ← Py.max_of (map end_ events);
    Some (min_start, max_end).

(** ** Union-find ([matchers.py], class [UnionFind]) *)

Module UnionFind.

Record t := mk {
  parent : list nat;
  rank : list nat
}.

(** [__init__]: [parent = list(range(n))], [rank = [0] * n]. *)
Definition init (n : nat) : t := mk (seq 0 n) (replicate n 0%nat).

(** [find], with the recursion depth bounded by [depth]. *)
Fixpoint find_rec (depth : nat) (self : t) (x : nat) : option (t * nat) :=
  match depth with
  | O => None
  | S d =>
      px ← parent self !! x;
      if decide (px ≠ x) then
        '(self1, r) ← find_rec d self px;
        parent' ← Py.setitem (parent self1) x r;
        let self2 := mk parent' (rank self1) in
        res ← parent self2 !! x;
        Some (self2, res)
      else
        res ← parent self !! x;
        Some (self, res)
  end.

(** Ranks grow along a chain of parents and never exceed the number of
    elements, so one more than that number is depth enough for every call
    (proved below as [find_total]). *)
Definition find (self : t) (x : nat) : option (t * nat) :=
  find_rec (S (length (parent self))) self x.

Definition union (self : t) (x y : nat) : option t :=
  '(self1, px) ← find self x;
  '(self2, py) ← find self1 y;
  if decide (px = py) then Some self2
  else
    rpx ← rank self2 !! px;
    rpy ← rank self2 !! py;
    let '(px, py) := if (rpx <? rpy)%nat then (py, px) else (px, py) in
    parent' ← Py.setitem (parent self2) py px;
    let self3 := mk parent' (rank self2) in
    rpx ← rank self3 !! px;
    rpy ← rank self3 !! py;
    if decide (rpx = rpy) then
      rank' ← Py.setitem (rank self3) px (rpx + 1)%nat;
      Some (mk (parent self3) rank')
    else Some self3.

End UnionFind.

(** ** Cluster matcher *)

Module ClusterMatcher.

Record t := mk { min_overlap_sec : Q }.

Inductive Source := generated | reference.

#[global] Instance Source_eq_dec : EqDecision Source.
Proof. solve_decision. Defined.

(** An entry [{'event': e, 'source': s}] of the working list. *)
Abbreviation entry := (ADEvent * Source)%type (only parsing).

(** The unified event list: generated events first. *)
Definition unified (gen_events ref_events : list ADEvent) : list entry :=
  map (λ event, (event, generated)) gen_events
  ++ map (λ event, (event, reference)) ref_events.

(** The two nested loops that link overlapping events. *)
Definition build_clusters (self : t) (events : list entry)
  : option UnionFind.t :=
  let n := length events in
  Py.for_ (Py.range 0 n) (λ i uf,
    Py.for_ (Py.range (i + 1) n) (λ j uf,
      e1 ← events !! i;
      e2 ← events !! j;
      if overlaps_with e1.1 e2.1 (min_overlap_sec self)
      then UnionFind.union uf i j
      else Some uf) uf) (UnionFind.init n).

(** The dict [clusters], keys in insertion order. [dict_append] is
    [if root not in clusters: clusters[root] = []] followed by
    [clusters[root].append(e)]. *)
Fixpoint dict_append (root : nat) (e : entry)
  (clusters : list (nat * list entry)) : list (nat * list entry) :=
  match clusters with
  | [] => [(root, [e])]
  | (k, v) :: rest =>
      if decide (k = root) then (k, v ++ [e]) :: rest
      else (k, v) :: dict_append root e rest
  end.

Definition group_events (uf : UnionFind.t) (events : list entry)
  : option (UnionFind.t * list (nat * list entry)) :=
  Py.for_ (Py.range 0 (length events)) (λ i '(uf, clusters),
    '(uf', root) ← UnionFind.find uf i;
    e ← events !! i;
    Some (uf', dict_append root e clusters)) (uf, []).

Definition generated_only_record (event : ADEvent) : MatchedPair :=
  {| gen_events := [event]; ref_events := [];
     gen_indices := [index event]; ref_indices := [];
     combined_gen_text := text event; combined_ref_text := EmptyString;
     gen_start := Some (start event); gen_end := Some (end_ event);
     ref_start := None; ref_end := None;
     matched := false; match_type := generated_only; score := None |}.

Definition reference_only_record (event : ADEvent) : MatchedPair :=
  {| gen_events := []; ref_events := [event];
     gen_indices := []; ref_indices := [index event];
     combined_gen_text := EmptyString; combined_ref_text := text event;
     gen_start := None; gen_end := None;
     ref_start := Some (start event); ref_end := Some (end_ event);
     matched := false; match_type := reference_only; score := None |}.

(** The records appended for one cluster (one pass of the loop over
    [clusters.values()]). *)
Definition cluster_records (cluster_events : list entry)
  : option (list MatchedPair) :=
  let gen_in_cluster :=
    map fst (filter (λ e, e.2 = generated) cluster_events) in
  let ref_in_cluster :=
    map fst (filter (λ e, e.2 = reference) cluster_events) in
  if Py.truthy gen_in_cluster && Py.truthy ref_in_cluster then
    let gen_sorted := Py.sorted Py.lt start gen_in_cluster in
    let ref_sorted := Py.sorted Py.lt start ref_in_cluster in
    gs ← Py.min_of (map start gen_sorted);
    ge ← Py.max_of (map end_ gen_sorted);
    rs ← Py.min_of (map start ref_sorted);
    re ← Py.max_of (map end_ ref_sorted);
    Some [ {| gen_events := gen_sorted; ref_events := ref_sorted;
              gen_indices := map index gen_sorted;
              ref_indices := map index ref_sorted;
              combined_gen_text := combine_texts " " gen_sorted;
              combined_ref_text := combine_texts " " ref_sorted;
              gen_start := Some gs; gen_end := Some ge;
              ref_start := Some rs; ref_end := Some re;
              matched := true; match_type := cluster; score := None |} ]
  else if Py.truthy gen_in_cluster then
    Some (map generated_only_record gen_in_cluster)
  else if Py.truthy ref_in_cluster then
    Some (map reference_only_record ref_in_cluster)
  else Some [].

Definition sort_key (p : MatchedPair) : Q * nat :=
  match gen_start p, ref_start p with
  | Some gs, _ => (gs, 0%nat)
  | None, Some rs => (rs, 1%nat)
  | None, None => (0%Q, 2%nat)
  end.

(** The dict [clusters] at the end of the grouping loop. *)
Definition clusters_of (self : t) (gen_events ref_events : list ADEvent)
  : option (list (nat * list entry)) :=
  let events := unified gen_events ref_events in
  uf ← build_clusters self events;
  '(_, clusters) ← group_events uf events;
  Some clusters.

Definition match_ (self : t) (gen_events ref_events : list ADEvent)
  : option (list MatchedPair) :=
  let events := unified gen_events ref_events in
  let n := length events in
  if decide (n = 0%nat) then Some []
  else
    clusters ← clusters_of self gen_events ref_events;
    per_cluster ← mapM cluster_records (map snd clusters);
    let matched_pairs := concat per_cluster in
    Some (Py.sorted Py.tuple_lt sort_key matched_pairs).

End ClusterMatcher.

(** ** Overlap matcher *)

Module OverlapMatcher.

Record t := mk { min_overlap_sec : Q }.

(** The list [overlapping] built by the inner loop for one generated
    event. *)
Definition overlapping_of (self : t) (gen_event : ADEvent)
  (ref_events : list ADEvent) : list (ADEvent * Q) :=
  omap (λ ref_event,
    let overlap := overlap_duration gen_event ref_event in
    if Py.le (min_overlap_sec self) overlap
    then Some (ref_event, overlap) else None) ref_events.

(** The record appended for one generated event. *)
Definition record_of (self : t) (gen_event : ADEvent)
  (ref_events : list ADEvent) : option MatchedPair :=
  let overlapping := overlapping_of self gen_event ref_events in
  if Py.truthy overlapping then
    let overlapping := Py.sorted Py.lt (λ x, (- x.2)%Q) overlapping in
    let ref_sorted := map fst overlapping in
    rs ← Py.min_of (map start ref_sorted);
    re ← Py.max_of (map end_ ref_sorted);
    Some {| gen_events := [gen_event]; ref_events := ref_sorted;
            gen_indices := [index gen_event];
            ref_indices := map index ref_sorted;
            combined_gen_text := text gen_event;
            combined_ref_text := combine_texts " " ref_sorted;
            gen_start := Some (start gen_event);
            gen_end := Some (end_ gen_event);
            ref_start := Some rs; ref_end := Some re;
            matched := true; match_type := overlap; score := None |}
  else
    Some {| gen_events := [gen_event]; ref_events := [];
            gen_indices := [index gen_event]; ref_indices := [];
            combined_gen_text := text gen_event;
            combined_ref_text := EmptyString;
            gen_start := Some (start gen_event);
            gen_end := Some (end_ gen_event);
            ref_start := None; ref_end := None;
            matched := false; match_type := no_overlap; score := None |}.

Definition match_ (self : t) (gen_events ref_events : list ADEvent)
  : option (list MatchedPair) :=
  mapM (λ gen_event, record_of self gen_event ref_events) gen_events.

End OverlapMatcher.

(** ** DP matcher *)

Module DPMatcher.

(** [DPMatcher._token_overlap_similarity] (a static method): Jaccard
    similarity of the two token sets. *)
Definition _token_overlap_similarity (a b : string) : option Q :=
  let sa : gset string := list_to_set (Py.split (Py.lower a)) in
  let sb : gset string := list_to_set (Py.split (Py.lower b)) in
  if decide (sa = ∅ ∨ sb = ∅) then Some 0%Q
  else
    let inter := size (sa ∩ sb) in
    let union := size (sa ∪ sb) in
    Py.truediv (inject_Z (Z.of_nat inter)) (inject_Z (Z.of_nat union)).

Section WithExp.
Local Open Scope Q_scope.

(** [math.exp], a parameter of the development. *)
Variable math_exp : Q → Q.

Record t := mk {
  w_time : Q;
  w_text : Q;
  gap_penalty_gen : Q;
  gap_penalty_ref : Q;
  time_scale : Q;
  time_soft : bool;
  text_sim_func : string → string → option Q
}.

(** [__init__]: a missing [text_sim_func] is the token overlap. *)
Definition init (w_time w_text gap_penalty_gen gap_penalty_ref
    time_scale : Q) (time_soft : bool)
    (text_sim_func : option (string → string → option Q)) : t :=
  mk w_time w_text gap_penalty_gen gap_penalty_ref time_scale time_soft
     (default _token_overlap_similarity text_sim_func).

Definition _soft_time_similarity (self : t) (g r : ADEvent) : option Q :=
  let dt := Py.abs (start g - start r) in
  x ← Py.truediv (- dt) (time_scale self);
  Some (math_exp x).

Definition _combined_similarity (self : t) (g r : ADEvent) : option Q :=
  s_text ← text_sim_func self (text g) (text r);
  s_time ← (if time_soft self then _soft_time_similarity self g r
            else _temporal_iou g r);
  Some (w_time self * s_time + w_text self * s_text).

Definition _build_similarity_matrix (self : t)
    (gen_events ref_events : list ADEvent) : option (np.ndarray Q) :=
  let n := length gen_events in
  let m := length ref_events in
  let S := np.full n m 0 in
  Py.for_ (Py.enumerate gen_events) (λ '(i, g) S,
    Py.for_ (Py.enumerate ref_events) (λ '(j, r) S,
      v ← _combined_similarity self g r;
      np.set S i j v) S) S.

(** One pass of the body of the double loop that fills the table. *)
Definition fill_cell (self : t) (sim_matrix : np.ndarray Q) (i j : nat)
    (tables : np.ndarray Q * np.ndarray nat)
  : option (np.ndarray Q * np.ndarray nat) :=
  let '(dp, bt) := tables in
  d ← np.get dp (i - 1) (j - 1);
  s ← np.get sim_matrix (i - 1) (j - 1);
  let match_score := d + s in
  u ← np.get dp (i - 1) j;
  let skip_gen_score := u + gap_penalty_gen self in
  l ← np.get dp i (j - 1);
  let skip_ref_score := l + gap_penalty_ref self in
  let best := match_score in
  bt ← np.set bt i j 0%nat;
  '(best, bt) ← (if Py.lt best skip_gen_score
                 then bt ← np.set bt i j 1%nat; Some (skip_gen_score, bt)
                 else Some (best, bt));
  '(best, bt) ← (if Py.lt best skip_ref_score
                 then bt ← np.set bt i j 2%nat; Some (skip_ref_score, bt)
                 else Some (best, bt));
  dp ← np.set dp i j best;
  Some (dp, bt).

(** The first half of [_dp_align]: the score table [dp] and the table of
    choices [bt] (0 = diagonal, 1 = up, 2 = left). *)
Definition dp_tables (self : t) (sim_matrix : np.ndarray Q)
  : option (np.ndarray Q * np.ndarray nat) :=
  let '(n, m) := np.shape sim_matrix in
  let dp := np.full (n + 1) (m + 1) (- (1000000000 # 1)) in
  let bt := np.full (n + 1) (m + 1) 0%nat in
  dp ← np.set dp 0 0 0;
  tables ← Py.for_ (Py.range 1 (n + 1)) (λ i '(dp, bt),
    v ← np.get dp (i - 1) 0;
    dp ← np.set dp i 0 (v + gap_penalty_gen self);
    bt ← np.set bt i 0 1%nat;
    Some (dp, bt)) (dp, bt);
  tables ← Py.for_ (Py.range 1 (m + 1)) (λ j '(dp, bt),
    v ← np.get dp 0 (j - 1);
    dp ← np.set dp 0 j (v + gap_penalty_ref self);
    bt ← np.set bt 0 j 2%nat;
    Some (dp, bt)) tables;
  Py.for_ (Py.range 1 (n + 1)) (λ i tables,
    Py.for_ (Py.range 1 (m + 1)) (λ j tables,
      fill_cell self sim_matrix i j tables) tables) tables.

(** An alignment step [(g_idx, r_idx, score)]. *)
Definition step : Type := option nat * option nat * Q.

(** The backtracking [while] loop, at most [fuel] iterations. *)
Fixpoint backtrack (fuel : nat) (self : t) (sim_matrix : np.ndarray Q)
    (bt : np.ndarray nat) (i j : nat) (alignment : list step)
  : option (list step) :=
  if ((0 <? i) || (0 <? j))%nat then
    match fuel with
    | O => None
    | S fuel' =>
        move ← np.get bt i j;
        if ((0 <? i) && (0 <? j) && (move =? 0))%nat then
          score ← np.get sim_matrix (i - 1) (j - 1);
          backtrack fuel' self sim_matrix bt (i - 1) (j - 1)
            (alignment ++ [(Some (i - 1)%nat, Some (j - 1)%nat, score)])
        else if ((0 <? i) && ((j =? 0) || (move =? 1)))%nat then
          backtrack fuel' self sim_matrix bt (i - 1) j
            (alignment ++ [(Some (i - 1)%nat, None, gap_penalty_gen self)])
        else
          backtrack fuel' self sim_matrix bt i (j - 1)
            (alignment ++ [(None, Some (j - 1)%nat, gap_penalty_ref self)])
    end
  else Some alignment.

(** [_dp_align]. Every iteration of the loop lowers [i + j], so [n + m]
    iterations are enough (proved below). *)
Definition _dp_align (self : t) (sim_matrix : np.ndarray Q)
  : option (list step) :=
  let '(n, m) := np.shape sim_matrix in
  '(dp, bt) ← dp_tables self sim_matrix;
  alignment ← backtrack (n + m) self sim_matrix bt n m [];
  Some (rev alignment).

(** The record built for one alignment step. *)
Definition record_of (gen_events ref_events : list ADEvent) (s : step)
  : option MatchedPair :=
  match s with
  | (Some g_idx, Some r_idx, score) =>
      g ← gen_events !! g_idx;
      r ← ref_events !! r_idx;
      Some {| gen_events := [g]; ref_events := [r];
              gen_indices := [index g]; ref_indices := [index r];
              combined_gen_text := text g; combined_ref_text := text r;
              gen_start := Some (start g); gen_end := Some (end_ g);
              ref_start := Some (start r); ref_end := Some (end_ r);
              matched := true; match_type := dp_match;
              score := Some score |}
  | (Some g_idx, None, score) =>
      g ← gen_events !! g_idx;
      Some {| gen_events := [g]; ref_events := [];
              gen_indices := [index g]; ref_indices := [];
              combined_gen_text := text g;
              combined_ref_text := EmptyString;
              gen_start := Some (start g); gen_end := Some (end_ g);
              ref_start := None; ref_end := None;
              matched := false; match_type := dp_gen_gap;
              score := Some score |}
  | (None, o_idx, score) =>
      r_idx ← o_idx;
      r ← ref_events !! r_idx;
      Some {| gen_events := []; ref_events := [r];
              gen_indices := []; ref_indices := [index r];
              combined_gen_text := EmptyString;
              combined_ref_text := text r;
              gen_start := None; gen_end := None;
              ref_start := Some (start r); ref_end := Some (end_ r);
              matched := false; match_type := dp_ref_gap;
              score := Some score |}
  end.

Definition match_ (self : t) (gen_events ref_events : list ADEvent)
  : option (list MatchedPair) :=
  if negb (Py.truthy gen_events) || negb (Py.truthy ref_events)
  then Some []
  else
    sim_matrix ← _build_similarity_matrix self gen_events ref_events;
    alignment ← _dp_align self sim_matrix;
    mapM (record_of gen_events ref_events) alignment.

End WithExp.
End DPMatcher.

(** ** Coverage statistics ([utils.py]) and precision / recall ([cli.py]) *)

Record CoverageStats := mkStats {
  gen_time_start : Q;
  gen_time_end : Q;
  gen_total : Z;
  gen_matched : Z;
  gen_unmatched : Z;
  gen_coverage_pct : Q;
  ref_in_range : Z;
  ref_matched : Z;
  ref_unmatched : Z;
  ref_coverage_pct : Q
}.

(** The loop [for pair in matched_pairs: if pair.matched:
    indices.update(pair.<field>)]. *)
Definition matched_indices (field : MatchedPair → list Z)
    (matched_pairs : list MatchedPair) : gset Z :=
  foldl (λ acc pair,
    if matched pair then acc ∪ list_to_set (field pair) else acc)
    ∅ matched_pairs.

Definition len {A} (l : list A) : Z := Z.of_nat (length l).

Section Stats.
Local Open Scope Q_scope.

Definition calculate_coverage_stats (gen_events ref_events : list ADEvent)
    (matched_pairs : list MatchedPair) : option CoverageStats :=
  gen_time_range ← get_time_range gen_events;
  let gen_total := len gen_events in
  let gen_matched_indices := matched_indices gen_indices matched_pairs in
  let gen_matched := Z.of_nat (size gen_matched_indices) in
  let gen_unmatched := (gen_total - gen_matched)%Z in
  let ref_total := len ref_events in
  let ref_matched_indices := matched_indices ref_indices matched_pairs in
  let ref_matched := Z.of_nat (size ref_matched_indices) in
  let ref_unmatched := (ref_total - ref_matched)%Z in
  gen_pct ← (if (0 <? gen_total)%Z
             then q ← Py.truediv (inject_Z gen_matched) (inject_Z gen_total);
                  Some (q * 100)
             else Some 0);
  ref_pct ← (if (0 <? ref_total)%Z
             then q ← Py.truediv (inject_Z ref_matched) (inject_Z ref_total);
                  Some (q * 100)
             else Some 0);
  Some {| gen_time_start := gen_time_range.1;
          gen_time_end := gen_time_range.2;
          gen_total := gen_total;
          gen_matched := gen_matched;
          gen_unmatched := gen_unmatched;
          gen_coverage_pct := gen_pct;
          ref_in_range := ref_total;
          ref_matched := ref_matched;
          ref_unmatched := ref_unmatched;
          ref_coverage_pct := ref_pct |}.

(** The three assignments of [run_evaluation] that compute precision,
    recall and F1 from the four counts. *)
Definition precision_recall_f1 (total_gen total_ref matched_gen
    matched_ref : Z) : option (Q * Q * Q) :=
  precision ← (if (0 <? total_gen)%Z
               then Py.truediv (inject_Z matched_gen) (inject_Z total_gen)
               else Some 0);
  recall ← (if (0 <? total_ref)%Z
            then Py.truediv (inject_Z matched_ref) (inject_Z total_ref)
            else Some 0);
  f1_score ← (if Py.lt 0 (precision + recall)
              then Py.truediv (2 * precision * recall) (precision + recall)
              else Some 0);
  Some (precision, recall, f1_score).

(** [run_evaluation], from the coverage statistics to the three scores. *)
Definition run_evaluation (gen_events ref_events : list ADEvent)
    (matched_pairs : list MatchedPair) : option (Q * Q * Q) :=
  coverage ← calculate_coverage_stats gen_events ref_events matched_pairs;
  let total_gen := len gen_events in
  let total_ref := len ref_events in
  let matched_gen := gen_matched coverage in
  let matched_ref := ref_matched coverage in
  precision_recall_f1 total_gen total_ref matched_gen matched_ref.

End Stats.

(** ** Binary64 floats *)

(** Python's [float] and numpy's [float64]: the binary64 format, with the
    operations of the Standard Library's [SpecFloat] at precision 53 and
    maximal exponent 1024 (round to nearest, ties to even). A binary64
    value is a [spec_float] that is [valid_binary]; the definitions and
    the theorems below are stated for every [spec_float]. *)
Module F64.

Abbreviation float := SpecFloat.spec_float (only parsing).

Definition prec : Z := 53.
Definition emax : Z := 1024.

Definition zero : float := SpecFloat.S754_zero false.
Definition nan : float := SpecFloat.S754_nan.

(** An integer as a float, and the float literal [n / d] of a decimal
    fraction (the nearest binary64 value). *)
Definition of_Z (z : Z) : float :=
  SpecFloat.binary_normalize prec emax z 0 false.
Definition of_decimal (n d : Z) : float :=
  SpecFloat.SFdiv prec emax (of_Z n) (of_Z d).

Definition add : float → float → float := SpecFloat.SFadd prec emax.
Definition sub : float → float → float := SpecFloat.SFsub prec emax.
Definition mul : float → float → float := SpecFloat.SFmul prec emax.
Definition div : float → float → float := SpecFloat.SFdiv prec emax.
Definition neg : float → float := SpecFloat.SFopp.

(** [a < b], [a <= b], [a == b]: false as soon as an operand is NaN. *)
Definition lt : float → float → bool := SpecFloat.SFltb.
Definition le : float → float → bool := SpecFloat.SFleb.
Definition eqb : float → float → bool := SpecFloat.SFeqb.

Definition is_nan (x : float) : bool :=
  match x with SpecFloat.S754_nan => true | _ => false end.

(** Neither NaN nor an infinity. *)
Definition is_finite (x : float) : bool :=
  match x with
  | SpecFloat.S754_zero _ | SpecFloat.S754_finite _ _ _ => true
  | _ => false
  end.

(** Two-argument [max(a, b)] and [min(a, b)]: the first argument is kept
    unless the second is strictly greater (smaller). *)
Definition max (a b : float) : float := if lt a b then b else a.
Definition min (a b : float) : float := if lt b a then b else a.

(** [abs(x)] of a float. *)
Definition abs : float → float := SpecFloat.SFabs.

(** True division [a / b] of Python floats: [ZeroDivisionError] when [b]
    is a zero. *)
Definition truediv (a b : float) : option float :=
  if eqb b zero then None else Some (div a b).

(** [ADEvent] with binary64 times. *)
Record ADEvent := mkEvent {
  start : float;
  end_ : float;
  text : string;
  index : Z
}.

(** [ADEvent.overlap_duration]. The integer [0] of [max(0, ...)] acts as
    the float [0.0] in every later comparison and operation. *)
Definition overlap_duration (self other : ADEvent) : float :=
  let overlap_start := max (start self) (start other) in
  let overlap_end := min (end_ self) (end_ other) in
  max zero (sub overlap_end overlap_start).

(** [ADEvent.overlaps_with]. *)
Definition overlaps_with (self other : ADEvent) (min_overlap : float)
  : bool :=
  let overlap_start := max (start self) (start other) in
  let overlap_end := min (end_ self) (end_ other) in
  let overlap_duration := max zero (sub overlap_end overlap_start) in
  le min_overlap overlap_duration.

(** [DPMatcher._temporal_iou]. *)
Definition _temporal_iou (g r : ADEvent) : option float :=
  let inter_start := max (start g) (start r) in
  let inter_end := min (end_ g) (end_ r) in
  let intersection := max zero (sub inter_end inter_start) in
  let union :=
    sub (add (sub (end_ g) (start g)) (sub (end_ r) (start r)))
        intersection in
  if le union zero then Some zero
  else truediv intersection union.

(** ** DP matcher over binary64 *)

Module DPMatcher.

(** [DPMatcher._token_overlap_similarity]: the quotient of the two sizes
    is the correctly rounded quotient of two integers (the sizes are
    below 2^53, so their conversion is exact). *)
Definition _token_overlap_similarity (a b : string) : option float :=
  let sa : gset string := list_to_set (Py.split (Py.lower a)) in
  let sb : gset string := list_to_set (Py.split (Py.lower b)) in
  if decide (sa = ∅ ∨ sb = ∅) then Some zero
  else
    let inter := size (sa ∩ sb) in
    let union := size (sa ∪ sb) in
    truediv (of_Z (Z.of_nat inter)) (of_Z (Z.of_nat union)).

Section WithExp.

(** [math.exp]: a parameter; [None] is its [OverflowError]. *)
Variable math_exp : float → option float.

Record t := mk {
  w_time : float;
  w_text : float;
  gap_penalty_gen : float;
  gap_penalty_ref : float;
  time_scale : float;
  time_soft : bool;
  text_sim_func : string → string → option float
}.

Definition init (w_time w_text gap_penalty_gen gap_penalty_ref
    time_scale : float) (time_soft : bool)
    (text_sim_func : option (string → string → option float)) : t :=
  mk w_time w_text gap_penalty_gen gap_penalty_ref time_scale time_soft
     (default _token_overlap_similarity text_sim_func).

Definition _soft_time_similarity (self : t) (g r : ADEvent)
  : option float :=
  let dt := abs (sub (start g) (start r)) in
  x ← truediv (neg dt) (time_scale self);
  math_exp x.

Definition _combined_similarity (self : t) (g r : ADEvent)
  : option float :=
  s_text ← text_sim_func self (text g) (text r);
  s_time ← (if time_soft self then _soft_time_similarity self g r
            else _temporal_iou g r);
  Some (add (mul (w_time self) s_time) (mul (w_text self) s_text)).

Definition _build_similarity_matrix (self : t)
    (gen_events ref_events : list ADEvent) : option (np.ndarray float) :=
  let n := length gen_events in
  let m := length ref_events in
  let S := np.full n m zero in
  Py.for_ (Py.enumerate gen_events) (λ '(i, g) S,
    Py.for_ (Py.enumerate ref_events) (λ '(j, r) S,
      v ← _combined_similarity self g r;
      np.set S i j v) S) S.

(** One pass of the body of the double loop that fills the table. *)
Definition fill_cell (self : t) (sim_matrix : np.ndarray float)
    (i j : nat) (tables : np.ndarray float * np.ndarray nat)
  : option (np.ndarray float * np.ndarray nat) :=
  let '(dp, bt) := tables in
  d ← np.get dp (i - 1) (j - 1);
  s ← np.get sim_matrix (i - 1) (j - 1);
  let match_score := add d s in
  u ← np.get dp (i - 1) j;
  let skip_gen_score := add u (gap_penalty_gen self) in
  l ← np.get dp i (j - 1);
  let skip_ref_score := add l (gap_penalty_ref self) in
  let best := match_score in
  bt ← np.set bt i j 0%nat;
  '(best, bt) ← (if lt best skip_gen_score
                 then bt ← np.set bt i j 1%nat; Some (skip_gen_score, bt)
                 else Some (best, bt));
  '(best, bt) ← (if lt best skip_ref_score
                 then bt ← np.set bt i j 2%nat; Some (skip_ref_score, bt)
                 else Some (best, bt));
  dp ← np.set dp i j best;
  Some (dp, bt).

(** The first half of [_dp_align]: the score table [dp] and the table of
    choices [bt] (0 = diagonal, 1 = up, 2 = left). *)
Definition dp_tables (self : t) (sim_matrix : np.ndarray float)
  : option (np.ndarray float * np.ndarray nat) :=
  let '(n, m) := np.shape sim_matrix in
  let dp := np.full (n + 1) (m + 1) (of_Z (-1000000000)) in
  let bt := np.full (n + 1) (m + 1) 0%nat in
  dp ← np.set dp 0 0 zero;
  tables ← Py.for_ (Py.range 1 (n + 1)) (λ i '(dp, bt),
    v ← np.get dp (i - 1) 0;
    dp ← np.set dp i 0 (add v (gap_penalty_gen self));
    bt ← np.set bt i 0 1%nat;
    Some (dp, bt)) (dp, bt);
  tables ← Py.for_ (Py.range 1 (m + 1)) (λ j '(dp, bt),
    v ← np.get dp 0 (j - 1);
    dp ← np.set dp 0 j (add v (gap_penalty_ref self));
    bt ← np.set bt 0 j 2%nat;
    Some (dp, bt)) tables;
  Py.for_ (Py.range 1 (n + 1)) (λ i tables,
    Py.for_ (Py.range 1 (m + 1)) (λ j tables,
      fill_cell self sim_matrix i j tables) tables) tables.

End WithExp.
End DPMatcher.

End F64.

(** ** Matcher factory ([matchers.py]) and its call in [cli.py] *)

Module Factory.

(** The exceptions of the factory: [ValueError] of an unknown method,
    [TypeError] of a keyword that a constructor does not take. *)
Inductive exn := ValueError | TypeError.

(** The values of the keyword arguments: the floats and the booleans of
    [MatcherConfig]. *)
Inductive value := VFloat (x : F64.float) | VBool (b : bool).

(** Truth value of a value, as [or] tests it. *)
Definition truthy (v : value) : bool :=
  match v with
  | VFloat x => negb (F64.eqb x F64.zero)
  | VBool b => b
  end.

(** Keyword arguments: the items of a dict with distinct keys, in
    insertion order. *)
Abbreviation kwargs := (list (string * value)) (only parsing).

Definition get (kw : kwargs) (key : string) : option value :=
  snd <$> List.find (λ item, String.eqb item.1 key) kw.

(** [d.update(other)] with keys that [d] does not hold yet. *)
Definition update (kw other : kwargs) : kwargs := kw ++ other.

(** A call with keyword arguments only, of a function whose parameters
    all have defaults: every keyword has to name a parameter. *)
Definition accepts (params : list string) (kw : kwargs) : bool :=
  forallb (λ item, existsb (String.eqb item.1) params) kw.

(** The matcher objects, with the attributes set by [__init__]; the
    attribute [text_sim_func] is [None] for the default
    [_token_overlap_similarity]. *)
Inductive matcher :=
  | ClusterMatcher_ (min_overlap_sec : value)
  | OverlapMatcher_ (min_overlap_sec : value)
  | DPMatcher_ (w_time w_text gap_penalty_gen gap_penalty_ref
                time_scale time_soft : value)
               (text_sim_func : option value).


(** The constructors of the three matchers, called with keyword
    arguments. *)
Definition new_ClusterMatcher (kw : kwargs) : exn + matcher :=
  if accepts ["min_overlap_sec"] kw then
    inr (ClusterMatcher_
           (default (VFloat (F64.of_decimal 5 10))
                    (get kw "min_overlap_sec")))
  else inl TypeError.

Definition new_OverlapMatcher (kw : kwargs) : exn + matcher :=
  if accepts ["min_overlap_sec"] kw then
    inr (OverlapMatcher_
           (default (VFloat (F64.of_decimal 5 10))
                    (get kw "min_overlap_sec")))
  else inl TypeError.

Definition new_DPMatcher (kw : kwargs) : exn + matcher :=
  if accepts ["w_time"; "w_text"; "gap_penalty_gen"; "gap_penalty_ref";
              "time_scale"; "time_soft"; "text_sim_func"] kw then
    inr (DPMatcher_
           (default (VFloat (F64.of_decimal 3 10)) (get kw "w_time"))
           (default (VFloat (F64.of_decimal 7 10)) (get kw "w_text"))
           (default (VFloat (F64.neg (F64.of_decimal 2 10)))
                    (get kw "gap_penalty_gen"))
           (default (VFloat (F64.neg (F64.of_decimal 2 10)))
                    (get kw "gap_penalty_ref"))
           (default (VFloat (F64.of_Z 10)) (get kw "time_scale"))
           (default (VBool true) (get kw "time_soft"))
           (match get kw "text_sim_func" with
            | Some v => if truthy v then Some v else None
            | None => None
            end))
  else inl TypeError.

(** [get_matcher]: the method and the keyword arguments. *)
Definition get_matcher (method : string) (kw : kwargs) : exn + matcher :=
  let matchers := [("cluster", new_ClusterMatcher);
                   ("dp", new_DPMatcher);
                   ("overlap", new_OverlapMatcher)] in
  let method_lower := Py.lower method in
  match List.find (λ item, String.eqb item.1 method_lower) matchers with
  | None => inl ValueError
  | Some item => item.2 kw
  end.

(** [MatcherConfig]. *)
Record MatcherConfig := mkConfig {
  method : string;
  min_overlap_sec : value;
  w_time : value;
  w_text : value;
  gap_penalty_gen : value;
  gap_penalty_ref : value;
  time_scale : value;
  time_soft : value
}.

(** The creation of the matcher in [run_evaluation]. *)
Definition create_matcher (config : MatcherConfig) : exn + matcher :=
  let matcher_kwargs := [("min_overlap_sec", min_overlap_sec config)] in
  let matcher_kwargs :=
    if String.eqb (method config) "dp" then
      update matcher_kwargs
        [("w_time", w_time config);
         ("w_text", w_text config);
         ("gap_penalty_gen", gap_penalty_gen config);
         ("gap_penalty_ref", gap_penalty_ref config);
         ("time_scale", time_scale config);
         ("time_soft", time_soft config)]
    else matcher_kwargs in
  get_matcher (method config) matcher_kwargs.

End Factory.

(** * Part II: properties *)

(** ** Comparisons, [max] and [min] *)

Section PyNumbers.
Local Open Scope Q_scope.

Lemma Py_lt_spec a b : Py.lt a b = true ↔ a < b.
Proof.
  unfold Py.lt. rewrite negb_true_iff. split.
  - intros H. apply Qnot_le_lt. intros Hle.
    apply Qle_bool_iff in Hle. congruence.
  - intros H. destruct (Qle_bool b a) eqn:E; [|done].
    apply Qle_bool_iff in E. exfalso. eapply Qlt_not_le; eauto.
Qed.

Lemma Py_lt_false a b : Py.lt a b = false ↔ b <= a.
Proof. unfold Py.lt. rewrite negb_false_iff. apply Qle_bool_iff. Qed.

Lemma Py_le_spec a b : Py.le a b = true ↔ a <= b.
Proof. apply Qle_bool_iff. Qed.

Lemma Py_le_false a b : Py.le a b = false ↔ b < a.
Proof.
  rewrite <- Py_lt_spec. unfold Py.lt, Py.le.
  destruct (Qle_bool a b); simpl; split; congruence.
Qed.

Lemma Py_eqb_spec a b : Py.eqb a b = true ↔ a == b.
Proof. apply Qeq_bool_iff. Qed.

Lemma Py_max_Qmax a b : Py.max a b == Qmax a b.
Proof.
  unfold Py.max. destruct (Py.lt a b) eqn:E.
  - apply Py_lt_spec in E. symmetry. apply Q.max_r. by apply Qlt_le_weak.
  - apply Py_lt_false in E. symmetry. by apply Q.max_l.
Qed.

Lemma Py_min_Qmin a b : Py.min a b == Qmin a b.
Proof.
  unfold Py.min. destruct (Py.lt b a) eqn:E.
  - apply Py_lt_spec in E. symmetry. apply Q.min_r. by apply Qlt_le_weak.
  - apply Py_lt_false in E. symmetry. by apply Q.min_l.
Qed.

Lemma Py_max_nonneg x : 0 <= Py.max 0 x.
Proof.
  unfold Py.max. destruct (Py.lt 0 x) eqn:E.
  - apply Py_lt_spec in E. by apply Qlt_le_weak.
  - apply Qle_refl.
Qed.

Lemma Py_max_cases a b : Py.max a b = a ∨ Py.max a b = b.
Proof. unfold Py.max. destruct (Py.lt a b); auto. Qed.

Lemma Py_min_cases a b : Py.min a b = a ∨ Py.min a b = b.
Proof. unfold Py.min. destruct (Py.lt b a); auto. Qed.

Lemma Py_max_ub a b : a <= Py.max a b ∧ b <= Py.max a b.
Proof.
  unfold Py.max. destruct (Py.lt a b) eqn:E.
  - apply Py_lt_spec in E. split; [by apply Qlt_le_weak | apply Qle_refl].
  - apply Py_lt_false in E. split; [apply Qle_refl | done].
Qed.

Lemma Py_min_lb a b : Py.min a b <= a ∧ Py.min a b <= b.
Proof.
  unfold Py.min. destruct (Py.lt b a) eqn:E.
  - apply Py_lt_spec in E. split; [by apply Qlt_le_weak | apply Qle_refl].
  - apply Py_lt_false in E. split; [apply Qle_refl | done].
Qed.

(** [min(iterable)] returns one of the elements, below all of them. *)
Lemma fold_min_spec xs x :
  let s := fold_left Py.min xs x in
  s ∈ x :: xs ∧ ∀ y, y ∈ x :: xs → s <= y.
Proof.
  revert x. induction xs as [|z xs IH]; intros x; simpl.
  - split; [set_solver |]. intros y Hy.
    apply list_elem_of_singleton in Hy as ->. apply Qle_refl.
  - destruct (IH (Py.min x z)) as [Hin Hle]. split.
    + apply elem_of_cons in Hin as [-> | Hin]; [|set_solver].
      destruct (Py_min_cases x z) as [-> | ->]; set_solver.
    + intros y Hy.
      assert (fold_left Py.min xs (Py.min x z) <= Py.min x z) as H0
        by (apply Hle; set_solver).
      destruct (Py_min_lb x z) as [H1 H2].
      apply elem_of_cons in Hy as [-> | Hy]; [by eapply Qle_trans |].
      apply elem_of_cons in Hy as [-> | Hy]; [by eapply Qle_trans |].
      apply Hle. set_solver.
Qed.

Lemma fold_max_spec xs x :
  let s := fold_left Py.max xs x in
  s ∈ x :: xs ∧ ∀ y, y ∈ x :: xs → y <= s.
Proof.
  revert x. induction xs as [|z xs IH]; intros x; simpl.
  - split; [set_solver |]. intros y Hy.
    apply list_elem_of_singleton in Hy as ->. apply Qle_refl.
  - destruct (IH (Py.max x z)) as [Hin Hle]. split.
    + apply elem_of_cons in Hin as [-> | Hin]; [|set_solver].
      destruct (Py_max_cases x z) as [-> | ->]; set_solver.
    + intros y Hy.
      assert (Py.max x z <= fold_left Py.max xs (Py.max x z)) as H0
        by (apply Hle; set_solver).
      destruct (Py_max_ub x z) as [H1 H2].
      apply elem_of_cons in Hy as [-> | Hy]; [by eapply Qle_trans |].
      apply elem_of_cons in Hy as [-> | Hy]; [by eapply Qle_trans |].
      apply Hle. set_solver.
Qed.

Lemma min_of_spec l :
  l ≠ [] → ∃ s, Py.min_of l = Some s ∧ s ∈ l ∧ ∀ y, y ∈ l → s <= y.
Proof.
  destruct l as [|x xs]; [done | intros _].
  eexists; split; [done |]. apply fold_min_spec.
Qed.

Lemma max_of_spec l :
  l ≠ [] → ∃ s, Py.max_of l = Some s ∧ s ∈ l ∧ ∀ y, y ∈ l → y <= s.
Proof.
  destruct l as [|x xs]; [done | intros _].
  eexists; split; [done |]. apply fold_max_spec.
Qed.

Lemma truediv_Some a b : ¬ b == 0 → Py.truediv a b = Some (a / b).
Proof.
  intros H. unfold Py.truediv. destruct (Py.eqb b 0) eqn:E; [|done].
  by apply Py_eqb_spec in E.
Qed.

End PyNumbers.

(** ** Interval arithmetic *)

Section IntervalFacts.
Local Open Scope Q_scope.

Lemma overlap_duration_Qminmax a b :
  overlap_duration a b
  == Qmax 0 (Qmin (end_ a) (end_ b) - Qmax (start a) (start b)).
Proof.
  unfold overlap_duration.
  rewrite Py_max_Qmax, Py_min_Qmin, Py_max_Qmax. reflexivity.
Qed.

Lemma overlap_duration_nonneg a b : 0 <= overlap_duration a b.
Proof. apply Py_max_nonneg. Qed.

Lemma overlaps_with_iff a b min_overlap :
  overlaps_with a b min_overlap = true ↔ min_overlap <= overlap_duration a b.
Proof. unfold overlaps_with, overlap_duration. apply Py_le_spec. Qed.

Lemma overlaps_with_nonpos a b min_overlap :
  min_overlap <= 0 → overlaps_with a b min_overlap = true.
Proof.
  intros H. apply overlaps_with_iff.
  eapply Qle_trans; [done | apply overlap_duration_nonneg].
Qed.

(** The guard [union <= 0] keeps [_temporal_iou] from dividing by
    zero. *)
Lemma temporal_iou_total g r : is_Some (_temporal_iou g r).
Proof.
  unfold _temporal_iou. cbn zeta. destruct (Py.le _ 0) eqn:E; [by eexists |].
  apply Py_le_false in E. rewrite truediv_Some; [by eexists |].
  intros H. rewrite H in E. by apply Qlt_irrefl in E.
Qed.

End IntervalFacts.

(** ** Intervals over binary64 *)

Section Float64Order.

(** The rank of a float that is not NaN: the order of the floats is the
    lexicographic order of the ranks. *)
Definition f64_rank (x : F64.float) : Z * Z * Z :=
  match x with
  | SpecFloat.S754_infinity true => (-2, 0, 0)
  | SpecFloat.S754_finite true m e => (-1, - e, - Z.pos m)
  | SpecFloat.S754_zero _ => (0, 0, 0)
  | SpecFloat.S754_nan => (0, 0, 0)
  | SpecFloat.S754_finite false m e => (1, e, Z.pos m)
  | SpecFloat.S754_infinity false => (2, 0, 0)
  end%Z.

Definition lex_lt (a b : Z * Z * Z) : Prop :=
  (a.1.1 < b.1.1
   ∨ (a.1.1 = b.1.1 ∧ (a.1.2 < b.1.2 ∨ (a.1.2 = b.1.2 ∧ a.2 < b.2))))%Z.

Definition lex_le (a b : Z * Z * Z) : Prop := lex_lt a b ∨ a = b.

Ltac float_cases :=
  repeat match goal with
  | x : SpecFloat.spec_float |- _ => destruct x as [[]|[]| |[] ? ?]
  end;
  unfold F64.lt, F64.le, F64.eqb, SpecFloat.SFltb, SpecFloat.SFleb,
    SpecFloat.SFeqb, SpecFloat.SFcompare, lex_le, lex_lt, f64_rank,
    F64.is_nan;
  cbn [fst snd];
  repeat match goal with
  | |- context [Z.compare ?a ?b] => destruct (Z.compare_spec a b)
  | |- context [Pos.compare_cont Eq ?a ?b] =>
      change (Pos.compare_cont Eq a b) with (Pos.compare a b);
      destruct (Pos.compare_spec a b)
  end;
  cbn [CompOpp];
  try (split; intros; try discriminate; try done);
  try (intuition (try discriminate; simplify_eq; try congruence; try lia)).

Lemma f64_lt_rank a b :
  F64.lt a b = true
  ↔ F64.is_nan a = false ∧ F64.is_nan b = false ∧ lex_lt (f64_rank a) (f64_rank b).
Proof. float_cases. Qed.

Lemma f64_le_lt_or_eqb a b : F64.le a b = F64.lt a b || F64.eqb a b.
Proof.
  unfold F64.le, F64.lt, F64.eqb, SpecFloat.SFleb, SpecFloat.SFltb,
    SpecFloat.SFeqb.
  by destruct (SpecFloat.SFcompare a b) as [[]|].
Qed.

Lemma f64_eqb_rank a b :
  F64.eqb a b = true
  ↔ F64.is_nan a = false ∧ F64.is_nan b = false ∧ f64_rank a = f64_rank b.
Proof. float_cases. Qed.

Lemma f64_le_rank a b :
  F64.le a b = true
  ↔ F64.is_nan a = false ∧ F64.is_nan b = false ∧ lex_le (f64_rank a) (f64_rank b).
Proof.
  rewrite f64_le_lt_or_eqb, orb_true_iff, f64_lt_rank, f64_eqb_rank. unfold lex_le.
  tauto.
Qed.

Lemma lex_total a b : lex_lt a b ∨ a = b ∨ lex_lt b a.
Proof.
  destruct a as [[a1 a2] a3], b as [[b1 b2] b3]. unfold lex_lt. simpl.
  destruct (Z.lt_trichotomy a1 b1) as [? | [-> | ?]]; [tauto | | tauto].
  destruct (Z.lt_trichotomy a2 b2) as [? | [-> | ?]]; [tauto | | tauto].
  destruct (Z.lt_trichotomy a3 b3) as [? | [-> | ?]]; tauto.
Qed.

Lemma lex_lt_trans a b c : lex_lt a b → lex_lt b c → lex_lt a c.
Proof. unfold lex_lt. lia. Qed.

Lemma lex_lt_irrefl a : ¬ lex_lt a a.
Proof. unfold lex_lt. lia. Qed.

Lemma f64_lt_le a b : F64.lt a b = true → F64.le a b = true.
Proof. intros H. by rewrite f64_le_lt_or_eqb, H. Qed.

Lemma f64_le_refl a : F64.is_nan a = false → F64.le a a = true.
Proof. intros H. apply f64_le_rank. unfold lex_le. tauto. Qed.

Lemma f64_not_lt_le a b :
  F64.is_nan a = false → F64.is_nan b = false →
  F64.lt a b = false → F64.le b a = true.
Proof.
  intros Ha Hb H. apply f64_le_rank. split; [done |]. split; [done |].
  destruct (lex_total (f64_rank a) (f64_rank b)) as [Hlt | [Heq | Hgt]].
  - assert (F64.lt a b = true) as E by (by apply f64_lt_rank). congruence.
  - right. done.
  - by left.
Qed.

Lemma f64_le_trans a b c :
  F64.le a b = true → F64.le b c = true → F64.le a c = true.
Proof.
  rewrite !f64_le_rank. intros (Ha & Hb & Hab) (_ & Hc & Hbc).
  split; [done |]. split; [done |]. unfold lex_le in *.
  destruct Hab as [Hab | ->]; [| done].
  destruct Hbc as [Hbc | <-]; [| by left].
  left. by eapply lex_lt_trans.
Qed.

(** A comparison that fails because of the order, not of a NaN. *)
Lemma f64_le_false_not_zero u :
  F64.le u F64.zero = false → F64.eqb u F64.zero = false.
Proof.
  rewrite f64_le_lt_or_eqb. intros H. by apply orb_false_iff in H as [_ H].
Qed.

End Float64Order.

Section Float64Intervals.

Lemma f64_max_zero_nonneg d : F64.le F64.zero (F64.max F64.zero d) = true.
Proof.
  unfold F64.max. destruct (F64.lt F64.zero d) eqn:E.
  - by apply f64_lt_le.
  - done.
Qed.

(** C6: over binary64. [overlap_duration(a, b)] is
    [max(0, min(a.end, b.end) - max(a.start, b.start))]: the rounded
    difference when that is positive and 0 otherwise (also when it is
    NaN), so it is never negative and never NaN; [max] and [min] keep
    their first argument unless the second is strictly greater
    (smaller). [overlaps_with] holds exactly when that duration is at
    least [min_overlap]. [_temporal_iou] always returns, without
    dividing by zero: [0] when the union
    [(a.end - a.start) + (b.end - b.start) - intersection] is at most 0,
    and the rounded quotient [intersection / union] otherwise, the union
    then being different from zero. The three are functions of their
    arguments alone. *)
Theorem interval_arithmetic_spec (a b : F64.ADEvent) (min_overlap : F64.float) :
  let latest_start :=
    if F64.lt (F64.start a) (F64.start b) then F64.start b
    else F64.start a in
  let earliest_end :=
    if F64.lt (F64.end_ b) (F64.end_ a) then F64.end_ b else F64.end_ a in
  let d := F64.sub earliest_end latest_start in
  let intersection := F64.overlap_duration a b in
  let union :=
    F64.sub (F64.add (F64.sub (F64.end_ a) (F64.start a))
                     (F64.sub (F64.end_ b) (F64.start b)))
            intersection in
  (F64.lt F64.zero d = true → intersection = d)
  ∧ (F64.lt F64.zero d = false → intersection = F64.zero)
  ∧ F64.le F64.zero intersection = true
  ∧ F64.overlaps_with a b min_overlap = F64.le min_overlap intersection
  ∧ ∃ v, F64._temporal_iou a b = Some v
         ∧ (F64.le union F64.zero = true → v = F64.zero)
         ∧ (F64.le union F64.zero = false →
              F64.eqb union F64.zero = false
              ∧ v = F64.div intersection union).
Proof.
  cbn zeta. split_and!.
  - intros H. unfold F64.overlap_duration, F64.max at 1, F64.min.
    cbn zeta. unfold F64.max at 1. by rewrite H.
  - intros H. unfold F64.overlap_duration, F64.max at 1, F64.min.
    cbn zeta. unfold F64.max at 1. by rewrite H.
  - apply f64_max_zero_nonneg.
  - reflexivity.
  - unfold F64._temporal_iou. cbn zeta. fold (F64.overlap_duration a b).
    destruct (F64.le _ F64.zero) eqn:E.
    + exists F64.zero. by split_and!.
    + pose proof (f64_le_false_not_zero _ E) as Hne.
      unfold F64.truediv. rewrite Hne. eexists. by split_and!.
Qed.

End Float64Intervals.

(** ** The stable sort *)

Section SortedFacts.
Context {A K : Type} (ltk : K → K → bool) (key : A → K).

Lemma insert_Permutation x l : Py.insert ltk key x l ≡ₚ x :: l.
Proof.
  induction l as [|y l IH]; simpl; [done |].
  destruct (ltk (key y) (key x)); [|done].
  rewrite IH. apply Permutation_swap.
Qed.

Lemma sorted_Permutation l : Py.sorted ltk key l ≡ₚ l.
Proof.
  induction l as [|x l IH]; simpl; [done |].
  by rewrite insert_Permutation, IH.
Qed.

Lemma sorted_length l : length (Py.sorted ltk key l) = length l.
Proof. by rewrite sorted_Permutation. Qed.

Lemma sorted_nil_inv l : Py.sorted ltk key l = [] → l = [].
Proof.
  intros H. apply Permutation_nil_r. by rewrite <- H, sorted_Permutation.
Qed.

Lemma elem_of_sorted x l : x ∈ Py.sorted ltk key l ↔ x ∈ l.
Proof. by rewrite sorted_Permutation. Qed.

(** Stability: a class of elements none of which is below another keeps
    its order. *)
Lemma insert_filter (P : A → Prop) `{!∀ x, Decision (P x)} x l :
  (∀ y, P x → P y → ltk (key y) (key x) = false) →
  filter P (Py.insert ltk key x l) = filter P (x :: l).
Proof.
  intros HP. induction l as [|y l IH]; simpl; [done |].
  destruct (ltk (key y) (key x)) eqn:E; [|done].
  rewrite !filter_cons in *. rewrite IH.
  destruct (decide (P x)) as [Hx|Hx], (decide (P y)) as [Hy|Hy]; try done.
  specialize (HP y Hx Hy). congruence.
Qed.

Lemma sorted_filter (P : A → Prop) `{!∀ x, Decision (P x)} l :
  (∀ x y, P x → P y → ltk (key y) (key x) = false) →
  filter P (Py.sorted ltk key l) = filter P l.
Proof.
  intros HP. induction l as [|x l IH]; simpl; [done |].
  rewrite insert_filter by eauto. by rewrite !filter_cons, IH.
Qed.

(** Sortedness, for an order whose [<] is asymmetric and whose [<=]
    (the negation of [>]) is transitive. *)
Section Order.
Hypothesis ltk_asym : ∀ a b, ltk a b = true → ltk b a = false.
Hypothesis lek_trans :
  ∀ a b c, ltk b a = false → ltk c b = false → ltk c a = false.

Lemma insert_StronglySorted x l :
  StronglySorted (λ a b, ltk (key b) (key a) = false) l →
  StronglySorted (λ a b, ltk (key b) (key a) = false)
    (Py.insert ltk key x l).
Proof.
  induction 1 as [|y l Hl IH Hy]; simpl.
  - repeat constructor.
  - destruct (ltk (key y) (key x)) eqn:E.
    + constructor; [done |].
      rewrite insert_Permutation. constructor; [|done]. by apply ltk_asym.
    + constructor; [by constructor |].
      constructor; [done |].
      eapply Forall_impl; [exact Hy |]. simpl. intros z Hz.
      by eapply lek_trans.
Qed.

Lemma sorted_StronglySorted l :
  StronglySorted (λ a b, ltk (key b) (key a) = false)
    (Py.sorted ltk key l).
Proof.
  induction l; simpl; [constructor | by apply insert_StronglySorted].
Qed.

(** The elements whose key is neither below nor above [k]. *)
Definition key_class (k : K) (x : A) : Prop :=
  ltk (key x) k = false ∧ ltk k (key x) = false.

#[local] Instance key_class_dec k x : Decision (key_class k x).
Proof. unfold key_class. apply _. Defined.

Lemma ltk_irrefl a : ltk a a = false.
Proof.
  destruct (ltk a a) eqn:E; [| done]. by rewrite (ltk_asym a a E) in E.
Qed.

(** Two sorted lists with the same elements of every class, in the same
    order, are equal. *)
Lemma stable_sorted_unique l1 l2 :
  StronglySorted (λ a b, ltk (key b) (key a) = false) l1 →
  StronglySorted (λ a b, ltk (key b) (key a) = false) l2 →
  (∀ k, filter (key_class k) l1 = filter (key_class k) l2) →
  l1 = l2.
Proof.
  intros H1. revert l2. induction H1 as [|x l1 Hs1 IH Hx]; intros l2 H2 Hf.
  - destruct l2 as [|y l2]; [done |]. specialize (Hf (key y)).
    rewrite filter_nil, filter_cons_True in Hf; [done |].
    split; apply ltk_irrefl.
  - destruct H2 as [|y l2 Hs2 Hy].
    { specialize (Hf (key x)). rewrite filter_nil, filter_cons_True in Hf;
        [done |]. split; apply ltk_irrefl. }
    assert (key_class (key x) x) as Hxx by (split; apply ltk_irrefl).
    assert (key_class (key y) y) as Hyy by (split; apply ltk_irrefl).
    assert (x ∈ y :: l2) as Hx2.
    { pose proof (Hf (key x)) as E. rewrite filter_cons_True in E by done.
      assert (x ∈ filter (key_class (key x)) (y :: l2)) as Hin
        by (rewrite <- E; by left).
      by apply list_elem_of_filter in Hin as [_ Hin]. }
    assert (y ∈ x :: l1) as Hy1.
    { pose proof (Hf (key y)) as E.
      rewrite (filter_cons_True _ y) in E by done.
      assert (y ∈ filter (key_class (key y)) (x :: l1)) as Hin
        by (rewrite E; by left).
      by apply list_elem_of_filter in Hin as [_ Hin]. }
    assert (ltk (key y) (key x) = false) as Hyx.
    { apply elem_of_cons in Hy1 as [-> | Hy1]; [apply ltk_irrefl |].
      rewrite Forall_forall in Hx. by apply Hx. }
    assert (ltk (key x) (key y) = false) as Hxy.
    { apply elem_of_cons in Hx2 as [-> | Hx2]; [apply ltk_irrefl |].
      rewrite Forall_forall in Hy. by apply Hy. }
    assert (x = y) as <-.
    { pose proof (Hf (key x)) as E.
      rewrite !filter_cons_True in E by done. congruence. }
    f_equal. apply IH; [done |]. intros k. specialize (Hf k).
    rewrite !filter_cons in Hf. case_decide; congruence.
Qed.

(** Hence every sorted and stable arrangement of [l] is [Py.sorted l]:
    the insertion sort of the embedding returns what any stable sorting
    algorithm returns. *)
Lemma sorted_is_the_stable_sort l l' :
  StronglySorted (λ a b, ltk (key b) (key a) = false) l' →
  (∀ k, filter (key_class k) l' = filter (key_class k) l) →
  l' = Py.sorted ltk key l.
Proof.
  intros Hs Hf. apply stable_sorted_unique; [done | |].
  - apply sorted_StronglySorted.
  - intros k. rewrite Hf. symmetry. apply sorted_filter.
    intros x y [Hx1 Hx2] [Hy1 Hy2]. by eapply lek_trans.
Qed.
End Order.
End SortedFacts.

(** Sorting the images sorts the originals. *)
Lemma sorted_map {A B K} (ltk : K → K → bool) (key : B → K) (f : A → B) l :
  Py.sorted ltk key (map f l) = map f (Py.sorted ltk (λ a, key (f a)) l).
Proof.
  induction l as [|x l IH]; simpl; [done |]. rewrite IH.
  generalize (Py.sorted ltk (λ a, key (f a)) l). intros s.
  induction s as [|y s IHs]; simpl; [done |].
  destruct (ltk (key (f y)) (key (f x))); simpl; by rewrite ?IHs.
Qed.

Lemma StronglySorted_mono {A} (R1 R2 : A → A → Prop) l :
  (∀ a b, R1 a b → R2 a b) → StronglySorted R1 l → StronglySorted R2 l.
Proof.
  intros HR. induction 1 as [|x l Hl IH Hx]; constructor; [done |].
  eapply Forall_impl; [exact Hx | by auto].
Qed.

(** On rationals. *)
Lemma sorted_Q_StronglySorted {A} (key : A → Q) l :
  StronglySorted (λ a b, (key a <= key b)%Q) (Py.sorted Py.lt key l).
Proof.
  eapply StronglySorted_mono;
    [| apply (sorted_StronglySorted Py.lt key)].
  - intros a b H. by apply Py_lt_false.
  - intros a b H. apply Py_lt_spec in H. apply Py_lt_false.
    by apply Qlt_le_weak.
  - intros a b c H1 H2. apply Py_lt_false in H1, H2. apply Py_lt_false.
    by eapply Qle_trans.
Qed.

#[global] Instance Qle_decision (a b : Q) : Decision (a <= b)%Q.
Proof.
  destruct (Qlt_le_dec b a) as [H|H]; [right | by left].
  intros H'. by eapply Qlt_not_le.
Defined.

#[global] Instance Qeq_decision (a b : Q) : Decision (a == b)%Q :=
  Qeq_dec a b.

Lemma truthy_true {A} (l : list A) : Py.truthy l = true ↔ l ≠ [].
Proof. by destruct l. Qed.

Lemma truthy_false {A} (l : list A) : Py.truthy l = false ↔ l = [].
Proof. by destruct l. Qed.

(** ** Combined texts *)

Lemma combine_texts_nil sep : combine_texts sep [] = EmptyString.
Proof. done. Qed.

Lemma combine_texts_singleton sep e : combine_texts sep [e] = text e.
Proof. done. Qed.

(** ** Overlap matcher *)

Section OverlapFacts.
Local Open Scope Q_scope.
Variable self : OverlapMatcher.t.

(** The reference events kept for the generated event [g], in scan
    order. *)
Definition kept_refs (g : ADEvent) (ref : list ADEvent) : list ADEvent :=
  filter (λ r, OverlapMatcher.min_overlap_sec self <= overlap_duration g r)
         ref.

Lemma overlapping_of_kept g ref :
  OverlapMatcher.overlapping_of self g ref
  = map (λ r, (r, overlap_duration g r)) (kept_refs g ref).
Proof.
  unfold OverlapMatcher.overlapping_of, kept_refs.
  induction ref as [|r ref IH]; [done |].
  rewrite filter_cons. cbn [omap list_omap]. cbn zeta.
  destruct (Py.le _ _) eqn:E.
  - apply Py_le_spec in E. rewrite decide_True by done. simpl. by f_equal.
  - apply Py_le_false in E. rewrite decide_False; [done |].
    intros H. by eapply Qlt_not_le.
Qed.

(** The list [ref_sorted] of the matcher. *)
Lemma ref_sorted_eq g ref :
  map fst (Py.sorted Py.lt (λ x : ADEvent * Q, - x.2)
             (OverlapMatcher.overlapping_of self g ref))
  = Py.sorted Py.lt (λ r, - overlap_duration g r) (kept_refs g ref).
Proof.
  rewrite overlapping_of_kept, sorted_map, map_map. simpl. apply map_id.
Qed.

(** What the record of the generated event [g] has to be. *)
Definition overlap_record_ok (ref : list ADEvent) (g : ADEvent)
    (p : MatchedPair) : Prop :=
  let kept := kept_refs g ref in
  gen_events p = [g] ∧ gen_indices p = [index g]
  ∧ combined_gen_text p = text g
  ∧ gen_start p = Some (start g) ∧ gen_end p = Some (end_ g)
  ∧ ref_events p ≡ₚ kept
  ∧ StronglySorted (λ a b, overlap_duration g b <= overlap_duration g a)
      (ref_events p)
  ∧ (∀ d, filter (λ r, overlap_duration g r == d) (ref_events p)
          = filter (λ r, overlap_duration g r == d) kept)
  ∧ ref_indices p = map index (ref_events p)
  ∧ combined_ref_text p = combine_texts " " (ref_events p)
  ∧ match kept with
    | [] => matched p = false ∧ match_type p = no_overlap
            ∧ ref_start p = None ∧ ref_end p = None
    | _ :: _ =>
        matched p = true ∧ match_type p = overlap
        ∧ ∃ s e, ref_start p = Some s ∧ ref_end p = Some e
                 ∧ s ∈ map start (ref_events p)
                 ∧ (∀ r, r ∈ ref_events p → s <= start r)
                 ∧ e ∈ map end_ (ref_events p)
                 ∧ (∀ r, r ∈ ref_events p → end_ r <= e)
    end.

Lemma descending_sorted g l :
  StronglySorted (λ a b, overlap_duration g b <= overlap_duration g a)
    (Py.sorted Py.lt (λ r, - overlap_duration g r) l).
Proof.
  eapply StronglySorted_mono; [| apply sorted_Q_StronglySorted].
  simpl. intros a b H. by apply Qopp_le_compat in H; rewrite !Qopp_opp in H.
Qed.

Lemma descending_stable g l d :
  filter (λ r, overlap_duration g r == d)
    (Py.sorted Py.lt (λ r, - overlap_duration g r) l)
  = filter (λ r, overlap_duration g r == d) l.
Proof.
  apply (sorted_filter Py.lt (λ r, - overlap_duration g r)
           (λ r, overlap_duration g r == d)).
  intros x y Hx Hy. apply Py_lt_false. rewrite Hx, Hy. apply Qle_refl.
Qed.

Lemma OverlapMatcher_record_of_spec g ref :
  ∃ p, OverlapMatcher.record_of self g ref = Some p
       ∧ overlap_record_ok ref g p.
Proof.
  unfold OverlapMatcher.record_of. cbn zeta. rewrite ref_sorted_eq.
  rewrite overlapping_of_kept. unfold overlap_record_ok. cbn zeta.
  set (kept := kept_refs g ref).
  set (rs := Py.sorted Py.lt (λ r, - overlap_duration g r) kept).
  assert (rs ≡ₚ kept) as Hperm by apply sorted_Permutation.
  pose proof (descending_sorted g kept) as Hsorted.
  pose proof (descending_stable g kept) as Hstable.
  fold rs in Hsorted, Hstable. clearbody rs.
  destruct kept as [|k kept'] eqn:Ek.
  - apply Permutation_nil_r in Hperm as ->.
    eexists. split; [done |]. simpl. repeat split; try done.
  - assert (rs ≠ []) as Hne.
    { intros ->. by apply Permutation_nil_l in Hperm. }
    destruct (min_of_spec (map start rs)) as (s & Hs & Hsin & Hsle).
    { by destruct rs. }
    destruct (max_of_spec (map end_ rs)) as (e & He & Hein & Hele).
    { by destruct rs. }
    cbn [Py.truthy map]. rewrite Hs, He. cbn.
    eexists. split; [done |]. cbn.
    split_and!; try done.
    exists s, e. split_and!; try done.
    + intros r Hr. apply Hsle. by apply list_elem_of_fmap_2.
    + intros r Hr. apply Hele. by apply list_elem_of_fmap_2.
Qed.

(** The records are those of the generated events, in input order. *)
Lemma OverlapMatcher_match_Forall2 (gen ref : list ADEvent) :
  ∃ recs, OverlapMatcher.match_ self gen ref = Some recs
          ∧ Forall2 (overlap_record_ok ref) gen recs.
Proof.
  unfold OverlapMatcher.match_.
  destruct (mapM (λ g, OverlapMatcher.record_of self g ref) gen)
    as [recs|] eqn:E.
  2:{ apply mapM_None in E. apply Exists_exists in E as (g & _ & Hg).
      destruct (OverlapMatcher_record_of_spec g ref) as (p & Hp & _).
      congruence. }
  apply mapM_Some in E. exists recs. split; [done |].
  eapply Forall2_impl; [exact E |]. simpl. intros g p Hp.
  destruct (OverlapMatcher_record_of_spec g ref) as (p' & Hp' & Hok).
  congruence.
Qed.


End OverlapFacts.

(** ** Token overlap (Jaccard) similarity *)

Section TokenOverlap.
Local Open Scope Q_scope.

(** The token set of a string: lower-cased, split at white space. *)
Definition tokens (a : string) : gset string :=
  list_to_set (Py.split (Py.lower a)).

Lemma ratio_in_unit_interval (i u : nat) :
  (i ≤ u)%nat → (0 < u)%nat →
  0 <= inject_Z (Z.of_nat i) / inject_Z (Z.of_nat u) <= 1.
Proof.
  intros Hiu Hu.
  assert (0 < inject_Z (Z.of_nat u)) as Hpos.
  { change 0 with (inject_Z 0). rewrite <- Zlt_Qlt. lia. }
  split.
  - apply Qle_shift_div_l; [done |]. rewrite Qmult_0_l.
    change 0 with (inject_Z 0). rewrite <- Zle_Qle. lia.
  - apply Qle_shift_div_r; [done |]. rewrite Qmult_1_l.
    rewrite <- Zle_Qle. lia.
Qed.

Lemma token_union_size a b :
  tokens a ≠ ∅ → size (tokens a ∪ tokens b) ≠ 0%nat.
Proof.
  intros Ha H. apply size_empty_iff in H. apply Ha.
  apply leibniz_equiv. set_solver.
Qed.

Lemma token_overlap_similarity_Some a b :
  is_Some (DPMatcher._token_overlap_similarity a b).
Proof.
  unfold DPMatcher._token_overlap_similarity. fold (tokens a) (tokens b).
  cbn zeta. case_decide as Hne; [by eexists |].
  rewrite truediv_Some; [by eexists |].
  intros H. apply (token_union_size a b); [tauto |].
  unfold Qeq in H. simpl in H. lia.
Qed.

(** C10: the default text similarity always returns, without dividing by
    zero: [0] when one of the token sets is empty, and otherwise the size
    of the intersection over the (non-zero) size of the union; the value
    lies between 0 and 1. *)
Theorem token_overlap_similarity_total (a b : string) :
  ∃ v, DPMatcher._token_overlap_similarity a b = Some v
  ∧ 0 <= v <= 1
  ∧ (tokens a = ∅ ∨ tokens b = ∅ → v = 0)
  ∧ (tokens a ≠ ∅ ∧ tokens b ≠ ∅ →
       size (tokens a ∪ tokens b) ≠ 0%nat
       ∧ v = inject_Z (Z.of_nat (size (tokens a ∩ tokens b)))
             / inject_Z (Z.of_nat (size (tokens a ∪ tokens b)))).
Proof.
  unfold DPMatcher._token_overlap_similarity. fold (tokens a) (tokens b).
  cbn zeta. destruct (decide (tokens a = ∅ ∨ tokens b = ∅)) as [He|Hne].
  - exists 0. split_and!; [done | done | done | done | tauto].
  - assert (tokens a ≠ ∅) as Ha by tauto.
    pose proof (token_union_size a b Ha) as Hu.
    assert (size (tokens a ∩ tokens b) ≤ size (tokens a ∪ tokens b))%nat
      as Hle by (apply subseteq_size; set_solver).
    eexists. split; [apply truediv_Some |].
    + intros H. apply Hu.
      unfold Qeq in H. simpl in H. lia.
    + split; [apply ratio_in_unit_interval; lia |].
      split; [tauto | done].
Qed.

End TokenOverlap.

(** ** Coverage statistics, precision, recall and F1 *)

Section StatsFacts.
Local Open Scope Q_scope.

Lemma matched_indices_acc (field : MatchedPair → list Z) pairs
    (acc : gset Z) i :
  i ∈ foldl (λ acc pair,
        if matched pair then acc ∪ list_to_set (field pair) else acc)
        acc pairs
  ↔ i ∈ acc ∨ ∃ p, p ∈ pairs ∧ matched p = true ∧ i ∈ field p.
Proof.
  revert acc. induction pairs as [|q pairs IH]; intros acc; simpl.
  - split; [by left |]. intros [H | (p & Hp & _)]; [done |].
    by apply elem_of_nil in Hp.
  - rewrite IH. destruct (matched q) eqn:Eq.
    + rewrite elem_of_union, elem_of_list_to_set. split.
      * intros [[H | H] | (p & Hp & Hm & Hi)]; [by left | |].
        -- right. exists q. split; [left | done].
        -- right. exists p. split; [by right | done].
      * intros [H | (p & Hp & Hm & Hi)]; [by left; left |].
        apply elem_of_cons in Hp as [-> | Hp]; [by left; right |].
        right. by exists p.
    + split.
      * intros [H | (p & Hp & Hm & Hi)]; [by left |].
        right. exists p. split; [by right | done].
      * intros [H | (p & Hp & Hm & Hi)]; [by left |].
        apply elem_of_cons in Hp as [-> | Hp]; [congruence |].
        right. by exists p.
Qed.

(** The set built by the statistics loop holds the indices of the matched
    records, each once. *)
Lemma elem_of_matched_indices field pairs i :
  i ∈ matched_indices field pairs
  ↔ ∃ p, p ∈ pairs ∧ matched p = true ∧ i ∈ field p.
Proof.
  unfold matched_indices. rewrite matched_indices_acc. set_solver.
Qed.

Lemma get_time_range_total events : is_Some (get_time_range events).
Proof.
  destruct events as [|e events]; [by eexists | by eexists].
Qed.

Lemma inject_Z_pos z : (0 < z)%Z → 0 < inject_Z z.
Proof. intros H. change 0 with (inject_Z 0). by rewrite <- Zlt_Qlt. Qed.

Lemma inject_Z_pos_neq z : (0 < z)%Z → ¬ inject_Z z == 0.
Proof.
  intros H E. apply inject_Z_pos in H. rewrite E in H.
  by apply Qlt_irrefl in H.
Qed.

Lemma calculate_coverage_stats_total gen ref pairs :
  ∃ st, calculate_coverage_stats gen ref pairs = Some st
  ∧ gen_total st = len gen ∧ ref_in_range st = len ref
  ∧ gen_matched st = Z.of_nat (size (matched_indices gen_indices pairs))
  ∧ ref_matched st = Z.of_nat (size (matched_indices ref_indices pairs))
  ∧ gen_unmatched st = (gen_total st - gen_matched st)%Z
  ∧ ref_unmatched st = (ref_in_range st - ref_matched st)%Z.
Proof.
  assert (∀ num den, ∃ pct,
    (if (0 <? den)%Z
     then q ← Py.truediv (inject_Z num) (inject_Z den); Some (q * 100)
     else Some 0) = Some pct) as Hpct.
  { intros num den. destruct (Z.ltb_spec 0 den) as [E|E]; [|by eexists].
    rewrite truediv_Some by (apply inject_Z_pos_neq; lia). by eexists. }
  unfold calculate_coverage_stats.
  destruct (get_time_range_total gen) as [tr ->]. cbn.
  destruct (Hpct (Z.of_nat (size (matched_indices gen_indices pairs)))
              (len gen)) as [gp ->].
  destruct (Hpct (Z.of_nat (size (matched_indices ref_indices pairs)))
              (len ref)) as [rp ->].
  cbn. eexists. split; [done |]. by cbn.
Qed.

(** What the three assignments compute. *)
Definition ratio (num den : Z) : Q :=
  if decide (den = 0%Z) then 0 else inject_Z num / inject_Z den.

Definition harmonic (P R : Q) : Q :=
  if decide (P + R == 0) then 0 else 2 * P * R / (P + R).

Lemma ratio_nonneg num den : (0 ≤ num)%Z → (0 ≤ den)%Z → 0 <= ratio num den.
Proof.
  intros Hn Hd. unfold ratio. destruct (decide (den = 0%Z)); [done |].
  apply Qle_shift_div_l; [apply inject_Z_pos; lia |].
  rewrite Qmult_0_l. change 0 with (inject_Z 0). rewrite <- Zle_Qle. lia.
Qed.

Lemma precision_recall_f1_total total_gen total_ref matched_gen matched_ref :
  (0 ≤ total_gen)%Z → (0 ≤ total_ref)%Z →
  (0 ≤ matched_gen)%Z → (0 ≤ matched_ref)%Z →
  precision_recall_f1 total_gen total_ref matched_gen matched_ref
  = Some (ratio matched_gen total_gen, ratio matched_ref total_ref,
          harmonic (ratio matched_gen total_gen)
                   (ratio matched_ref total_ref)).
Proof.
  intros Hg Hr Hmg Hmr. unfold precision_recall_f1.
  assert ((if (0 <? total_gen)%Z
           then Py.truediv (inject_Z matched_gen) (inject_Z total_gen)
           else Some 0) = Some (ratio matched_gen total_gen)) as ->.
  { unfold ratio. destruct (Z.ltb_spec 0 total_gen) as [E|E].
    - rewrite truediv_Some by (apply inject_Z_pos_neq; lia).
      rewrite decide_False by lia. done.
    - rewrite decide_True by lia. done. }
  assert ((if (0 <? total_ref)%Z
           then Py.truediv (inject_Z matched_ref) (inject_Z total_ref)
           else Some 0) = Some (ratio matched_ref total_ref)) as ->.
  { unfold ratio. destruct (Z.ltb_spec 0 total_ref) as [E|E].
    - rewrite truediv_Some by (apply inject_Z_pos_neq; lia).
      rewrite decide_False by lia. done.
    - rewrite decide_True by lia. done. }
  cbn.
  pose proof (ratio_nonneg matched_gen total_gen Hmg Hg) as HP.
  pose proof (ratio_nonneg matched_ref total_ref Hmr Hr) as HR.
  set (P := ratio matched_gen total_gen) in *.
  set (R := ratio matched_ref total_ref) in *.
  unfold harmonic. destruct (Py.lt 0 (P + R)) eqn:E.
  - apply Py_lt_spec in E.
    assert (¬ P + R == 0) as Hne.
    { intros H. rewrite H in E. by apply Qlt_irrefl in E. }
    rewrite truediv_Some by done. cbn. by rewrite decide_False.
  - apply Py_lt_false in E. cbn. rewrite decide_True; [done |].
    apply Qle_antisym; [done |].
    rewrite <- (Qplus_0_l 0). by apply Qplus_le_compat.
Qed.

(** C5: the statistics never divide by zero and always return. The
    matched count of a side is the number of distinct indices of that
    side over the records with [matched = true]; precision and recall
    are that count over the number of events of the side, and F1 is
    [2PR / (P + R)]; each ratio is 0 when its denominator is 0. With 10
    generated events of which 7 are matched and 8 reference events of
    which 4 are matched, precision is 7/10, recall is 1/2 and F1 is
    7/12, within a ten-thousandth of 0.5833. *)
Theorem precision_recall_f1_spec (gen ref : list ADEvent)
    (pairs : list MatchedPair) :
  let gen_m := matched_indices gen_indices pairs in
  let ref_m := matched_indices ref_indices pairs in
  let P := ratio (Z.of_nat (size gen_m)) (len gen) in
  let R := ratio (Z.of_nat (size ref_m)) (len ref) in
  (∀ i, i ∈ gen_m ↔ ∃ p, p ∈ pairs ∧ matched p = true ∧ i ∈ gen_indices p)
  ∧ (∀ i, i ∈ ref_m ↔ ∃ p, p ∈ pairs ∧ matched p = true ∧ i ∈ ref_indices p)
  ∧ run_evaluation gen ref pairs = Some (P, R, harmonic P R)
  ∧ (∃ P' R' F', precision_recall_f1 10 8 7 4 = Some (P', R', F')
       ∧ P' == 7 # 10 ∧ R' == 1 # 2 ∧ F' == 7 # 12
       ∧ Qabs (F' - (5833 # 10000)) < 1 # 10000).
Proof.
  cbn zeta. split; [apply elem_of_matched_indices |].
  split; [apply elem_of_matched_indices |]. split.
  - unfold run_evaluation.
    destruct (calculate_coverage_stats_total gen ref pairs)
      as (st & -> & _ & _ & Hg & Hr & _).
    cbn. rewrite Hg, Hr.
    apply precision_recall_f1_total; unfold len; lia.
  - eexists _, _, _. split; [reflexivity |]. by vm_compute.
Qed.

End StatsFacts.

(** ** Loops and arrays *)

(** The invariant rule of a [for] loop: [I k] holds of the state before
    the [k]-th pass, and no pass raises. *)
Lemma for_invariant {S A} (I : nat → S → Prop) (l : list A) (s : S)
    (body : A → S → option S) :
  I 0%nat s →
  (∀ k x s, l !! k = Some x → I k s →
     ∃ s', body x s = Some s' ∧ I (Datatypes.S k) s') →
  ∃ s', Py.for_ l body s = Some s' ∧ I (length l) s'.
Proof.
  revert I s. induction l as [|x l IH]; intros I s H0 Hstep; simpl.
  - by exists s.
  - destruct (Hstep 0%nat x s eq_refl H0) as (s1 & -> & H1). simpl.
    apply (IH (λ k, I (Datatypes.S k))); [done |].
    intros k y s2 Hy. by apply Hstep.
Qed.

Lemma lookup_range a b k x :
  Py.range a b !! k = Some x → x = (a + k)%nat ∧ (a + k < b)%nat.
Proof.
  unfold Py.range. intros H. apply lookup_seq in H. lia.
Qed.

Lemma length_range a b : length (Py.range a b) = (b - a)%nat.
Proof. unfold Py.range. apply length_seq. Qed.

Lemma lookup_enumerate {A} (l : list A) k p :
  Py.enumerate l !! k = Some p → p.1 = k ∧ l !! k = Some p.2.
Proof.
  unfold Py.enumerate. intros H.
  apply lookup_zip_with_Some in H as (i & x & -> & Hi & Hx).
  apply lookup_seq in Hi as [-> _]. done.
Qed.

Lemma length_enumerate {A} (l : list A) :
  length (Py.enumerate l) = length l.
Proof.
  unfold Py.enumerate. rewrite length_zip_with, length_seq. lia.
Qed.

Lemma setitem_Some {A} (l : list A) i v :
  (i < length l)%nat → Py.setitem l i v = Some (<[i:=v]> l).
Proof. intros H. unfold Py.setitem. by rewrite decide_True. Qed.

Section ArrayFacts.
Context {A : Type}.
Implicit Types a : np.ndarray A.

(** An [n] by [m] array. *)
Definition np_wf (n m : nat) a : Prop :=
  length a = n ∧ Forall (λ row, length row = m) a.

Lemma np_full_wf n m (v : A) : np_wf n m (np.full n m v).
Proof.
  split; [apply length_replicate |].
  apply Forall_replicate, length_replicate.
Qed.

Lemma np_get_full n m (v : A) i j :
  (i < n)%nat → (j < m)%nat → np.get (np.full n m v) i j = Some v.
Proof.
  intros Hi Hj. unfold np.get, np.full.
  rewrite lookup_replicate_2 by done. simpl.
  by rewrite lookup_replicate_2.
Qed.

Lemma np_get_is_Some n m a i j :
  np_wf n m a → is_Some (np.get a i j) ↔ (i < n)%nat ∧ (j < m)%nat.
Proof.
  intros [Hn Hm]. unfold np.get. split.
  - intros [v Hv]. destruct (a !! i) as [row|] eqn:Er; [|done].
    simpl in Hv. split.
    + apply lookup_lt_Some in Er. lia.
    + apply lookup_lt_Some in Hv.
      rewrite Forall_lookup in Hm. by rewrite (Hm _ _ Er) in Hv.
  - intros [Hi Hj]. destruct (lookup_lt_is_Some_2 a i) as [row Er]; [lia |].
    rewrite Er. simpl. apply lookup_lt_is_Some_2.
    rewrite Forall_lookup in Hm. by rewrite (Hm _ _ Er).
Qed.

Lemma np_shape_wf n m a : np_wf n m a → (0 < n)%nat → np.shape a = (n, m).
Proof.
  intros [Hn Hm] Hpos. unfold np.shape. rewrite Hn. f_equal.
  destruct a as [|row a]; [simpl in Hn; lia |]. simpl.
  by inversion Hm.
Qed.

(** A store in range succeeds, keeps the shape, is read back, and
    leaves the other cells alone. *)
Lemma np_set_spec n m a i j v :
  np_wf n m a → (i < n)%nat → (j < m)%nat →
  ∃ a', np.set a i j v = Some a' ∧ np_wf n m a'
        ∧ np.get a' i j = Some v
        ∧ ∀ i' j', i' ≠ i ∨ j' ≠ j → np.get a' i' j' = np.get a i' j'.
Proof.
  intros [Hn Hm] Hi Hj. unfold np.set.
  destruct (lookup_lt_is_Some_2 a i) as [row Er]; [lia |].
  assert (length row = m) as Hrow
    by (rewrite Forall_lookup in Hm; by eapply Hm).
  rewrite Er. simpl. rewrite setitem_Some by lia. simpl.
  rewrite setitem_Some by lia.
  eexists. split; [done |]. split; [| split].
  - split; [by rewrite length_insert |].
    apply Forall_insert; [done |]. by rewrite length_insert.
  - unfold np.get. rewrite list_lookup_insert_eq by lia. simpl.
    apply list_lookup_insert_eq. lia.
  - intros i' j' Hne. unfold np.get.
    destruct (decide (i' = i)) as [-> | Hi'].
    + rewrite list_lookup_insert_eq by lia. rewrite Er. simpl.
      apply list_lookup_insert_ne. naive_solver.
    + by rewrite list_lookup_insert_ne.
Qed.
End ArrayFacts.

(** ** DP matcher: the alignment table *)

Section DPTable.
Local Open Scope Q_scope.
Variable self : DPMatcher.t.
Local Abbreviation gg := (DPMatcher.gap_penalty_gen self).
Local Abbreviation gr := (DPMatcher.gap_penalty_ref self).

(** The best of the three scores and the recorded choice, as the chain
    of two strict comparisons leaves them. *)
Definition best3 (a b c : Q) : Q :=
  let best := if Py.lt a b then b else a in
  if Py.lt best c then c else best.

Definition choice3 (a b c : Q) : nat :=
  if Py.lt a b then (if Py.lt b c then 2 else 1)%nat
  else (if Py.lt a c then 2 else 0)%nat.

(** The table as a function of the similarities: the value and the choice
    of every cell. *)
Section Spec.
Variable sim : nat → nat → Q.

Fixpoint dp_value (i : nat) : nat → Q :=
  match i with
  | O => fix row (j : nat) : Q :=
           match j with
           | O => 0
           | S j' => row j' + gr
           end
  | S i' =>
      fix row (j : nat) : Q :=
        match j with
        | O => dp_value i' O + gg
        | S j' => best3 (dp_value i' j' + sim i' j')
                        (dp_value i' (S j') + gg)
                        (row j' + gr)
        end
  end.

Definition bt_value (i j : nat) : nat :=
  match i, j with
  | O, O => 0%nat
  | S _, O => 1%nat
  | O, S _ => 2%nat
  | S i', S j' => choice3 (dp_value i' j' + sim i' j')
                          (dp_value i' (S j') + gg)
                          (dp_value (S i') j' + gr)
  end.

End Spec.

(** The tables agree with the functions on the cells of [D]. *)
Definition tables_agree (n m : nat) (sim : nat → nat → Q)
    (D : nat → nat → Prop) (t : list (list Q) * list (list nat)) : Prop :=
  np_wf (n + 1) (m + 1) t.1 ∧ np_wf (n + 1) (m + 1) t.2
  ∧ ∀ i j, D i j → np.get t.1 i j = Some (dp_value sim i j)
                   ∧ np.get t.2 i j = Some (bt_value sim i j).

Lemma fill_cell_spec (S : list (list Q)) n m dp bt i j s d u l :
  np_wf (n + 1) (m + 1) dp → np_wf (n + 1) (m + 1) bt →
  (1 ≤ i ≤ n)%nat → (1 ≤ j ≤ m)%nat →
  np.get S (i - 1) (j - 1) = Some s →
  np.get dp (i - 1) (j - 1) = Some d →
  np.get dp (i - 1) j = Some u →
  np.get dp i (j - 1) = Some l →
  ∃ dp' bt', DPMatcher.fill_cell self S i j (dp, bt) = Some (dp', bt')
    ∧ np_wf (n + 1) (m + 1) dp' ∧ np_wf (n + 1) (m + 1) bt'
    ∧ np.get dp' i j = Some (best3 (d + s) (u + gg) (l + gr))
    ∧ np.get bt' i j = Some (choice3 (d + s) (u + gg) (l + gr))
    ∧ ∀ i' j', i' ≠ i ∨ j' ≠ j →
        np.get dp' i' j' = np.get dp i' j'
        ∧ np.get bt' i' j' = np.get bt i' j'.
Proof.
  intros Hdp Hbt Hi Hj Hs Hd Hu Hl. unfold DPMatcher.fill_cell.
  rewrite Hd, Hs, Hu, Hl. cbn [mbind option_bind].
  destruct (np_set_spec _ _ bt i j 0%nat Hbt)
    as (bt0 & -> & Hbt0 & Hg0 & Ho0); [lia | lia |].
  cbn [mbind option_bind]. unfold best3, choice3. cbn zeta.
  destruct (Py.lt (d + s) (u + gg)) eqn:E1.
  - destruct (np_set_spec _ _ bt0 i j 1%nat Hbt0)
      as (bt1 & -> & Hbt1 & Hg1 & Ho1); [lia | lia |].
    cbn [mbind option_bind].
    destruct (Py.lt (u + gg) (l + gr)) eqn:E2.
    + destruct (np_set_spec _ _ bt1 i j 2%nat Hbt1)
        as (bt2 & -> & Hbt2 & Hg2 & Ho2); [lia | lia |].
      cbn [mbind option_bind].
      destruct (np_set_spec _ _ dp i j (l + gr) Hdp)
        as (dp' & -> & Hdp' & Hgd & Hod); [lia | lia |].
      cbn [mbind option_bind]. eexists _, _. split; [done |].
      split_and!; try done. intros i' j' Hne.
      split; [by apply Hod |]. by rewrite Ho2, Ho1, Ho0.
    + cbn [mbind option_bind].
      destruct (np_set_spec _ _ dp i j (u + gg) Hdp)
        as (dp' & -> & Hdp' & Hgd & Hod); [lia | lia |].
      cbn [mbind option_bind]. eexists _, _. split; [done |].
      split_and!; try done. intros i' j' Hne.
      split; [by apply Hod |]. by rewrite Ho1, Ho0.
  - cbn [mbind option_bind].
    destruct (Py.lt (d + s) (l + gr)) eqn:E2.
    + destruct (np_set_spec _ _ bt0 i j 2%nat Hbt0)
        as (bt2 & -> & Hbt2 & Hg2 & Ho2); [lia | lia |].
      cbn [mbind option_bind].
      destruct (np_set_spec _ _ dp i j (l + gr) Hdp)
        as (dp' & -> & Hdp' & Hgd & Hod); [lia | lia |].
      cbn [mbind option_bind]. eexists _, _. split; [done |].
      split_and!; try done. intros i' j' Hne.
      split; [by apply Hod |]. by rewrite Ho2, Ho0.
    + cbn [mbind option_bind].
      destruct (np_set_spec _ _ dp i j (d + s) Hdp)
        as (dp' & -> & Hdp' & Hgd & Hod); [lia | lia |].
      cbn [mbind option_bind]. eexists _, _. split; [done |].
      split_and!; try done. intros i' j' Hne.
      split; [by apply Hod |]. by rewrite Ho0.
Qed.

(** The similarity read from the matrix. *)
Definition sim_of (sm : list (list Q)) (i j : nat) : Q :=
  default 0 (np.get sm i j).

Lemma dp_tables_spec (sm : list (list Q)) n m :
  np_wf n m sm → (0 < n)%nat →
  ∃ t, DPMatcher.dp_tables self sm = Some t
       ∧ tables_agree n m (sim_of sm) (λ i j, (i ≤ n)%nat ∧ (j ≤ m)%nat) t.
Proof.
  intros HS Hn. unfold DPMatcher.dp_tables.
  rewrite (np_shape_wf n m sm HS Hn).
  set (sim := sim_of sm).
  (* dp[0, 0] = 0.0 *)
  destruct (np_set_spec (n + 1) (m + 1)
              (np.full (n + 1) (m + 1) (- (1000000000 # 1))) 0 0 0)
    as (dp0 & -> & Hdp0 & Hg0 & Ho0); [apply np_full_wf | lia | lia |].
  cbn [mbind option_bind].
  (* the first column *)
  edestruct (for_invariant
    (λ k t, tables_agree n m sim (λ i j, j = 0 ∧ i ≤ k)%nat t)
    (Py.range 1 (n + 1))) as (t1 & -> & Ht1).
  { split; [done |]. split; [apply np_full_wf |].
    intros i j [-> Hi]. assert (i = 0%nat) as -> by lia.
    split; [done |]. apply np_get_full; lia. }
  { intros k i [dp bt] Hk (Hdp & Hbt & Hag).
    apply lookup_range in Hk as [-> Hk]. simpl in Hdp, Hbt, Hag.
    replace (1 + k - 1)%nat with k by lia.
    destruct (Hag k 0%nat) as [Hv _]; [lia |]. rewrite Hv.
    cbn [mbind option_bind].
    destruct (np_set_spec _ _ dp (1 + k) 0 (dp_value sim k 0 + gg) Hdp)
      as (dp' & -> & Hdp' & Hgd & Hod); [lia | lia |].
    cbn [mbind option_bind].
    destruct (np_set_spec _ _ bt (1 + k) 0 1%nat Hbt)
      as (bt' & -> & Hbt' & Hgb & Hob); [lia | lia |].
    cbn [mbind option_bind]. eexists. split; [done |].
    split; [done |]. split; [done |]. simpl.
    intros i j [-> Hi]. destruct (decide (i = S k)) as [-> | Hne].
    - done.
    - rewrite Hod, Hob by lia. apply Hag. lia. }
  cbn [mbind option_bind]. rewrite length_range in Ht1.
  replace (n + 1 - 1)%nat with n in Ht1 by lia.
  (* the first row *)
  edestruct (for_invariant
    (λ k t, tables_agree n m sim
       (λ i j, (j = 0 ∧ i ≤ n) ∨ (i = 0 ∧ j ≤ k))%nat t)
    (Py.range 1 (m + 1)) t1) as (t2 & -> & Ht2).
  { destruct Ht1 as (H1 & H2 & H3). split; [done |]. split; [done |].
    intros i j [[-> Hi] | [-> Hj]]; apply H3; lia. }
  { intros k j [dp bt] Hk (Hdp & Hbt & Hag).
    apply lookup_range in Hk as [-> Hk]. simpl in Hdp, Hbt, Hag.
    replace (1 + k - 1)%nat with k by lia.
    destruct (Hag 0%nat k) as [Hv _]; [lia |]. rewrite Hv.
    cbn [mbind option_bind].
    destruct (np_set_spec _ _ dp 0 (1 + k) (dp_value sim 0 k + gr) Hdp)
      as (dp' & -> & Hdp' & Hgd & Hod); [lia | lia |].
    cbn [mbind option_bind].
    destruct (np_set_spec _ _ bt 0 (1 + k) 2%nat Hbt)
      as (bt' & -> & Hbt' & Hgb & Hob); [lia | lia |].
    cbn [mbind option_bind]. eexists. split; [done |].
    split; [done |]. split; [done |]. simpl.
    intros i j Hij.
    destruct (decide (i = 0%nat ∧ j = S k)) as [[-> ->] | Hne].
    - done.
    - rewrite Hod, Hob by lia. apply Hag. lia. }
  cbn [mbind option_bind]. rewrite length_range in Ht2.
  replace (m + 1 - 1)%nat with m in Ht2 by lia.
  (* the rows of the table *)
  edestruct (for_invariant
    (λ a t, tables_agree n m sim
       (λ i j, i ≤ n ∧ j ≤ m ∧ (j = 0 ∨ i ≤ a))%nat t)
    (Py.range 1 (n + 1)) t2) as (t3 & -> & Ht3).
  { destruct Ht2 as (H1 & H2 & H3). split; [done |]. split; [done |].
    intros i j (Hi & Hj & H). apply H3. lia. }
  { intros a i t Ha Ht. apply lookup_range in Ha as [-> Ha].
    edestruct (for_invariant
      (λ b t, tables_agree n m sim
         (λ i j, i ≤ n ∧ j ≤ m
                 ∧ (j = 0 ∨ i ≤ a ∨ (i = 1 + a ∧ j ≤ b)))%nat t)
      (Py.range 1 (m + 1)) t) as (t' & -> & Ht').
    { destruct Ht as (H1 & H2 & H3). split; [done |]. split; [done |].
      intros i j (Hi & Hj & H). apply H3. lia. }
    { intros b j [dp bt] Hb (Hdp & Hbt & Hag).
      apply lookup_range in Hb as [-> Hb]. simpl in Hdp, Hbt, Hag.
      destruct (Hag a b) as [Hd _]; [lia |].
      destruct (Hag a (1 + b)%nat) as [Hu _]; [lia |].
      destruct (Hag (1 + a)%nat b) as [Hl _]; [lia |].
      assert (np.get sm a b = Some (sim a b)) as Hs.
      { unfold sim, sim_of.
        destruct (proj2 (np_get_is_Some n m sm a b HS)) as [v ->];
          [lia | done]. }
      edestruct (fill_cell_spec sm n m dp bt (1 + a) (1 + b))
        as (dp' & bt' & -> & Hdp' & Hbt' & Hgd & Hgb & Ho);
        [done | done | lia | lia | | | | |].
      { replace (1 + a - 1)%nat with a by lia.
        replace (1 + b - 1)%nat with b by lia. exact Hs. }
      { replace (1 + a - 1)%nat with a by lia.
        replace (1 + b - 1)%nat with b by lia. exact Hd. }
      { replace (1 + a - 1)%nat with a by lia. exact Hu. }
      { replace (1 + b - 1)%nat with b by lia. exact Hl. }
      eexists. split; [done |]. split; [done |]. split; [done |]. simpl.
      intros i j Hij.
      destruct (decide (i = S a ∧ j = S b)) as [[-> ->] | Hne].
      - done.
      - destruct (Ho i j) as [-> ->]; [lia |]. apply Hag. lia. }
    eexists. split; [done |]. rewrite length_range in Ht'.
    destruct Ht' as (H1 & H2 & H3). split; [done |]. split; [done |].
    intros i j Hij. apply H3. lia. }
  rewrite length_range in Ht3. exists t3. split; [done |].
  destruct Ht3 as (H1 & H2 & H3). split; [done |]. split; [done |].
  intros i j Hij. apply H3. lia.
Qed.

End DPTable.

(** ** DP matcher: similarity matrix, backtracking and records *)

Section DPAlign.
Local Open Scope Q_scope.
Variable math_exp : Q → Q.
Variable self : DPMatcher.t.
Local Abbreviation gg := (DPMatcher.gap_penalty_gen self).
Local Abbreviation gr := (DPMatcher.gap_penalty_ref self).

(** The similarity of every pair of events is defined (the configured
    functions do not raise on them). *)
Definition similarity_total (gen ref : list ADEvent) : Prop :=
  ∀ g r, g ∈ gen → r ∈ ref →
    is_Some (DPMatcher._combined_similarity math_exp self g r).

(** The default text similarity with the temporal IoU, or with the soft
    time similarity and a non-zero [time_scale], never raises. *)
Lemma similarity_total_default gen ref :
  DPMatcher.text_sim_func self = DPMatcher._token_overlap_similarity →
  DPMatcher.time_soft self = false ∨ ¬ DPMatcher.time_scale self == 0 →
  similarity_total gen ref.
Proof.
  intros Htext Htime g r _ _. unfold DPMatcher._combined_similarity.
  rewrite Htext.
  destruct (token_overlap_similarity_Some (text g) (text r)) as [v ->].
  cbn [mbind option_bind].
  destruct (DPMatcher.time_soft self) eqn:E.
  - destruct Htime as [? | Hts]; [done |].
    unfold DPMatcher._soft_time_similarity. cbn zeta.
    rewrite truediv_Some by done. by eexists.
  - destruct (temporal_iou_total g r) as [w ->]. by eexists.
Qed.

Lemma build_similarity_matrix_spec gen ref :
  similarity_total gen ref →
  ∃ sm, DPMatcher._build_similarity_matrix math_exp self gen ref = Some sm
    ∧ np_wf (length gen) (length ref) sm
    ∧ ∀ i j g r, gen !! i = Some g → ref !! j = Some r →
        np.get sm i j = DPMatcher._combined_similarity math_exp self g r.
Proof.
  intros Htot. unfold DPMatcher._build_similarity_matrix. cbn zeta.
  set (n := length gen). set (m := length ref).
  edestruct (for_invariant
    (λ a sm, np_wf n m sm
       ∧ ∀ i j g r, (i < a)%nat → gen !! i = Some g → ref !! j = Some r →
           np.get sm i j = DPMatcher._combined_similarity math_exp self g r)
    (Py.enumerate gen) (np.full n m 0)) as (sm & -> & Hwf & Hsm).
  { split; [apply np_full_wf | intros; lia]. }
  { intros a [i g] sm Ha [Hwf Hsm].
    apply lookup_enumerate in Ha as [Hi Hg]. simpl in Hi, Hg. subst i.
    edestruct (for_invariant
      (λ b sm, np_wf n m sm
         ∧ ∀ i j g r, (i < a ∨ (i = a ∧ j < b))%nat →
             gen !! i = Some g → ref !! j = Some r →
             np.get sm i j
             = DPMatcher._combined_similarity math_exp self g r)
      (Py.enumerate ref) sm) as (sm' & -> & Hwf' & Hsm').
    { split; [done |]. intros i j g' r' Hij. apply Hsm. lia. }
    { intros b [j r] sm1 Hb [Hwf1 Hsm1].
      apply lookup_enumerate in Hb as [Hj Hr]. simpl in Hj, Hr. subst j.
      destruct (Htot g r) as [v Hv].
      { by eapply list_elem_of_lookup_2. }
      { by eapply list_elem_of_lookup_2. }
      rewrite Hv. cbn [mbind option_bind].
      destruct (np_set_spec n m sm1 a b v Hwf1)
        as (sm2 & -> & Hwf2 & Hg2 & Ho2).
      { apply lookup_lt_Some in Hg. done. }
      { apply lookup_lt_Some in Hr. done. }
      eexists. split; [done |]. split; [done |].
      intros i j g' r' Hij Hg' Hr'.
      destruct (decide (i = a ∧ j = b)) as [[-> ->] | Hne].
      - rewrite Hg2. congruence.
      - rewrite Ho2 by lia. apply Hsm1; [lia | done | done]. }
    eexists. split; [done |]. split; [done |].
    intros i j g' r' Hi Hg' Hr'. apply Hsm'; [| done | done].
    rewrite length_enumerate. apply lookup_lt_Some in Hr'. lia. }
  exists sm. split; [done |]. split; [done |].
  intros i j g r Hg Hr. apply Hsm; [| done | done].
  rewrite length_enumerate. by apply lookup_lt_Some in Hg.
Qed.

(** The indices of an alignment step. *)
Definition gen_of (s : DPMatcher.step) : option nat := s.1.1.
Definition ref_of (s : DPMatcher.step) : option nat := s.1.2.

(** The walk back from cell [(i, j)] visits every row below [i] and every
    column below [j] once, in descending order, whatever the table of
    choices holds. *)
Lemma backtrack_spec (sm : list (list Q)) (bt : list (list nat)) n m :
  np_wf n m sm → np_wf (n + 1) (m + 1) bt →
  ∀ fuel i j acc, (i ≤ n)%nat → (j ≤ m)%nat → (i + j ≤ fuel)%nat →
  ∃ al, DPMatcher.backtrack fuel self sm bt i j acc = Some (acc ++ al)
        ∧ omap gen_of al = rev (seq 0 i)
        ∧ omap ref_of al = rev (seq 0 j)
        ∧ Forall (λ s, is_Some (gen_of s) ∨ is_Some (ref_of s)) al.
Proof.
  intros Hsm Hbt. induction fuel as [|fuel IH]; intros i j acc Hi Hj Hf.
  - assert (i = 0%nat) as -> by lia. assert (j = 0%nat) as -> by lia.
    exists []. simpl. by rewrite app_nil_r.
  - destruct (decide (i = 0 ∧ j = 0)%nat) as [[-> ->] | Hne].
    { exists []. simpl. by rewrite app_nil_r. }
    cbn [DPMatcher.backtrack].
    assert (((0 <? i) || (0 <? j))%nat = true) as ->.
    { apply orb_true_iff. rewrite !Nat.ltb_lt. lia. }
    destruct (proj2 (np_get_is_Some _ _ bt i j Hbt)) as [move ->]; [lia |].
    cbn [mbind option_bind].
    destruct ((0 <? i) && (0 <? j) && (move =? 0))%nat eqn:E1.
    + apply andb_true_iff in E1 as [E1 _].
      apply andb_true_iff in E1 as [Ei Ej].
      apply Nat.ltb_lt in Ei, Ej.
      destruct (proj2 (np_get_is_Some _ _ sm (i - 1) (j - 1) Hsm))
        as [score ->]; [lia |].
      cbn [mbind option_bind].
      destruct (IH (i - 1)%nat (j - 1)%nat
                  (acc ++ [(Some (i - 1)%nat, Some (j - 1)%nat, score)]))
        as (al & -> & Hg & Hr & Hok); [lia | lia | lia |].
      eexists (_ :: al). rewrite <- app_assoc. split; [done |].
      split_and!.
      * cbn. rewrite Hg. destruct i as [|i]; [lia |].
        replace (S i - 1)%nat with i by lia.
        by rewrite seq_S, rev_app_distr.
      * cbn. rewrite Hr. destruct j as [|j]; [lia |].
        replace (S j - 1)%nat with j by lia.
        by rewrite seq_S, rev_app_distr.
      * constructor; [left; by eexists | done].
    + destruct ((0 <? i) && ((j =? 0) || (move =? 1)))%nat eqn:E2.
      * apply andb_true_iff in E2 as [Ei _]. apply Nat.ltb_lt in Ei.
        destruct (IH (i - 1)%nat j (acc ++ [(Some (i - 1)%nat, None, gg)]))
          as (al & -> & Hg & Hr & Hok); [lia | lia | lia |].
        eexists (_ :: al). rewrite <- app_assoc. split; [done |].
        split_and!.
        -- cbn. rewrite Hg. destruct i as [|i]; [lia |].
           replace (S i - 1)%nat with i by lia.
           by rewrite seq_S, rev_app_distr.
        -- done.
        -- constructor; [left; by eexists | done].
      * assert (0 < j)%nat as Ej.
        { destruct j as [|j]; [| lia]. destruct i as [|i]; [lia |].
          simpl in E2. done. }
        destruct (IH i (j - 1)%nat (acc ++ [(None, Some (j - 1)%nat, gr)]))
          as (al & -> & Hg & Hr & Hok); [lia | lia | lia |].
        eexists (_ :: al). rewrite <- app_assoc. split; [done |].
        split_and!.
        -- done.
        -- cbn. rewrite Hr. destruct j as [|j]; [lia |].
           replace (S j - 1)%nat with j by lia.
           by rewrite seq_S, rev_app_distr.
        -- constructor; [right; by eexists | done].
Qed.

End DPAlign.

Lemma omap_rev {A B} (f : A → option B) (l : list A) :
  omap f (rev l) = rev (omap f l).
Proof.
  induction l as [|x l IH]; [done |]. simpl rev.
  rewrite omap_app, IH. cbn. destruct (f x); simpl; [done |].
  by rewrite app_nil_r.
Qed.

(** Reading a list at every position, in order, gives the list back. *)
Lemma omap_lookup_seq {A B} (f : A → B) (pre l : list A) :
  omap (λ i, f <$> (pre ++ l) !! i) (seq (length pre) (length l)) = map f l.
Proof.
  revert pre. induction l as [|x l IH]; intros pre; [done |].
  cbn. rewrite list_lookup_middle by done. cbn. f_equal.
  specialize (IH (pre ++ [x])).
  rewrite <- app_assoc, length_app in IH. simpl in IH.
  by rewrite Nat.add_1_r in IH.
Qed.

Lemma omap_lookup_all {A B} (f : A → B) (l : list A) :
  omap (λ i, f <$> l !! i) (seq 0 (length l)) = map f l.
Proof. apply (omap_lookup_seq f [] l). Qed.

Section DPMatch.
Local Open Scope Q_scope.
Variable math_exp : Q → Q.
Variable self : DPMatcher.t.

Lemma dp_align_spec (sm : list (list Q)) n m :
  np_wf n m sm → (0 < n)%nat →
  ∃ al, DPMatcher._dp_align self sm = Some al
        ∧ omap gen_of al = seq 0 n
        ∧ omap ref_of al = seq 0 m
        ∧ Forall (λ s, is_Some (gen_of s) ∨ is_Some (ref_of s)) al.
Proof.
  intros Hsm Hn. unfold DPMatcher._dp_align.
  rewrite (np_shape_wf n m sm Hsm Hn).
  destruct (dp_tables_spec self sm n m Hsm Hn) as ([dp bt] & -> & _ & Hbt & _).
  cbn [mbind option_bind]. simpl in Hbt.
  destruct (backtrack_spec self sm bt n m Hsm Hbt (n + m) n m [])
    as (al & -> & Hg & Hr & Hok); [lia | lia | lia |].
  cbn [mbind option_bind app]. eexists. split; [done |].
  rewrite !omap_rev, Hg, Hr, !rev_involutive.
  split; [done |]. split; [done |].
  apply Forall_forall. intros s Hs. rewrite Forall_forall in Hok.
  apply Hok. apply list_elem_of_In. apply list_elem_of_In in Hs.
  by apply in_rev.
Qed.

Lemma records_of_alignment gen ref (al : list DPMatcher.step) :
  Forall (λ s, is_Some (gen_of s) ∨ is_Some (ref_of s)) al →
  Forall (λ i, i < length gen)%nat (omap gen_of al) →
  Forall (λ j, j < length ref)%nat (omap ref_of al) →
  ∃ recs, mapM (DPMatcher.record_of gen ref) al = Some recs
    ∧ concat (map gen_indices recs)
      = omap (λ i, index <$> gen !! i) (omap gen_of al)
    ∧ concat (map ref_indices recs)
      = omap (λ j, index <$> ref !! j) (omap ref_of al).
Proof.
  induction al as [|[[og or] sc] al IH]; intros Hok Hg Hr.
  { by exists []. }
  inversion Hok as [|? ? Hs Hok']; subst.
  destruct og as [g_idx|], or as [r_idx|]; cbn in Hg, Hr.
  - inversion Hg as [|? ? Hgi Hg']; subst.
    inversion Hr as [|? ? Hri Hr']; subst.
    destruct (IH Hok' Hg' Hr') as (recs & Hrecs & Hgs & Hrs).
    destruct (lookup_lt_is_Some_2 gen g_idx Hgi) as [g Eg].
    destruct (lookup_lt_is_Some_2 ref r_idx Hri) as [r Er].
    cbn. rewrite Eg, Er. cbn. rewrite Hrecs. cbn.
    eexists. split; [done |]. cbn. by rewrite Hgs, Hrs.
  - inversion Hg as [|? ? Hgi Hg']; subst.
    destruct (IH Hok' Hg' Hr) as (recs & Hrecs & Hgs & Hrs).
    destruct (lookup_lt_is_Some_2 gen g_idx Hgi) as [g Eg].
    cbn. rewrite Eg. cbn. rewrite Hrecs. cbn.
    eexists. split; [done |]. cbn. by rewrite Hgs, Hrs.
  - inversion Hr as [|? ? Hri Hr']; subst.
    destruct (IH Hok' Hg Hr') as (recs & Hrecs & Hgs & Hrs).
    destruct (lookup_lt_is_Some_2 ref r_idx Hri) as [r Er].
    cbn. rewrite Er. cbn. rewrite Hrecs. cbn.
    eexists. split; [done |]. cbn. by rewrite Hgs, Hrs.
  - destruct Hs as [[? Hs] | [? Hs]]; discriminate Hs.
Qed.

(** With two non-empty sequences the DP matcher returns, and its records
    list the generated events and the reference events once each, in
    input order. *)
Lemma DPMatcher_match_indices gen ref :
  gen ≠ [] → ref ≠ [] → similarity_total math_exp self gen ref →
  ∃ recs, DPMatcher.match_ math_exp self gen ref = Some recs
    ∧ concat (map gen_indices recs) = map index gen
    ∧ concat (map ref_indices recs) = map index ref.
Proof.
  intros Hgen Href Htot. unfold DPMatcher.match_.
  apply truthy_true in Hgen, Href. rewrite Hgen, Href. cbn [negb orb].
  destruct (build_similarity_matrix_spec math_exp self gen ref Htot)
    as (sm & -> & Hsm & _). cbn [mbind option_bind].
  assert (0 < length gen)%nat as Hn.
  { apply truthy_true in Hgen. destruct gen; [done | simpl; lia]. }
  destruct (dp_align_spec sm _ _ Hsm Hn) as (al & -> & Hg & Hr & Hok).
  cbn [mbind option_bind].
  destruct (records_of_alignment gen ref al Hok)
    as (recs & -> & Hgs & Hrs).
  { rewrite Hg. apply Forall_forall. intros i Hi.
    apply elem_of_seq in Hi. lia. }
  { rewrite Hr. apply Forall_forall. intros i Hi.
    apply elem_of_seq in Hi. lia. }
  exists recs. split; [done |].
  by rewrite Hgs, Hrs, Hg, Hr, !omap_lookup_all.
Qed.

Lemma DPMatcher_match_empty gen ref :
  gen = [] ∨ ref = [] → DPMatcher.match_ math_exp self gen ref = Some [].
Proof.
  intros [-> | ->]; unfold DPMatcher.match_; [done |].
  by destruct gen.
Qed.

End DPMatch.

(** ** The DP table over binary64 *)

Section Float64Add.

(** Rounding never makes a NaN out of a mantissa that is not negative. *)
Lemma shr_1_nonneg mrs :
  (0 ≤ SpecFloat.shr_m mrs)%Z → (0 ≤ SpecFloat.shr_m (SpecFloat.shr_1 mrs))%Z.
Proof.
  destruct mrs as [m r s]. simpl. destruct m as [|[p|p|]|p]; simpl; lia.
Qed.

Lemma iter_pos_shr_1_nonneg p mrs :
  (0 ≤ SpecFloat.shr_m mrs)%Z →
  (0 ≤ SpecFloat.shr_m (SpecFloat.iter_pos SpecFloat.shr_1 p mrs))%Z.
Proof.
  revert mrs. induction p as [p IH | p IH |]; intros mrs H; simpl.
  - apply IH, IH. by apply shr_1_nonneg.
  - by apply IH, IH.
  - by apply shr_1_nonneg.
Qed.

Lemma shr_fexp_nonneg m e l :
  (0 ≤ m)%Z →
  (0 ≤ SpecFloat.shr_m (SpecFloat.shr_fexp F64.prec F64.emax m e l).1)%Z.
Proof.
  intros H. unfold SpecFloat.shr_fexp, SpecFloat.shr.
  assert (SpecFloat.shr_m (SpecFloat.shr_record_of_loc m l) = m) as Hm.
  { by destruct l as [|[]]. }
  destruct (_ - e)%Z as [|p|p]; simpl; [lia | | lia].
  apply iter_pos_shr_1_nonneg. lia.
Qed.

Lemma round_nearest_even_nonneg m l :
  (0 ≤ m)%Z → (0 ≤ SpecFloat.round_nearest_even m l)%Z.
Proof.
  intros H. unfold SpecFloat.round_nearest_even.
  destruct l as [|[]]; [done | | done | lia].
  destruct (Z.even m); lia.
Qed.

Lemma binary_round_aux_not_nan s m e l :
  (0 ≤ m)%Z →
  F64.is_nan (SpecFloat.binary_round_aux F64.prec F64.emax s m e l) = false.
Proof.
  intros H. unfold SpecFloat.binary_round_aux.
  pose proof (shr_fexp_nonneg m e l H) as H1.
  destruct (SpecFloat.shr_fexp F64.prec F64.emax m e l) as [mrs' e'].
  simpl in H1.
  pose proof (shr_fexp_nonneg
    (SpecFloat.round_nearest_even (SpecFloat.shr_m mrs')
       (SpecFloat.loc_of_shr_record mrs')) e' SpecFloat.loc_Exact
    (round_nearest_even_nonneg _ _ H1)) as H2.
  destruct (SpecFloat.shr_fexp F64.prec F64.emax _ e' SpecFloat.loc_Exact)
    as [mrs'' e''].
  simpl in H2. destruct (SpecFloat.shr_m mrs'') as [|p|p]; [done | | lia].
  by destruct (_ <=? _)%Z.
Qed.

Lemma binary_normalize_not_nan m e :
  F64.is_nan (SpecFloat.binary_normalize F64.prec F64.emax m e false) = false.
Proof.
  unfold SpecFloat.binary_normalize, SpecFloat.binary_round.
  destruct m as [|p|p]; [done | |].
  - destruct (SpecFloat.shl_align _ _ _) as [mz ez].
    by apply binary_round_aux_not_nan.
  - destruct (SpecFloat.shl_align _ _ _) as [mz ez].
    by apply binary_round_aux_not_nan.
Qed.

(** The sum of a float that is not NaN and of a finite float is not
    NaN. *)
Lemma f64_add_not_nan x y :
  F64.is_nan x = false → F64.is_finite y = true →
  F64.is_nan (F64.add x y) = false.
Proof.
  intros Hx Hy. unfold F64.add, SpecFloat.SFadd.
  destruct x as [[]|[]| |sx mx ex], y as [[]|[]| |sy my ey];
    try done; try (by destruct sx); try (by destruct sy).
  apply binary_normalize_not_nan.
Qed.

End Float64Add.

Section Float64Table.
Variable self : F64.DPMatcher.t.
Local Abbreviation gg := (F64.DPMatcher.gap_penalty_gen self).
Local Abbreviation gr := (F64.DPMatcher.gap_penalty_ref self).

(** The best of the three scores and the recorded choice, as the chain
    of two strict comparisons leaves them. *)
Definition fbest3 (a b c : F64.float) : F64.float :=
  let best := if F64.lt a b then b else a in
  if F64.lt best c then c else best.

Definition fchoice3 (a b c : F64.float) : nat :=
  if F64.lt a b then (if F64.lt b c then 2 else 1)%nat
  else (if F64.lt a c then 2 else 0)%nat.

Lemma fbest3_cases a b c :
  (fbest3 a b c = a ∧ fchoice3 a b c = 0%nat)
  ∨ (fbest3 a b c = b ∧ fchoice3 a b c = 1%nat)
  ∨ (fbest3 a b c = c ∧ fchoice3 a b c = 2%nat).
Proof.
  unfold fbest3, fchoice3. cbn zeta.
  destruct (F64.lt a b), (F64.lt b c), (F64.lt a c); tauto.
Qed.

Lemma fbest3_not_nan a b c :
  F64.is_nan a = false → F64.is_nan b = false → F64.is_nan c = false →
  F64.is_nan (fbest3 a b c) = false.
Proof.
  intros. destruct (fbest3_cases a b c) as [[-> _] | [[-> _] | [-> _]]];
    done.
Qed.

Lemma f64_lt_trans a b c :
  F64.lt a b = true → F64.lt b c = true → F64.lt a c = true.
Proof.
  rewrite !f64_lt_rank. intros (Ha & Hb & Hab) (_ & Hc & Hbc).
  split; [done |]. split; [done |]. by eapply lex_lt_trans.
Qed.

Lemma f64_le_lt_trans a b c :
  F64.le a b = true → F64.lt b c = true → F64.lt a c = true.
Proof.
  rewrite f64_le_rank, !f64_lt_rank. intros (Ha & Hb & Hab) (_ & Hc & Hbc).
  split; [done |]. split; [done |].
  destruct Hab as [Hab | ->]; [by eapply lex_lt_trans | done].
Qed.

Lemma f64_le_lt_false a b : F64.le a b = true → F64.lt b a = false.
Proof.
  intros H. destruct (F64.lt b a) eqn:E; [| done].
  pose proof (f64_le_lt_trans a b a H E) as H'. apply f64_lt_rank in H'.
  destruct H' as (_ & _ & H'). by apply lex_lt_irrefl in H'.
Qed.

(** The recurrence at one cell: [d], [u] and [l] are the values of the
    diagonal, upper and left neighbours, [c] the similarity of the pair
    of events, [best] the value of the cell and [choice] its recorded
    choice. *)
Definition cell_recurrence (c d u l best : F64.float) (choice : nat)
  : Prop :=
  let match_score := F64.add d c in
  let skip_gen_score := F64.add u gg in
  let skip_ref_score := F64.add l gr in
  ((best = match_score ∧ choice = 0%nat)
   ∨ (best = skip_gen_score ∧ choice = 1%nat)
   ∨ (best = skip_ref_score ∧ choice = 2%nat))
  ∧ (F64.lt match_score skip_gen_score = false →
     F64.lt match_score skip_ref_score = false →
       choice = 0%nat ∧ best = match_score)
  ∧ (F64.lt match_score skip_gen_score = true →
     F64.lt skip_gen_score skip_ref_score = false →
       choice = 1%nat ∧ best = skip_gen_score)
  ∧ (F64.lt match_score skip_gen_score = true →
     F64.lt skip_gen_score skip_ref_score = true →
       choice = 2%nat ∧ best = skip_ref_score)
  ∧ (F64.lt match_score skip_gen_score = false →
     F64.lt match_score skip_ref_score = true →
       choice = 2%nat ∧ best = skip_ref_score)
  ∧ (F64.is_nan match_score = false → F64.is_nan skip_gen_score = false →
     F64.is_nan skip_ref_score = false →
       F64.le match_score best = true
       ∧ F64.le skip_gen_score best = true
       ∧ F64.le skip_ref_score best = true
       ∧ (F64.le skip_gen_score match_score = true →
          F64.le skip_ref_score match_score = true → choice = 0%nat)
       ∧ (F64.lt match_score skip_gen_score = true →
          F64.le skip_ref_score skip_gen_score = true → choice = 1%nat)
       ∧ (choice = 2%nat →
          F64.lt match_score skip_ref_score = true
          ∧ F64.lt skip_gen_score skip_ref_score = true)).

Lemma fbest3_recurrence c d u l :
  cell_recurrence c d u l
    (fbest3 (F64.add d c) (F64.add u gg) (F64.add l gr))
    (fchoice3 (F64.add d c) (F64.add u gg) (F64.add l gr)).
Proof.
  unfold cell_recurrence. cbn zeta.
  set (a := F64.add d c). set (b := F64.add u gg). set (x := F64.add l gr).
  split; [pose proof (fbest3_cases a b x); tauto |].
  unfold fbest3, fchoice3. cbn zeta.
  split_and!.
  - intros -> ->. done.
  - intros -> ->. done.
  - intros -> ->. done.
  - intros -> ->. done.
  - intros Ha Hb Hx.
    destruct (F64.lt a b) eqn:E1.
    + destruct (F64.lt b x) eqn:E2.
      * split_and!.
        -- apply f64_lt_le. by eapply f64_lt_trans.
        -- by apply f64_lt_le.
        -- by apply f64_le_refl.
        -- intros H. apply f64_le_lt_false in H. congruence.
        -- intros _ H. apply f64_le_lt_false in H. congruence.
        -- intros _. split; [by eapply f64_lt_trans | done].
      * split_and!.
        -- by apply f64_lt_le.
        -- by apply f64_le_refl.
        -- by apply f64_not_lt_le.
        -- intros H. apply f64_le_lt_false in H. congruence.
        -- done.
        -- done.
    + destruct (F64.lt a x) eqn:E2.
      * split_and!.
        -- by apply f64_lt_le.
        -- apply f64_lt_le. eapply f64_le_lt_trans; [| exact E2]. by apply f64_not_lt_le.
        -- by apply f64_le_refl.
        -- intros _ H. apply f64_le_lt_false in H. congruence.
        -- done.
        -- intros _. split; [done |].
           eapply f64_le_lt_trans; [| exact E2]. by apply f64_not_lt_le.
      * split_and!.
        -- by apply f64_le_refl.
        -- by apply f64_not_lt_le.
        -- by apply f64_not_lt_le.
        -- done.
        -- done.
        -- done.
Qed.

(** The table as a function of the similarities: the value and the
    choice of every cell. *)
Section Spec.
Variable sim : nat → nat → F64.float.

Fixpoint fdp_value (i : nat) : nat → F64.float :=
  match i with
  | O => fix row (j : nat) : F64.float :=
           match j with
           | O => F64.zero
           | S j' => F64.add (row j') gr
           end
  | S i' =>
      fix row (j : nat) : F64.float :=
        match j with
        | O => F64.add (fdp_value i' O) gg
        | S j' => fbest3 (F64.add (fdp_value i' j') (sim i' j'))
                         (F64.add (fdp_value i' (S j')) gg)
                         (F64.add (row j') gr)
        end
  end.

Definition fbt_value (i j : nat) : nat :=
  match i, j with
  | O, O => 0%nat
  | S _, O => 1%nat
  | O, S _ => 2%nat
  | S i', S j' => fchoice3 (F64.add (fdp_value i' j') (sim i' j'))
                           (F64.add (fdp_value i' (S j')) gg)
                           (F64.add (fdp_value (S i') j') gr)
  end.

Lemma fdp_value_SS i j :
  fdp_value (S i) (S j)
  = fbest3 (F64.add (fdp_value i j) (sim i j))
           (F64.add (fdp_value i (S j)) gg)
           (F64.add (fdp_value (S i) j) gr).
Proof. done. Qed.

(** With finite similarities and finite gap penalties no cell is NaN. *)
Lemma fdp_value_not_nan i j :
  F64.is_finite gg = true → F64.is_finite gr = true →
  (∀ a b, F64.is_finite (sim a b) = true) →
  F64.is_nan (fdp_value i j) = false.
Proof.
  intros Hgg Hgr Hsim. revert j. induction i as [|i IHi]; intros j.
  - induction j as [|j IHj]; [done |].
    change (fdp_value 0 (S j)) with (F64.add (fdp_value 0 j) gr).
    by apply f64_add_not_nan.
  - induction j as [|j IHj].
    + change (fdp_value (S i) 0) with (F64.add (fdp_value i 0) gg).
      by apply f64_add_not_nan.
    + rewrite fdp_value_SS.
      apply fbest3_not_nan; by apply f64_add_not_nan.
Qed.
End Spec.

(** The tables agree with the functions on the cells of [D]. *)
Definition ftables_agree (n m : nat) (sim : nat → nat → F64.float)
    (D : nat → nat → Prop)
    (t : list (list F64.float) * list (list nat)) : Prop :=
  np_wf (n + 1) (m + 1) t.1 ∧ np_wf (n + 1) (m + 1) t.2
  ∧ ∀ i j, D i j → np.get t.1 i j = Some (fdp_value sim i j)
                   ∧ np.get t.2 i j = Some (fbt_value sim i j).

Lemma F64_fill_cell_spec (S : list (list F64.float)) n m dp bt i j s d u l :
  np_wf (n + 1) (m + 1) dp → np_wf (n + 1) (m + 1) bt →
  (1 ≤ i ≤ n)%nat → (1 ≤ j ≤ m)%nat →
  np.get S (i - 1) (j - 1) = Some s →
  np.get dp (i - 1) (j - 1) = Some d →
  np.get dp (i - 1) j = Some u →
  np.get dp i (j - 1) = Some l →
  ∃ dp' bt', F64.DPMatcher.fill_cell self S i j (dp, bt) = Some (dp', bt')
    ∧ np_wf (n + 1) (m + 1) dp' ∧ np_wf (n + 1) (m + 1) bt'
    ∧ np.get dp' i j
      = Some (fbest3 (F64.add d s) (F64.add u gg) (F64.add l gr))
    ∧ np.get bt' i j
      = Some (fchoice3 (F64.add d s) (F64.add u gg) (F64.add l gr))
    ∧ ∀ i' j', i' ≠ i ∨ j' ≠ j →
        np.get dp' i' j' = np.get dp i' j'
        ∧ np.get bt' i' j' = np.get bt i' j'.
Proof.
  intros Hdp Hbt Hi Hj Hs Hd Hu Hl. unfold F64.DPMatcher.fill_cell.
  rewrite Hd, Hs, Hu, Hl. cbn [mbind option_bind].
  destruct (np_set_spec _ _ bt i j 0%nat Hbt)
    as (bt0 & -> & Hbt0 & Hg0 & Ho0); [lia | lia |].
  cbn [mbind option_bind]. unfold fbest3, fchoice3. cbn zeta.
  destruct (F64.lt (F64.add d s) (F64.add u gg)) eqn:E1.
  - destruct (np_set_spec _ _ bt0 i j 1%nat Hbt0)
      as (bt1 & -> & Hbt1 & Hg1 & Ho1); [lia | lia |].
    cbn [mbind option_bind].
    destruct (F64.lt (F64.add u gg) (F64.add l gr)) eqn:E2.
    + destruct (np_set_spec _ _ bt1 i j 2%nat Hbt1)
        as (bt2 & -> & Hbt2 & Hg2 & Ho2); [lia | lia |].
      cbn [mbind option_bind].
      destruct (np_set_spec _ _ dp i j (F64.add l gr) Hdp)
        as (dp' & -> & Hdp' & Hgd & Hod); [lia | lia |].
      cbn [mbind option_bind]. eexists _, _. split; [done |].
      split_and!; try done. intros i' j' Hne.
      split; [by apply Hod |]. by rewrite Ho2, Ho1, Ho0.
    + cbn [mbind option_bind].
      destruct (np_set_spec _ _ dp i j (F64.add u gg) Hdp)
        as (dp' & -> & Hdp' & Hgd & Hod); [lia | lia |].
      cbn [mbind option_bind]. eexists _, _. split; [done |].
      split_and!; try done. intros i' j' Hne.
      split; [by apply Hod |]. by rewrite Ho1, Ho0.
  - cbn [mbind option_bind].
    destruct (F64.lt (F64.add d s) (F64.add l gr)) eqn:E2.
    + destruct (np_set_spec _ _ bt0 i j 2%nat Hbt0)
        as (bt2 & -> & Hbt2 & Hg2 & Ho2); [lia | lia |].
      cbn [mbind option_bind].
      destruct (np_set_spec _ _ dp i j (F64.add l gr) Hdp)
        as (dp' & -> & Hdp' & Hgd & Hod); [lia | lia |].
      cbn [mbind option_bind]. eexists _, _. split; [done |].
      split_and!; try done. intros i' j' Hne.
      split; [by apply Hod |]. by rewrite Ho2, Ho0.
    + cbn [mbind option_bind].
      destruct (np_set_spec _ _ dp i j (F64.add d s) Hdp)
        as (dp' & -> & Hdp' & Hgd & Hod); [lia | lia |].
      cbn [mbind option_bind]. eexists _, _. split; [done |].
      split_and!; try done. intros i' j' Hne.
      split; [by apply Hod |]. by rewrite Ho0.
Qed.

(** The similarity read from the matrix. *)
Definition fsim_of (sm : list (list F64.float)) (i j : nat) : F64.float :=
  default F64.zero (np.get sm i j).

Lemma F64_dp_tables_spec (sm : list (list F64.float)) n m :
  np_wf n m sm → (0 < n)%nat →
  ∃ t, F64.DPMatcher.dp_tables self sm = Some t
       ∧ ftables_agree n m (fsim_of sm)
           (λ i j, (i ≤ n)%nat ∧ (j ≤ m)%nat) t.
Proof.
  intros HS Hn. unfold F64.DPMatcher.dp_tables.
  rewrite (np_shape_wf n m sm HS Hn).
  set (sim := fsim_of sm).
  (* dp[0, 0] = 0.0 *)
  destruct (np_set_spec (n + 1) (m + 1)
              (np.full (n + 1) (m + 1) (F64.of_Z (-1000000000))) 0 0
              F64.zero)
    as (dp0 & -> & Hdp0 & Hg0 & Ho0); [apply np_full_wf | lia | lia |].
  cbn [mbind option_bind].
  (* the first column *)
  edestruct (for_invariant
    (λ k t, ftables_agree n m sim (λ i j, j = 0 ∧ i ≤ k)%nat t)
    (Py.range 1 (n + 1))) as (t1 & -> & Ht1).
  { split; [done |]. split; [apply np_full_wf |].
    intros i j [-> Hi]. assert (i = 0%nat) as -> by lia.
    split; [done |]. apply np_get_full; lia. }
  { intros k i [dp bt] Hk (Hdp & Hbt & Hag).
    apply lookup_range in Hk as [-> Hk]. simpl in Hdp, Hbt, Hag.
    replace (1 + k - 1)%nat with k by lia.
    destruct (Hag k 0%nat) as [Hv _]; [lia |]. rewrite Hv.
    cbn [mbind option_bind].
    destruct (np_set_spec _ _ dp (1 + k) 0
                (F64.add (fdp_value sim k 0) gg) Hdp)
      as (dp' & -> & Hdp' & Hgd & Hod); [lia | lia |].
    cbn [mbind option_bind].
    destruct (np_set_spec _ _ bt (1 + k) 0 1%nat Hbt)
      as (bt' & -> & Hbt' & Hgb & Hob); [lia | lia |].
    cbn [mbind option_bind]. eexists. split; [done |].
    split; [done |]. split; [done |]. simpl.
    intros i j [-> Hi]. destruct (decide (i = S k)) as [-> | Hne].
    - done.
    - rewrite Hod, Hob by lia. apply Hag. lia. }
  cbn [mbind option_bind]. rewrite length_range in Ht1.
  replace (n + 1 - 1)%nat with n in Ht1 by lia.
  (* the first row *)
  edestruct (for_invariant
    (λ k t, ftables_agree n m sim
       (λ i j, (j = 0 ∧ i ≤ n) ∨ (i = 0 ∧ j ≤ k))%nat t)
    (Py.range 1 (m + 1)) t1) as (t2 & -> & Ht2).
  { destruct Ht1 as (H1 & H2 & H3). split; [done |]. split; [done |].
    intros i j [[-> Hi] | [-> Hj]]; apply H3; lia. }
  { intros k j [dp bt] Hk (Hdp & Hbt & Hag).
    apply lookup_range in Hk as [-> Hk]. simpl in Hdp, Hbt, Hag.
    replace (1 + k - 1)%nat with k by lia.
    destruct (Hag 0%nat k) as [Hv _]; [lia |]. rewrite Hv.
    cbn [mbind option_bind].
    destruct (np_set_spec _ _ dp 0 (1 + k)
                (F64.add (fdp_value sim 0 k) gr) Hdp)
      as (dp' & -> & Hdp' & Hgd & Hod); [lia | lia |].
    cbn [mbind option_bind].
    destruct (np_set_spec _ _ bt 0 (1 + k) 2%nat Hbt)
      as (bt' & -> & Hbt' & Hgb & Hob); [lia | lia |].
    cbn [mbind option_bind]. eexists. split; [done |].
    split; [done |]. split; [done |]. simpl.
    intros i j Hij.
    destruct (decide (i = 0%nat ∧ j = S k)) as [[-> ->] | Hne].
    - done.
    - rewrite Hod, Hob by lia. apply Hag. lia. }
  cbn [mbind option_bind]. rewrite length_range in Ht2.
  replace (m + 1 - 1)%nat with m in Ht2 by lia.
  (* the rows of the table *)
  edestruct (for_invariant
    (λ a t, ftables_agree n m sim
       (λ i j, i ≤ n ∧ j ≤ m ∧ (j = 0 ∨ i ≤ a))%nat t)
    (Py.range 1 (n + 1)) t2) as (t3 & -> & Ht3).
  { destruct Ht2 as (H1 & H2 & H3). split; [done |]. split; [done |].
    intros i j (Hi & Hj & H). apply H3. lia. }
  { intros a i t Ha Ht. apply lookup_range in Ha as [-> Ha].
    edestruct (for_invariant
      (λ b t, ftables_agree n m sim
         (λ i j, i ≤ n ∧ j ≤ m
                 ∧ (j = 0 ∨ i ≤ a ∨ (i = 1 + a ∧ j ≤ b)))%nat t)
      (Py.range 1 (m + 1)) t) as (t' & -> & Ht').
    { destruct Ht as (H1 & H2 & H3). split; [done |]. split; [done |].
      intros i j (Hi & Hj & H). apply H3. lia. }
    { intros b j [dp bt] Hb (Hdp & Hbt & Hag).
      apply lookup_range in Hb as [-> Hb]. simpl in Hdp, Hbt, Hag.
      destruct (Hag a b) as [Hd _]; [lia |].
      destruct (Hag a (1 + b)%nat) as [Hu _]; [lia |].
      destruct (Hag (1 + a)%nat b) as [Hl _]; [lia |].
      assert (np.get sm a b = Some (sim a b)) as Hs.
      { unfold sim, fsim_of.
        destruct (proj2 (np_get_is_Some n m sm a b HS)) as [v ->];
          [lia | done]. }
      edestruct (F64_fill_cell_spec sm n m dp bt (1 + a) (1 + b))
        as (dp' & bt' & -> & Hdp' & Hbt' & Hgd & Hgb & Ho);
        [done | done | lia | lia | | | | |].
      { replace (1 + a - 1)%nat with a by lia.
        replace (1 + b - 1)%nat with b by lia. exact Hs. }
      { replace (1 + a - 1)%nat with a by lia.
        replace (1 + b - 1)%nat with b by lia. exact Hd. }
      { replace (1 + a - 1)%nat with a by lia. exact Hu. }
      { replace (1 + b - 1)%nat with b by lia. exact Hl. }
      eexists. split; [done |]. split; [done |]. split; [done |]. simpl.
      intros i j Hij.
      destruct (decide (i = S a ∧ j = S b)) as [[-> ->] | Hne].
      - done.
      - destruct (Ho i j) as [-> ->]; [lia |]. apply Hag. lia. }
    eexists. split; [done |]. rewrite length_range in Ht'.
    destruct Ht' as (H1 & H2 & H3). split; [done |]. split; [done |].
    intros i j Hij. apply H3. lia. }
  rewrite length_range in Ht3. exists t3. split; [done |].
  destruct Ht3 as (H1 & H2 & H3). split; [done |]. split; [done |].
  intros i j Hij. apply H3. lia.
Qed.

End Float64Table.

(** A loop that returns has run its body on every element. *)
Lemma for_Some_body {S A} (l : list A) (body : A → S → option S) s s' :
  Py.for_ l body s = Some s' →
  ∀ x, x ∈ l → ∃ s1, is_Some (body x s1).
Proof.
  revert s. induction l as [|y l IH]; intros s H x Hx.
  { by apply elem_of_nil in Hx. }
  simpl in H. destruct (body y s) as [s1|] eqn:E; [| done]. simpl in H.
  apply elem_of_cons in Hx as [-> | Hx].
  - exists s. by rewrite E.
  - by eapply IH.
Qed.

Section Float64Matrix.
Variable math_exp : F64.float → option F64.float.
Variable self : F64.DPMatcher.t.

Lemma F64_build_similarity_matrix_spec gen ref :
  (∀ g r, g ∈ gen → r ∈ ref →
     is_Some (F64.DPMatcher._combined_similarity math_exp self g r)) →
  ∃ sm, F64.DPMatcher._build_similarity_matrix math_exp self gen ref
        = Some sm
    ∧ np_wf (length gen) (length ref) sm
    ∧ ∀ i j g r, gen !! i = Some g → ref !! j = Some r →
        np.get sm i j
        = F64.DPMatcher._combined_similarity math_exp self g r.
Proof.
  intros Htot. unfold F64.DPMatcher._build_similarity_matrix. cbn zeta.
  set (n := length gen). set (m := length ref).
  edestruct (for_invariant
    (λ a sm, np_wf n m sm
       ∧ ∀ i j g r, (i < a)%nat → gen !! i = Some g → ref !! j = Some r →
           np.get sm i j
           = F64.DPMatcher._combined_similarity math_exp self g r)
    (Py.enumerate gen) (np.full n m F64.zero)) as (sm & -> & Hwf & Hsm).
  { split; [apply np_full_wf | intros; lia]. }
  { intros a [i g] sm Ha [Hwf Hsm].
    apply lookup_enumerate in Ha as [Hi Hg]. simpl in Hi, Hg. subst i.
    edestruct (for_invariant
      (λ b sm, np_wf n m sm
         ∧ ∀ i j g r, (i < a ∨ (i = a ∧ j < b))%nat →
             gen !! i = Some g → ref !! j = Some r →
             np.get sm i j
             = F64.DPMatcher._combined_similarity math_exp self g r)
      (Py.enumerate ref) sm) as (sm' & -> & Hwf' & Hsm').
    { split; [done |]. intros i j g' r' Hij. apply Hsm. lia. }
    { intros b [j r] sm1 Hb [Hwf1 Hsm1].
      apply lookup_enumerate in Hb as [Hj Hr]. simpl in Hj, Hr. subst j.
      destruct (Htot g r) as [v Hv].
      { by eapply list_elem_of_lookup_2. }
      { by eapply list_elem_of_lookup_2. }
      rewrite Hv. cbn [mbind option_bind].
      destruct (np_set_spec n m sm1 a b v Hwf1)
        as (sm2 & -> & Hwf2 & Hg2 & Ho2).
      { apply lookup_lt_Some in Hg. done. }
      { apply lookup_lt_Some in Hr. done. }
      eexists. split; [done |]. split; [done |].
      intros i j g' r' Hij Hg' Hr'.
      destruct (decide (i = a ∧ j = b)) as [[-> ->] | Hne].
      - rewrite Hg2. congruence.
      - rewrite Ho2 by lia. apply Hsm1; [lia | done | done]. }
    eexists. split; [done |]. split; [done |].
    intros i j g' r' Hi Hg' Hr'. apply Hsm'; [| done | done].
    rewrite length_enumerate. apply lookup_lt_Some in Hr'. lia. }
  exists sm. split; [done |]. split; [done |].
  intros i j g r Hg Hr. apply Hsm; [| done | done].
  rewrite length_enumerate. by apply lookup_lt_Some in Hg.
Qed.

(** The matrix is built exactly when no pair of events makes the
    similarity raise. *)
Lemma F64_build_similarity_matrix_Some gen ref :
  is_Some (F64.DPMatcher._build_similarity_matrix math_exp self gen ref)
  ↔ ∀ g r, g ∈ gen → r ∈ ref →
      is_Some (F64.DPMatcher._combined_similarity math_exp self g r).
Proof.
  split.
  - intros [sm Hsm] g r Hg Hr.
    unfold F64.DPMatcher._build_similarity_matrix in Hsm. cbn zeta in Hsm.
    apply list_elem_of_lookup in Hg as [i Hi].
    apply list_elem_of_lookup in Hr as [j Hj].
    destruct (for_Some_body _ _ _ _ Hsm (i, g)) as [S1 [S2 H1]].
    { apply list_elem_of_lookup. exists i. unfold Py.enumerate.
      apply lookup_zip_with_Some. exists i, g. split; [done |].
      split; [| done]. apply lookup_seq. split; [done |].
      by eapply lookup_lt_Some. }
    simpl in H1.
    destruct (for_Some_body _ _ _ _ H1 (j, r)) as [S3 [S4 H2]].
    { apply list_elem_of_lookup. exists j. unfold Py.enumerate.
      apply lookup_zip_with_Some. exists j, r. split; [done |].
      split; [| done]. apply lookup_seq. split; [done |].
      by eapply lookup_lt_Some. }
    simpl in H2.
    destruct (F64.DPMatcher._combined_similarity math_exp self g r);
      [by eexists | done].
  - intros Htot.
    destruct (F64_build_similarity_matrix_spec gen ref Htot) as (sm & -> & _).
    by eexists.
Qed.

(** C2: over binary64. For non-empty sequences of [n] generated and [m]
    reference events the similarity matrix is built exactly when the
    configured similarity raises on no pair of events, and then the
    tables of [_dp_align] are built: [dp[0][0] = 0], each cell of the
    first column (row) is the cell before it plus the gap penalty of the
    generated (reference) side, with choice 1 (2), and for [i, j >= 1]
    the cell [dp[i][j]] is one of the diagonal, skip-generated and
    skip-reference scores, chosen by two strict comparisons: the
    diagonal unless skip-generated is strictly greater, then
    skip-reference when strictly greater than the score kept so far.
    When none of the three scores is NaN the cell is their maximum, the
    diagonal is recorded whenever no skip is strictly better, and
    skip-generated unless skip-reference is strictly better. With finite
    gap penalties and finite similarities no cell of the table is NaN.
    Sums are binary64 sums; rows and columns of the inner cells are
    written [i + 1], [j + 1] for the events at positions [i], [j]. *)
Theorem dp_table_recurrence (gen ref : list F64.ADEvent) :
  gen ≠ [] → ref ≠ [] →
  (is_Some (F64.DPMatcher._build_similarity_matrix math_exp self gen ref)
   ↔ ∀ g r, g ∈ gen → r ∈ ref →
       is_Some (F64.DPMatcher._combined_similarity math_exp self g r))
  ∧ ∀ sm,
      F64.DPMatcher._build_similarity_matrix math_exp self gen ref
      = Some sm →
      ∃ dp bt,
        F64.DPMatcher.dp_tables self sm = Some (dp, bt)
        ∧ np.get dp 0 0 = Some F64.zero
        ∧ (∀ i, (i < length gen)%nat →
             ∃ v, np.get dp i 0 = Some v
                  ∧ np.get dp (S i) 0
                    = Some (F64.add v (F64.DPMatcher.gap_penalty_gen self))
                  ∧ np.get bt (S i) 0 = Some 1%nat)
        ∧ (∀ j, (j < length ref)%nat →
             ∃ v, np.get dp 0 j = Some v
                  ∧ np.get dp 0 (S j)
                    = Some (F64.add v (F64.DPMatcher.gap_penalty_ref self))
                  ∧ np.get bt 0 (S j) = Some 2%nat)
        ∧ (∀ i j g r, gen !! i = Some g → ref !! j = Some r →
             ∃ c d u l best choice,
               F64.DPMatcher._combined_similarity math_exp self g r = Some c
               ∧ np.get dp i j = Some d
               ∧ np.get dp i (S j) = Some u
               ∧ np.get dp (S i) j = Some l
               ∧ np.get dp (S i) (S j) = Some best
               ∧ np.get bt (S i) (S j) = Some choice
               ∧ cell_recurrence self c d u l best choice)
        ∧ (F64.is_finite (F64.DPMatcher.gap_penalty_gen self) = true →
           F64.is_finite (F64.DPMatcher.gap_penalty_ref self) = true →
           (∀ g r c, g ∈ gen → r ∈ ref →
              F64.DPMatcher._combined_similarity math_exp self g r = Some c →
              F64.is_finite c = true) →
           ∀ i j, (i ≤ length gen)%nat → (j ≤ length ref)%nat →
             ∃ v, np.get dp i j = Some v ∧ F64.is_nan v = false).
Proof.
  intros Hgen Href. split; [apply F64_build_similarity_matrix_Some |].
  intros sm Hbuild.
  assert (∀ g r, g ∈ gen → r ∈ ref →
     is_Some (F64.DPMatcher._combined_similarity math_exp self g r)) as Htot.
  { apply F64_build_similarity_matrix_Some. by eexists. }
  destruct (F64_build_similarity_matrix_spec gen ref Htot)
    as (sm' & Hbuild' & Hsm & Hcells).
  assert (sm' = sm) as -> by congruence.
  assert (0 < length gen)%nat as Hn by (destruct gen; [done | simpl; lia]).
  destruct (F64_dp_tables_spec self sm _ _ Hsm Hn)
    as ([dp bt] & Htab & _ & _ & Hag). simpl in Hag.
  exists dp, bt. split; [done |].
  set (sim := fsim_of sm) in *. split_and!.
  - destruct (Hag 0%nat 0%nat) as [H _]; [lia | done].
  - intros i Hi. exists (fdp_value self sim i 0).
    destruct (Hag i 0%nat) as [H1 _]; [lia |].
    destruct (Hag (S i) 0%nat) as [H2 H3]; [lia |]. done.
  - intros j Hj. exists (fdp_value self sim 0 j).
    destruct (Hag 0%nat j) as [H1 _]; [lia |].
    destruct (Hag 0%nat (S j)) as [H2 H3]; [lia |]. done.
  - intros i j g r Hg Hr.
    destruct (Htot g r) as [c Hc];
      [by eapply list_elem_of_lookup_2 | by eapply list_elem_of_lookup_2 |].
    pose proof (lookup_lt_Some _ _ _ Hg) as Hi.
    pose proof (lookup_lt_Some _ _ _ Hr) as Hj.
    assert (sim i j = c) as Hsim.
    { unfold sim, fsim_of. by rewrite (Hcells i j g r Hg Hr), Hc. }
    destruct (Hag i j) as [Hd _]; [lia |].
    destruct (Hag i (S j)) as [Hu _]; [lia |].
    destruct (Hag (S i) j) as [Hl _]; [lia |].
    destruct (Hag (S i) (S j)) as [Hb Hch]; [lia |].
    eexists c, _, _, _, _, _. split_and!; try done.
    rewrite fdp_value_SS. cbn [fbt_value]. rewrite Hsim.
    apply fbest3_recurrence.
  - intros Hgg Hgr Hfin i j Hi Hj.
    (* the similarities of the matrix agree with a table of finite ones *)
    set (sim' := λ a b, if decide (a < length gen ∧ b < length ref)%nat
                        then sim a b else F64.zero).
    assert (∀ a b, F64.is_finite (sim' a b) = true) as Hsim'.
    { intros a b. unfold sim'. case_decide as Hab; [| done].
      destruct Hab as [Ha Hb].
      destruct (lookup_lt_is_Some_2 gen a Ha) as [g Hg].
      destruct (lookup_lt_is_Some_2 ref b Hb) as [r Hr].
      destruct (Htot g r) as [c Hc];
        [by eapply list_elem_of_lookup_2 | by eapply list_elem_of_lookup_2 |].
      unfold sim, fsim_of. rewrite (Hcells a b g r Hg Hr), Hc. simpl.
      eapply Hfin; [| | exact Hc]; by eapply list_elem_of_lookup_2. }
    assert (∀ a b, (a ≤ length gen)%nat → (b ≤ length ref)%nat →
              fdp_value self sim a b = fdp_value self sim' a b) as Heq.
    { intros a. induction a as [|a IHa]; intros b Ha Hb.
      - induction b as [|b IHb]; [done |].
        change (fdp_value self ?s 0 (S b))
          with (F64.add (fdp_value self s 0 b)
                  (F64.DPMatcher.gap_penalty_ref self)).
        by rewrite IHb by lia.
      - induction b as [|b IHb].
        + change (fdp_value self ?s (S a) 0)
            with (F64.add (fdp_value self s a 0)
                    (F64.DPMatcher.gap_penalty_gen self)).
          by rewrite IHa by lia.
        + rewrite !fdp_value_SS, IHb by lia.
          rewrite !IHa by lia.
          assert (sim' a b = sim a b) as ->; [| done].
          unfold sim'. by rewrite decide_True by lia. }
    destruct (Hag i j) as [Hv _]; [lia |].
    eexists. split; [exact Hv |]. rewrite Heq by done.
    by apply fdp_value_not_nan.
Qed.

End Float64Matrix.

(** The theorem at a pair of one-event sequences with the default text
    similarity and the temporal IoU. *)
Lemma dp_table_recurrence_witness :
  let self := F64.DPMatcher.init F64.zero (F64.of_Z 1)
                (F64.neg (F64.of_decimal 2 10)) (F64.neg (F64.of_decimal 2 10))
                (F64.of_Z 10) false None in
  let gen := [F64.mkEvent F64.zero (F64.of_Z 1) "a b" 0] in
  let ref := [F64.mkEvent F64.zero (F64.of_Z 1) "a b" 0] in
  ∃ sm dp bt,
    F64.DPMatcher._build_similarity_matrix (λ x, Some x) self gen ref
    = Some sm
    ∧ F64.DPMatcher.dp_tables self sm = Some (dp, bt)
    ∧ np.get dp 0 0 = Some F64.zero.
Proof.
  cbn zeta.
  destruct (dp_table_recurrence (λ x, Some x)
    (F64.DPMatcher.init F64.zero (F64.of_Z 1)
       (F64.neg (F64.of_decimal 2 10)) (F64.neg (F64.of_decimal 2 10))
       (F64.of_Z 10) false None)
    [F64.mkEvent F64.zero (F64.of_Z 1) "a b" 0]
    [F64.mkEvent F64.zero (F64.of_Z 1) "a b" 0]) as [_ H].
  - done.
  - done.
  - destruct (H [[F64.of_Z 1]]) as (dp & bt & H1 & H2 & _);
      [by vm_compute |].
    by exists [[F64.of_Z 1]], dp, bt.
Defined.

(** ** Union-find *)

Section UnionFindFacts.
Implicit Types (uf : UnionFind.t) (x y p r : nat).

(** [r] is the representative of [x]: the end of the chain of parents. *)
Inductive root_of (parent : list nat) : nat → nat → Prop :=
  | root_self x : parent !! x = Some x → root_of parent x x
  | root_step x p r :
      parent !! x = Some p → p ≠ x → root_of parent p r →
      root_of parent x r.

Definition same (uf : UnionFind.t) (x y : nat) : Prop :=
  ∃ r, root_of (UnionFind.parent uf) x r ∧ root_of (UnionFind.parent uf) y r.

(** The number of roots among the entries of a parent table that starts
    at position [k]. *)
Fixpoint roots_from (k : nat) (parent : list nat) : nat :=
  match parent with
  | [] => 0
  | p :: rest => (if decide (p = k) then 1 else 0) + roots_from (S k) rest
  end.

(** The invariant of the structure: parents are in range, ranks grow
    strictly along parent links, and the ranks together are bounded by
    the number of elements that are not roots. *)
Record uf_inv (uf : UnionFind.t) : Prop := {
  inv_len : length (UnionFind.rank uf) = length (UnionFind.parent uf);
  inv_range : ∀ x p, UnionFind.parent uf !! x = Some p →
                p < length (UnionFind.parent uf);
  inv_rank : ∀ x p, UnionFind.parent uf !! x = Some p → p ≠ x →
               ∃ rx rp, UnionFind.rank uf !! x = Some rx
                        ∧ UnionFind.rank uf !! p = Some rp ∧ rx < rp;
  inv_potential :
    sum_list (UnionFind.rank uf) + roots_from 0 (UnionFind.parent uf)
    ≤ length (UnionFind.parent uf)
}.

Lemma root_of_unique parent x r1 r2 :
  root_of parent x r1 → root_of parent x r2 → r1 = r2.
Proof.
  induction 1 as [x Hx | x p r Hp Hne _ IH]; inversion 1; subst;
    try congruence.
  apply IH. congruence.
Qed.

Lemma root_of_is_root parent x r : root_of parent x r → parent !! r = Some r.
Proof. by induction 1. Qed.

Lemma root_of_root parent x r : root_of parent x r → root_of parent r r.
Proof. intros H. constructor. by eapply root_of_is_root. Qed.

Lemma root_of_lt parent x r : root_of parent x r → x < length parent.
Proof. inversion 1; by eapply lookup_lt_Some. Qed.

Lemma same_sym uf x y : same uf x y → same uf y x.
Proof. intros (r & H1 & H2). by exists r. Qed.

Lemma same_trans uf x y z : same uf x y → same uf y z → same uf x z.
Proof.
  intros (r & H1 & H2) (r' & H3 & H4).
  assert (r = r') as -> by (by eapply root_of_unique). by exists r'.
Qed.

(** Ranks grow from an element to its representative. *)
Lemma root_of_rank uf x r :
  uf_inv uf → root_of (UnionFind.parent uf) x r → x ≠ r →
  ∃ rx rr, UnionFind.rank uf !! x = Some rx
           ∧ UnionFind.rank uf !! r = Some rr ∧ rx < rr.
Proof.
  intros Hinv. induction 1 as [x Hx | x p r Hp Hne Hr IH]; [done |].
  intros Hxr. destruct (inv_rank uf Hinv x p Hp Hne) as (rx & rp & H1 & H2 & H3).
  destruct (decide (p = r)) as [-> | Hpr]; [by exists rx, rp |].
  destruct (IH Hpr) as (rp' & rr & H4 & H5 & H6).
  exists rx, rr. split; [done |]. split; [done |].
  assert (rp' = rp) by congruence. lia.
Qed.

(** Redirecting a non-root to its representative keeps every
    representative (path compression). *)
Lemma root_of_compress parent x r y s :
  root_of parent x r → x ≠ r →
  root_of parent y s ↔ root_of (<[x:=r]> parent) y s.
Proof.
  intros Hx Hxr.
  assert (parent !! x ≠ Some x) as Hnot.
  { intros H. apply Hxr. eapply root_of_unique; [| exact Hx].
    by constructor. }
  pose proof (root_of_lt _ _ _ Hx) as Hlt.
  pose proof (root_of_is_root _ _ _ Hx) as Hrr.
  split.
  - induction 1 as [y Hy | y p s Hp Hne Hs IH].
    + constructor. rewrite list_lookup_insert_ne; [done | congruence].
    + destruct (decide (y = x)) as [-> | Hyx].
      * assert (s = r) as ->.
        { eapply root_of_unique; [| exact Hx]. by econstructor. }
        eapply root_step; [by apply list_lookup_insert_eq | by auto |].
        constructor. by rewrite list_lookup_insert_ne.
      * eapply root_step; [| done | done].
        by rewrite list_lookup_insert_ne.
  - induction 1 as [y Hy | y p s Hp Hne Hs IH].
    + destruct (decide (y = x)) as [-> | Hyx].
      * rewrite list_lookup_insert_eq in Hy by done. congruence.
      * rewrite list_lookup_insert_ne in Hy by done. by constructor.
    + destruct (decide (y = x)) as [-> | Hyx].
      * rewrite list_lookup_insert_eq in Hp by done.
        assert (p = r) as -> by congruence.
        assert (s = r) as ->.
        { eapply root_of_unique; [exact IH | by constructor]. }
        done.
      * rewrite list_lookup_insert_ne in Hp by done. by econstructor.
Qed.

(** Hanging the root [py] below another root [px] moves the elements of
    [py] to [px] and keeps the other representatives (linking). *)
Lemma root_of_link parent px py y s :
  parent !! px = Some px → parent !! py = Some py → px ≠ py →
  root_of parent y s →
  root_of (<[py:=px]> parent) y (if decide (s = py) then px else s).
Proof.
  intros Hpx Hpy Hne.
  pose proof (lookup_lt_Some _ _ _ Hpy) as Hlt.
  induction 1 as [y Hy | y p s Hp Hnp Hs IH].
  - case_decide as E.
    + subst y. eapply root_step; [by apply list_lookup_insert_eq | done |].
      constructor. by rewrite list_lookup_insert_ne.
    + constructor. by rewrite list_lookup_insert_ne.
  - eapply root_step; [| done | done].
    rewrite list_lookup_insert_ne; [done |]. congruence.
Qed.

Lemma sum_list_insert (l : list nat) i v old :
  l !! i = Some old → sum_list (<[i:=v]> l) + old = sum_list l + v.
Proof.
  revert i. induction l as [|a l IH]; intros [|i] H; simplify_eq/=.
  - lia.
  - specialize (IH i H). lia.
Qed.

Lemma sum_list_lookup_le (l : list nat) i v :
  l !! i = Some v → v ≤ sum_list l.
Proof.
  revert i. induction l as [|a l IH]; intros [|i] H; simplify_eq/=.
  - lia.
  - specialize (IH i H). lia.
Qed.

Lemma roots_from_insert k (l : list nat) i v old :
  l !! i = Some old →
  roots_from k (<[i:=v]> l) + (if decide (old = k + i) then 1 else 0)
  = roots_from k l + (if decide (v = k + i) then 1 else 0).
Proof.
  revert k i. induction l as [|a l IH]; intros k [|i] H; simplify_eq/=.
  - rewrite Nat.add_0_r. lia.
  - specialize (IH (S k) i H).
    replace (S k + i) with (k + S i) in IH by lia. lia.
Qed.

Lemma roots_from_seq k n : roots_from k (seq k n) = n.
Proof.
  revert k. induction n as [|n IH]; intros k; simpl; [done |].
  rewrite decide_True by done. by rewrite IH.
Qed.

Lemma sum_list_replicate_0 n : sum_list (replicate n 0) = 0.
Proof. induction n; simpl; lia. Qed.

Lemma uf_inv_init n : uf_inv (UnionFind.init n).
Proof.
  split; simpl.
  - by rewrite length_replicate, length_seq.
  - intros x p H. apply lookup_seq in H. rewrite length_seq. lia.
  - intros x p H Hne. apply lookup_seq in H. lia.
  - rewrite sum_list_replicate_0, roots_from_seq, length_seq. lia.
Qed.

End UnionFindFacts.

Section UnionFindOps.
Implicit Types (uf : UnionFind.t) (x y p r : nat).

Lemma rank_bound uf x rx :
  uf_inv uf → UnionFind.rank uf !! x = Some rx →
  rx ≤ length (UnionFind.parent uf).
Proof.
  intros Hinv Hx. pose proof (sum_list_lookup_le _ _ _ Hx).
  pose proof (inv_potential uf Hinv). lia.
Qed.

(** [find] with enough depth returns the representative, keeps the
    invariant and every representative, and leaves the ranks alone. *)
Lemma find_rec_spec d uf x rx :
  uf_inv uf → UnionFind.rank uf !! x = Some rx →
  length (UnionFind.parent uf) < rx + d →
  ∃ uf' r, UnionFind.find_rec d uf x = Some (uf', r)
    ∧ uf_inv uf'
    ∧ UnionFind.rank uf' = UnionFind.rank uf
    ∧ length (UnionFind.parent uf') = length (UnionFind.parent uf)
    ∧ root_of (UnionFind.parent uf) x r
    ∧ ∀ y s, root_of (UnionFind.parent uf) y s
             ↔ root_of (UnionFind.parent uf') y s.
Proof.
  revert uf x rx. induction d as [|d IH]; intros uf x rx Hinv Hrx Hd.
  { pose proof (rank_bound uf x rx Hinv Hrx). lia. }
  assert (x < length (UnionFind.parent uf)) as Hx.
  { rewrite <- (inv_len uf Hinv). by eapply lookup_lt_Some. }
  destruct (lookup_lt_is_Some_2 _ _ Hx) as [px Hpx].
  cbn [UnionFind.find_rec]. rewrite Hpx. cbn [mbind option_bind].
  destruct (decide (px ≠ x)) as [Hne | Heq].
  - destruct (inv_rank uf Hinv x px Hpx Hne) as (rx' & rp & H1 & H2 & H3).
    assert (rx' = rx) as -> by congruence.
    destruct (IH uf px rp Hinv H2) as (uf1 & r & -> & Hinv1 & Hrk & Hlen & Hr & Heqv);
      [lia |].
    cbn [mbind option_bind].
    assert (root_of (UnionFind.parent uf) x r) as Hxr by (by econstructor).
    assert (x ≠ r) as Hxnr.
    { intros ->. apply root_of_is_root in Hr. congruence. }
    assert (root_of (UnionFind.parent uf1) x r) as Hxr1 by (by apply Heqv).
    rewrite setitem_Some by lia. cbn [mbind option_bind UnionFind.parent].
    rewrite list_lookup_insert_eq by lia. cbn [mbind option_bind].
    eexists _, r. split; [done |].
    assert (r < length (UnionFind.parent uf1)) as Hrlt.
    { eapply root_of_lt, root_of_root. exact Hxr1. }
    split_and!; try done.
    + split; cbn [UnionFind.parent UnionFind.rank].
      * rewrite length_insert. apply (inv_len uf1 Hinv1).
      * intros y p Hy. rewrite length_insert.
        destruct (decide (y = x)) as [-> | Hyx].
        -- rewrite list_lookup_insert_eq in Hy by lia. congruence.
        -- rewrite list_lookup_insert_ne in Hy by done.
           by eapply (inv_range uf1 Hinv1).
      * intros y p Hy Hyp.
        destruct (decide (y = x)) as [-> | Hyx].
        -- rewrite list_lookup_insert_eq in Hy by lia.
           assert (p = r) as -> by congruence.
           by apply root_of_rank.
        -- rewrite list_lookup_insert_ne in Hy by done.
           by eapply (inv_rank uf1 Hinv1).
      * rewrite length_insert.
        destruct (lookup_lt_is_Some_2 (UnionFind.parent uf1) x) as [old Hold];
          [lia |].
        pose proof (roots_from_insert 0 _ x r old Hold) as Hroots.
        simpl in Hroots.
        assert (old ≠ x).
        { intros ->. apply Hxnr. eapply root_of_unique; [| exact Hxr1].
          by constructor. }
        rewrite !decide_False in Hroots by congruence.
        pose proof (inv_potential uf1 Hinv1). lia.
    + cbn [UnionFind.parent]. rewrite length_insert. done.
    + intros y s. rewrite (Heqv y s). cbn [UnionFind.parent].
      by apply root_of_compress.
  - assert (px = x) as -> by (destruct (decide (px = x)); [done | tauto]).
    cbn [mbind option_bind].
    eexists _, x. split; [done |]. split_and!; try done.
    by constructor.
Qed.

Lemma find_spec uf x :
  uf_inv uf → x < length (UnionFind.parent uf) →
  ∃ uf' r, UnionFind.find uf x = Some (uf', r)
    ∧ uf_inv uf'
    ∧ UnionFind.rank uf' = UnionFind.rank uf
    ∧ length (UnionFind.parent uf') = length (UnionFind.parent uf)
    ∧ root_of (UnionFind.parent uf) x r
    ∧ ∀ y s, root_of (UnionFind.parent uf) y s
             ↔ root_of (UnionFind.parent uf') y s.
Proof.
  intros Hinv Hx. unfold UnionFind.find.
  destruct (lookup_lt_is_Some_2 (UnionFind.rank uf) x) as [rx Hrx].
  { by rewrite (inv_len uf Hinv). }
  apply (find_rec_spec _ uf x rx); [done | done | lia].
Qed.

(** Totality: [find] never runs out of depth. *)
Lemma find_total uf x :
  uf_inv uf → x < length (UnionFind.parent uf) →
  is_Some (UnionFind.find uf x).
Proof.
  intros Hinv Hx. destruct (find_spec uf x Hinv Hx) as (uf' & r & -> & _).
  by eexists.
Qed.

(** Every element has a representative. *)
Lemma root_exists uf x :
  uf_inv uf → x < length (UnionFind.parent uf) →
  ∃ r, root_of (UnionFind.parent uf) x r.
Proof.
  intros Hinv Hx.
  destruct (find_spec uf x Hinv Hx) as (_ & r & _ & _ & _ & _ & H & _).
  by exists r.
Qed.

(** Linking the root [b] below the root [a] of no smaller rank. *)
Lemma link_inv uf a b ra rb :
  uf_inv uf →
  UnionFind.parent uf !! a = Some a → UnionFind.parent uf !! b = Some b →
  a ≠ b →
  UnionFind.rank uf !! a = Some ra → UnionFind.rank uf !! b = Some rb →
  rb ≤ ra →
  uf_inv (UnionFind.mk (<[b:=a]> (UnionFind.parent uf))
            (if decide (ra = rb)
             then <[a:=ra + 1]> (UnionFind.rank uf)
             else UnionFind.rank uf)).
Proof.
  intros Hinv Ha Hb Hab Hra Hrb Hle.
  pose proof (lookup_lt_Some _ _ _ Ha) as Halt.
  pose proof (lookup_lt_Some _ _ _ Hb) as Hblt.
  pose proof (lookup_lt_Some _ _ _ Hra) as Hralt.
  split; cbn [UnionFind.parent UnionFind.rank].
  - rewrite length_insert. case_decide; rewrite ?length_insert;
      apply (inv_len uf Hinv).
  - intros y p Hy. rewrite length_insert.
    destruct (decide (y = b)) as [-> | Hyb].
    + rewrite list_lookup_insert_eq in Hy by done. congruence.
    + rewrite list_lookup_insert_ne in Hy by done.
      by eapply (inv_range uf Hinv).
  - intros y p Hy Hyp.
    assert (∀ z rz, UnionFind.rank uf !! z = Some rz →
      ∃ rz', (if decide (ra = rb) then <[a:=ra + 1]> (UnionFind.rank uf)
              else UnionFind.rank uf) !! z = Some rz'
             ∧ rz ≤ rz' ∧ (z ≠ a → rz' = rz)
             ∧ (z = a → ra = rb → rz' = ra + 1)) as Hrank.
    { intros z rz Hz. case_decide as E.
      - destruct (decide (z = a)) as [-> | Hza].
        + rewrite list_lookup_insert_eq by done. eexists. split; [done |].
          assert (rz = ra) by congruence. split_and!; [lia | done | done].
        + rewrite list_lookup_insert_ne by done. exists rz.
          split_and!; [done | lia | done | done].
      - exists rz. split_and!; [done | lia | done | done]. }
    destruct (decide (y = b)) as [-> | Hyb].
    + rewrite list_lookup_insert_eq in Hy by done.
      assert (p = a) as -> by congruence.
      destruct (Hrank b rb Hrb) as (rb' & Hb1 & _ & Hb2 & _).
      destruct (Hrank a ra Hra) as (ra' & Ha1 & Ha2 & _ & Ha3).
      exists rb', ra'. split; [done |]. split; [done |].
      rewrite (Hb2 ltac:(congruence)).
      destruct (decide (ra = rb)) as [E | E]; [rewrite (Ha3 eq_refl E) |]; lia.
    + rewrite list_lookup_insert_ne in Hy by done.
      destruct (inv_rank uf Hinv y p Hy Hyp) as (ry & rp & H1 & H2 & H3).
      assert (y ≠ a) by congruence.
      destruct (Hrank y ry H1) as (ry' & Hy1 & _ & Hy2 & _).
      destruct (Hrank p rp H2) as (rp' & Hp1 & Hp2 & _).
      exists ry', rp'. split; [done |]. split; [done |].
      rewrite (Hy2 ltac:(done)). lia.
  - rewrite length_insert.
    pose proof (roots_from_insert 0 _ b a b Hb) as Hroots. simpl in Hroots.
    rewrite decide_True in Hroots by done.
    rewrite decide_False in Hroots by done.
    pose proof (inv_potential uf Hinv) as Hpot.
    case_decide.
    + pose proof (sum_list_insert _ a (ra + 1) ra Hra). lia.
    + lia.
Qed.

(** [union] returns, keeps the invariant, keeps together what was
    together, puts [x] and [y] together, and brings together nothing
    else than the elements of [x] with those of [y]. *)
Lemma union_spec uf x y :
  uf_inv uf →
  x < length (UnionFind.parent uf) → y < length (UnionFind.parent uf) →
  ∃ uf', UnionFind.union uf x y = Some uf'
    ∧ uf_inv uf'
    ∧ length (UnionFind.parent uf') = length (UnionFind.parent uf)
    ∧ (∀ a b, same uf a b → same uf' a b)
    ∧ same uf' x y
    ∧ (∀ a b, same uf' a b →
         same uf a b ∨ (same uf a x ∧ same uf b y)
         ∨ (same uf a y ∧ same uf b x)).
Proof.
  intros Hinv Hx Hy. unfold UnionFind.union.
  destruct (find_spec uf x Hinv Hx)
    as (uf1 & px & -> & Hinv1 & Hrk1 & Hlen1 & Hpx & Heq1).
  cbn [mbind option_bind].
  destruct (find_spec uf1 y Hinv1 ltac:(lia))
    as (uf2 & py & -> & Hinv2 & Hrk2 & Hlen2 & Hpy & Heq2).
  cbn [mbind option_bind].
  assert (root_of (UnionFind.parent uf2) x px) as Hx2
    by (by apply Heq2, Heq1).
  assert (root_of (UnionFind.parent uf2) y py) as Hy2 by (by apply Heq2).
  assert (∀ a b, same uf a b ↔ same uf2 a b) as Hsame2.
  { intros a b. split; intros (r & Ha & Hb); exists r.
    - split; by apply Heq2, Heq1.
    - split; by apply Heq1, Heq2. }
  destruct (decide (px = py)) as [-> | Hne].
  { exists uf2. split; [done |]. split; [done |]. split; [lia |].
    split; [intros a b; by apply Hsame2 |].
    split; [by exists py |]. intros a b Hab. left. by apply Hsame2. }
  pose proof (root_of_is_root _ _ _ Hx2) as Hpxr.
  pose proof (root_of_is_root _ _ _ Hy2) as Hpyr.
  pose proof (lookup_lt_Some _ _ _ Hpxr) as Hpxlt.
  pose proof (lookup_lt_Some _ _ _ Hpyr) as Hpylt.
  destruct (lookup_lt_is_Some_2 (UnionFind.rank uf2) px) as [rpx Hrpx].
  { by rewrite (inv_len uf2 Hinv2). }
  destruct (lookup_lt_is_Some_2 (UnionFind.rank uf2) py) as [rpy Hrpy].
  { by rewrite (inv_len uf2 Hinv2). }
  rewrite Hrpx, Hrpy. cbn [mbind option_bind].
  assert (∀ a b ra rb,
    UnionFind.parent uf2 !! a = Some a → UnionFind.parent uf2 !! b = Some b →
    a ≠ b → UnionFind.rank uf2 !! a = Some ra →
    UnionFind.rank uf2 !! b = Some rb → rb ≤ ra →
    (root_of (UnionFind.parent uf2) x a ∧ root_of (UnionFind.parent uf2) y b
     ∨ root_of (UnionFind.parent uf2) x b
       ∧ root_of (UnionFind.parent uf2) y a) →
    ∃ uf',
      (parent' ← Py.setitem (UnionFind.parent uf2) b a;
       let self3 := UnionFind.mk parent' (UnionFind.rank uf2) in
       rpx ← UnionFind.rank self3 !! a;
       rpy ← UnionFind.rank self3 !! b;
       if decide (rpx = rpy) then
         rank' ← Py.setitem (UnionFind.rank self3) a (rpx + 1);
         Some (UnionFind.mk (UnionFind.parent self3) rank')
       else Some self3) = Some uf'
      ∧ uf_inv uf'
      ∧ length (UnionFind.parent uf') = length (UnionFind.parent uf)
      ∧ (∀ a b, same uf a b → same uf' a b)
      ∧ same uf' x y
      ∧ (∀ a b, same uf' a b →
           same uf a b ∨ (same uf a x ∧ same uf b y)
           ∨ (same uf a y ∧ same uf b x))) as Hlink.
  { intros a b ra rb Ha Hb Hab Hra Hrb Hle Hxy.
    pose proof (lookup_lt_Some _ _ _ Hb) as Hblt.
    pose proof (lookup_lt_Some _ _ _ Hra) as Hralt.
    rewrite setitem_Some by done.
    cbn [mbind option_bind UnionFind.rank UnionFind.parent].
    rewrite Hra, Hrb. cbn [mbind option_bind].
    pose proof (link_inv uf2 a b ra rb Hinv2 Ha Hb Hab Hra Hrb Hle) as Hinv3.
    assert (∀ z s, root_of (UnionFind.parent uf2) z s →
              root_of (<[b:=a]> (UnionFind.parent uf2)) z
                (if decide (s = b) then a else s)) as Hroots
      by (intros z s; by apply root_of_link).
    assert (∀ uf', UnionFind.parent uf' = <[b:=a]> (UnionFind.parent uf2) →
      (∀ c d, same uf c d → same uf' c d) ∧ same uf' x y
      ∧ (∀ c d, same uf' c d →
           same uf c d ∨ (same uf c x ∧ same uf d y)
           ∨ (same uf c y ∧ same uf d x))) as Hsame.
    { intros uf' Hp.
      assert (∀ c d, same uf' c d
                ↔ ∃ r, root_of (<[b:=a]> (UnionFind.parent uf2)) c r
                       ∧ root_of (<[b:=a]> (UnionFind.parent uf2)) d r)
        as Hsame' by (intros c d; unfold same; by rewrite Hp).
      split_and!.
      - intros c d Hcd. destruct (proj1 (Hsame2 c d) Hcd) as (r & Hc & Hd).
        apply Hsame'. eexists. split; by apply Hroots.
      - apply Hsame'. destruct Hxy as [[H1 H2] | [H1 H2]].
        + exists a. apply Hroots in H1, H2.
          rewrite decide_False in H1 by done.
          rewrite decide_True in H2 by done. done.
        + exists a. apply Hroots in H1, H2.
          rewrite decide_True in H1 by done.
          rewrite decide_False in H2 by done. done.
      - intros c d Hcd. apply Hsame' in Hcd as (r & Hc & Hd).
        assert (∀ z, root_of (<[b:=a]> (UnionFind.parent uf2)) z r →
          ∃ s, root_of (UnionFind.parent uf2) z s
               ∧ r = (if decide (s = b) then a else s)) as Hback.
        { intros z Hz. destruct (root_exists uf2 z Hinv2) as [s Hs].
          { apply root_of_lt in Hz. by rewrite length_insert in Hz. }
          exists s. split; [done |].
          eapply root_of_unique; [exact Hz | by apply Hroots]. }
        destruct (Hback c Hc) as (sc & Hsc & Ec).
        destruct (Hback d Hd) as (sd & Hsd & Ed).
        assert (∀ u v w, root_of (UnionFind.parent uf2) u w →
                  root_of (UnionFind.parent uf2) v w → same uf u v) as Hmk.
        { intros u v w Hu Hv. apply Hsame2. by exists w. }
        destruct (decide (sc = sd)) as [-> | Hcd]; [left; by eapply Hmk |].
        right. destruct (decide (sc = b)) as [-> | Hcb],
          (decide (sd = b)) as [-> | Hdb]; simplify_eq.
        + destruct Hxy as [[H1 H2] | [H1 H2]].
          * right. split; by eapply Hmk.
          * left. split; by eapply Hmk.
        + destruct Hxy as [[H1 H2] | [H1 H2]].
          * left. split; by eapply Hmk.
          * right. split; by eapply Hmk. }
    destruct (decide (ra = rb)) as [E | E].
    - rewrite setitem_Some by done. cbn [mbind option_bind].
      eexists. split; [done |]. split; [exact Hinv3 |].
      cbn [UnionFind.parent]. rewrite length_insert.
      split; [lia |]. by apply Hsame.
    - eexists. split; [done |]. split; [exact Hinv3 |].
      cbn [UnionFind.parent]. rewrite length_insert.
      split; [lia |]. by apply Hsame. }
  destruct (rpx <? rpy) eqn:E.
  - apply Nat.ltb_lt in E.
    apply (Hlink py px rpy rpx); try done; [lia | by right].
  - apply Nat.ltb_ge in E.
    apply (Hlink px py rpx rpy); try done. by left.
Qed.

End UnionFindOps.

(** ** Cluster matcher: components *)

Section ClusterComponents.
Local Open Scope Q_scope.
Variable self : ClusterMatcher.t.
Local Abbreviation mo := (ClusterMatcher.min_overlap_sec self).

Lemma overlap_duration_sym a b : overlap_duration a b == overlap_duration b a.
Proof.
  rewrite !overlap_duration_Qminmax.
  by rewrite (Q.min_comm (end_ a)), (Q.max_comm (start a)).
Qed.

Lemma overlaps_with_sym a b m : overlaps_with a b m = overlaps_with b a m.
Proof.
  apply Bool.eq_true_iff_eq. rewrite !overlaps_with_iff.
  by rewrite overlap_duration_sym.
Qed.

(** Two positions hold events that overlap by at least
    [min_overlap_sec], and the chains of such positions. *)
Definition linked (events : list (ADEvent * ClusterMatcher.Source))
    (i j : nat) : Prop :=
  ∃ ei ej, events !! i = Some ei ∧ events !! j = Some ej
           ∧ overlaps_with ei.1 ej.1 mo = true.

Definition connected (events : list (ADEvent * ClusterMatcher.Source))
  : nat → nat → Prop := rtc (linked events).

Lemma linked_sym events i j : linked events i j → linked events j i.
Proof.
  intros (ei & ej & Hi & Hj & Hov). exists ej, ei.
  by rewrite overlaps_with_sym.
Qed.

Lemma connected_sym events i j : connected events i j → connected events j i.
Proof.
  induction 1 as [|i k j Hik _ IH]; [done |].
  eapply rtc_r; [exact IH | by apply linked_sym].
Qed.

Lemma same_init n i j : same (UnionFind.init n) i j → i = j.
Proof.
  assert (∀ x r, root_of (seq 0 n) x r → r = x) as Hroot.
  { intros x r H. inversion H as [? Hx | ? p ? Hp Hne _]; subst; [done |].
    apply lookup_seq in Hp. lia. }
  intros (r & Hi & Hj). simpl in Hi, Hj.
  apply Hroot in Hi, Hj. congruence.
Qed.

(** After the linking loops two positions share their representative
    exactly when a chain of overlaps connects them: overlapping events
    are together, and nothing else is brought together. *)
Lemma build_clusters_spec (events : list ClusterMatcher.entry) :
  ∃ uf, ClusterMatcher.build_clusters self events = Some uf
    ∧ uf_inv uf
    ∧ length (UnionFind.parent uf) = length events
    ∧ (∀ i j ei ej, (i < j)%nat →
         events !! i = Some ei → events !! j = Some ej →
         overlaps_with ei.1 ej.1 mo = true → same uf i j)
    ∧ (∀ i j, same uf i j → connected events i j).
Proof.
  unfold ClusterMatcher.build_clusters. cbn zeta.
  set (n := length events).
  edestruct (for_invariant
    (λ a uf, uf_inv uf ∧ length (UnionFind.parent uf) = n
       ∧ (∀ i j ei ej, (i < a)%nat → (i < j)%nat →
            events !! i = Some ei → events !! j = Some ej →
            overlaps_with ei.1 ej.1 mo = true → same uf i j)
       ∧ (∀ i j, same uf i j → connected events i j))
    (Py.range 0 n) (UnionFind.init n))
    as (uf & -> & Hinv & Hlen & Hsame & Hsound).
  { split; [apply uf_inv_init |]. split; [apply length_seq |].
    split; [intros; lia |].
    intros i j Hij. apply same_init in Hij as ->. apply rtc_refl. }
  { intros a i uf Ha (Hinv & Hlen & Hsame & Hsound).
    apply lookup_range in Ha as [-> Ha]. simpl in *.
    edestruct (for_invariant
      (λ b uf, uf_inv uf ∧ length (UnionFind.parent uf) = n
         ∧ (∀ i j ei ej, (i < a ∨ (i = a ∧ j < a + 1 + b))%nat →
              (i < j)%nat →
              events !! i = Some ei → events !! j = Some ej →
              overlaps_with ei.1 ej.1 mo = true → same uf i j)
         ∧ (∀ i j, same uf i j → connected events i j))
      (Py.range (a + 1) n) uf)
      as (uf' & -> & Hinv' & Hlen' & Hsame' & Hsound').
    { split; [done |]. split; [done |]. split; [| done].
      intros i j ei ej Hij Hlt. apply Hsame; lia. }
    { intros b j uf1 Hb (Hinv1 & Hlen1 & Hsame1 & Hsound1).
      apply lookup_range in Hb as [-> Hb].
      destruct (lookup_lt_is_Some_2 events a) as [e1 He1]; [fold n; lia |].
      destruct (lookup_lt_is_Some_2 events (a + 1 + b)) as [e2 He2];
        [fold n; lia |].
      rewrite He1, He2. cbn [mbind option_bind].
      destruct (overlaps_with e1.1 e2.1 mo) eqn:E.
      - destruct (union_spec uf1 a (a + 1 + b) Hinv1)
          as (uf2 & -> & Hinv2 & Hlen2 & Hkeep & Hnew & Honly);
          [lia | lia |].
        assert (linked events a (a + 1 + b)) as Hl by (by exists e1, e2).
        eexists. split; [done |]. split; [done |]. split; [lia |]. split.
        + intros i j ei ej Hij Hlt Hi Hj Hov.
          destruct (decide (i = a ∧ j = a + 1 + b)%nat) as [[-> ->] | Hne];
            [done |].
          apply Hkeep. eapply Hsame1; [| done | done | done | done]. lia.
        + intros i j Hij.
          destruct (Honly i j Hij) as [H | [[H1 H2] | [H1 H2]]].
          * by apply Hsound1.
          * apply Hsound1 in H1, H2. apply connected_sym in H2.
            unfold connected in *. etrans; [exact H1 |].
            eapply rtc_l; [exact Hl | exact H2].
          * apply Hsound1 in H1, H2. apply connected_sym in H2.
            unfold connected in *. etrans; [exact H1 |].
            eapply rtc_l; [apply linked_sym; exact Hl | exact H2].
      - eexists. split; [done |]. split; [done |]. split; [done |].
        split; [| done].
        intros i j ei ej Hij Hlt Hi Hj Hov.
        destruct (decide (i = a ∧ j = a + 1 + b)%nat) as [[-> ->] | Hne].
        + congruence.
        + eapply Hsame1; [| done | done | done | done]. lia. }
    eexists. split; [done |]. split; [done |]. split; [done |].
    split; [| done].
    intros i j ei ej Hi Hlt Hei Hej Hov.
    eapply Hsame'; [| done | done | done | done].
    rewrite length_range. apply lookup_lt_Some in Hej. fold n in Hej. lia. }
  exists uf. split; [done |]. split; [done |]. split; [done |].
  split; [| done].
  intros i j ei ej Hlt Hei Hej Hov.
  eapply Hsame; [| done | done | done | done].
  rewrite length_range. apply lookup_lt_Some in Hej. fold n in Hej. lia.
Qed.

(** The dict built from a list of (key, event) pairs. *)
Definition group_list (pairs : list (nat * ClusterMatcher.entry))
  : list (nat * list ClusterMatcher.entry) :=
  foldl (λ cl p, ClusterMatcher.dict_append p.1 p.2 cl) [] pairs.

Lemma group_list_snoc pairs p :
  group_list (pairs ++ [p])
  = ClusterMatcher.dict_append p.1 p.2 (group_list pairs).
Proof. unfold group_list. by rewrite foldl_app. Qed.

(** The grouping loop builds the dict of the events keyed by their
    representatives. *)
Lemma group_events_spec uf (events : list ClusterMatcher.entry) :
  uf_inv uf → length (UnionFind.parent uf) = length events →
  ∃ uf' roots,
    ClusterMatcher.group_events uf events
      = Some (uf', group_list (zip roots events))
    ∧ length roots = length events
    ∧ ∀ i r, roots !! i = Some r → root_of (UnionFind.parent uf) i r.
Proof.
  intros Hinv Hlen. unfold ClusterMatcher.group_events.
  edestruct (for_invariant
    (λ k (st : UnionFind.t * list (nat * list ClusterMatcher.entry)),
       uf_inv st.1
       ∧ length (UnionFind.parent st.1) = length events
       ∧ (∀ y s, root_of (UnionFind.parent uf) y s
                 ↔ root_of (UnionFind.parent st.1) y s)
       ∧ ∃ roots, length roots = k
           ∧ (∀ i r, roots !! i = Some r → root_of (UnionFind.parent uf) i r)
           ∧ st.2 = group_list (zip roots (take k events)))
    (Py.range 0 (length events)) (uf, []))
    as ([uf' cl] & -> & _ & _ & _ & roots & Hroots & Hr & Hcl).
  { split; [done |]. split; [done |]. split; [done |].
    exists []. split; [done |]. split; [| done]. intros i r H.
    by rewrite lookup_nil in H. }
  { intros k i [uf1 cl] Hk (Hinv1 & Hlen1 & Heq1 & roots & Hroots & Hr & Hcl).
    apply lookup_range in Hk as [-> Hk]. simpl in *.
    destruct (find_spec uf1 k Hinv1)
      as (uf2 & r & -> & Hinv2 & _ & Hlen2 & Hroot & Heq2); [lia |].
    cbn [mbind option_bind].
    destruct (lookup_lt_is_Some_2 events k) as [e He]; [lia |].
    rewrite He. cbn [mbind option_bind]. eexists. split; [done |].
    simpl. split; [done |]. split; [lia |]. split.
    { intros y s. rewrite Heq1. apply Heq2. }
    exists (roots ++ [r]). split; [rewrite length_app; simpl; lia |]. split.
    - intros i r' Hi. destruct (decide (i = k)) as [-> | Hik].
      + rewrite lookup_app_r in Hi by lia.
        replace (k - length roots)%nat with 0%nat in Hi by lia.
        simpl in Hi. assert (r' = r) as -> by congruence. by apply Heq1.
      + apply Hr. apply lookup_lt_Some in Hi as Hi'.
        rewrite length_app in Hi'. simpl in Hi'.
        rewrite lookup_app_l in Hi by lia. done.
    - rewrite (take_S_r _ _ _ He). rewrite zip_with_app.
      + simpl. by rewrite group_list_snoc, Hcl.
      + rewrite length_take. lia. }
  rewrite length_range, Nat.sub_0_r in Hroots, Hcl.
  rewrite firstn_all in Hcl. simpl in Hcl. subst cl.
  by exists uf', roots.
Qed.

End ClusterComponents.

(** ** Cluster matcher: the dict of clusters *)

Section GroupFacts.
Implicit Types (cl : list (nat * list (ADEvent * ClusterMatcher.Source))).
Implicit Types (e : ADEvent * ClusterMatcher.Source).

Lemma dict_append_Permutation r e cl :
  concat (map snd (ClusterMatcher.dict_append r e cl))
  ≡ₚ e :: concat (map snd cl).
Proof.
  induction cl as [|[k v] cl IH]; simpl; [done |].
  case_decide; simpl.
  - rewrite <- app_assoc. simpl.
    by rewrite <- Permutation_middle.
  - rewrite IH. by rewrite <- Permutation_middle.
Qed.

Lemma dict_append_keys r e cl :
  map fst (ClusterMatcher.dict_append r e cl)
  = map fst cl ++ (if decide (r ∈ map fst cl) then [] else [r]).
Proof.
  induction cl as [|[k v] cl IH]; simpl; [done |].
  destruct (decide (k = r)) as [-> | E]; simpl.
  - rewrite decide_True by set_solver. by rewrite app_nil_r.
  - rewrite IH. f_equal.
    destruct (decide (r ∈ map fst cl)) as [Hin | Hnin].
    + by rewrite decide_True by set_solver.
    + rewrite decide_False; [done |]. set_solver.
Qed.

Lemma dict_append_NoDup r e cl :
  NoDup (map fst cl) → NoDup (map fst (ClusterMatcher.dict_append r e cl)).
Proof.
  intros H. rewrite dict_append_keys. case_decide.
  - by rewrite app_nil_r.
  - apply NoDup_app. split; [done |]. split; [| apply NoDup_singleton].
    intros x Hx Hx'. apply list_elem_of_singleton in Hx'. by subst.
Qed.




Lemma group_list_NoDup pairs : NoDup (map fst (group_list pairs)).
Proof.
  induction pairs as [|p pairs IH] using rev_ind; [constructor |].
  rewrite group_list_snoc. by apply dict_append_NoDup.
Qed.

Lemma group_list_Permutation pairs :
  concat (map snd (group_list pairs)) ≡ₚ map snd pairs.
Proof.
  induction pairs as [|p pairs IH] using rev_ind; [done |].
  rewrite group_list_snoc, dict_append_Permutation, IH, map_app. simpl.
  by rewrite <- Permutation_cons_append.
Qed.


(** The entries of the dict after one more event, for a dict without
    repeated keys. *)
Lemma dict_append_elem r e cl k v :
  NoDup (map fst cl) →
  (k, v) ∈ ClusterMatcher.dict_append r e cl
  ↔ (k ≠ r ∧ (k, v) ∈ cl)
    ∨ (k = r ∧ ((∃ v0, (r, v0) ∈ cl ∧ v = v0 ++ [e])
                ∨ ((r ∉ map fst cl) ∧ v = [e]))).
Proof.
  induction cl as [|[k' v'] cl IH]; intros Hnd; simpl.
  - rewrite list_elem_of_singleton. split.
    + intros [= -> ->]. right. split; [done |]. right.
      split; [apply not_elem_of_nil | done].
    + intros [[_ H] | [-> [(v0 & H & _) | [_ ->]]]]; [| | done];
        by apply elem_of_nil in H.
  - apply NoDup_cons in Hnd as [Hk' Hnd]. specialize (IH Hnd).
    destruct (decide (k' = r)) as [-> | Hne].
    + rewrite !elem_of_cons. split.
      * intros [[= -> ->] | H].
        -- right. split; [done |]. left. exists v'. split; [by left | done].
        -- left. split; [| by right]. intros ->. apply Hk'.
           apply list_elem_of_fmap. by exists (r, v).
      * intros [[Hkr [[= -> ->] | H]] | [-> [(v0 & H & ->) | [Hnin _]]]].
        -- done.
        -- by right.
        -- apply elem_of_cons in H as [[= ->] | H]; [by left |].
           exfalso. apply Hk'. apply list_elem_of_fmap. by exists (r, v0).
        -- exfalso. apply Hnin. by left.
    + rewrite !elem_of_cons, IH. split.
      * intros [[= -> ->] | [[Hkr H] | [-> [(v0 & H & ->) | [Hnin ->]]]]].
        -- left. split; [done | by left].
        -- left. split; [done | by right].
        -- right. split; [done |]. left. exists v0. split; [by right | done].
        -- right. split; [done |]. right. split; [| done].
           intros [-> | H]; done.
      * intros [[Hkr [[= -> ->] | H]] | [-> [(v0 & H & ->) | [Hnin ->]]]].
        -- by left.
        -- right. left. done.
        -- apply elem_of_cons in H as [[= -> ->] | H]; [done |].
           right. right. split; [done |]. left. by exists v0.
        -- right. right. split; [done |]. right. split; [| done].
           intros H. apply Hnin. by right.
Qed.

(** The cluster of key [r] holds the events paired with [r], in input
    order, and there is a cluster for every key that occurs. *)
Lemma group_list_content pairs r evs :
  (r, evs) ∈ group_list pairs
  ↔ evs = map snd (filter (λ p, p.1 = r) pairs) ∧ evs ≠ [].
Proof.
  revert r evs. induction pairs as [|[r' e] pairs IH] using rev_ind;
    intros r evs.
  { split; [intros H; by apply elem_of_nil in H | by intros [-> ?]]. }
  rewrite group_list_snoc, filter_app, map_app. cbn [fst snd].
  rewrite (dict_append_elem _ _ _ _ _ (group_list_NoDup pairs)).
  rewrite filter_cons, filter_nil. cbn [fst].
  split.
  - intros [[Hne H] | [-> [(v0 & H & ->) | [Hnin ->]]]].
    + apply IH in H as [-> H]. rewrite decide_False by done.
      by rewrite app_nil_r.
    + apply IH in H as [-> H]. rewrite decide_True by done. cbn.
      split; [done |]. by destruct (map snd _).
    + rewrite decide_True by done. cbn.
      destruct (map snd (filter (λ p, p.1 = r') pairs)) as [|x l] eqn:E;
        [done |].
      exfalso. apply Hnin. apply list_elem_of_fmap.
      exists (r', x :: l). split; [done |]. apply IH. by rewrite E.
  - intros [-> Hne]. destruct (decide (r' = r)) as [-> | Hrr].
    + right. split; [done |]. cbn.
      destruct (map snd (filter (λ p, p.1 = r) pairs)) as [|x l] eqn:E.
      * right. split; [| done]. intros Hin.
        apply list_elem_of_fmap in Hin as ([k v0] & Hk & Hin).
        simpl in Hk. subst k. apply IH in Hin as [Hv0 Hne0].
        rewrite E in Hv0. by subst.
      * left. exists (x :: l). split; [| done]. apply IH. by rewrite E.
    + left. split; [done |]. rewrite app_nil_r in *. by apply IH.
Qed.

(** With one key there is one cluster, in input order. *)
Lemma group_list_single pairs r0 :
  pairs ≠ [] → (∀ p, p ∈ pairs → p.1 = r0) →
  group_list pairs = [(r0, map snd pairs)].
Proof.
  induction pairs as [|p pairs IH] using rev_ind; [done |].
  intros _ Hall. rewrite group_list_snoc.
  assert (p.1 = r0) as -> by (apply Hall; set_solver).
  destruct pairs as [|q pairs].
  - done.
  - rewrite IH; [| done | intros; apply Hall; set_solver].
    cbn [ClusterMatcher.dict_append]. rewrite decide_True by done.
    by rewrite map_app.
Qed.

End GroupFacts.

(** ** Cluster matcher: records *)

Section ClusterRecords.
Implicit Types (evs : list (ADEvent * ClusterMatcher.Source)).

(** The generated and the reference events of a list of entries. *)
Definition gens evs : list ADEvent :=
  map fst (filter (λ e, e.2 = ClusterMatcher.generated) evs).
Definition refs evs : list ADEvent :=
  map fst (filter (λ e, e.2 = ClusterMatcher.reference) evs).

(** The combined texts of a record are those of its own events. *)
Definition text_ok (p : MatchedPair) : Prop :=
  combined_gen_text p = combine_texts " " (gen_events p)
  ∧ combined_ref_text p = combine_texts " " (ref_events p).

Lemma gens_app evs1 evs2 : gens (evs1 ++ evs2) = gens evs1 ++ gens evs2.
Proof. unfold gens. by rewrite filter_app, map_app. Qed.

Lemma refs_app evs1 evs2 : refs (evs1 ++ evs2) = refs evs1 ++ refs evs2.
Proof. unfold refs. by rewrite filter_app, map_app. Qed.

Lemma gens_tagged_generated l :
  gens (map (λ e, (e, ClusterMatcher.generated)) l) = l
  ∧ refs (map (λ e, (e, ClusterMatcher.generated)) l) = [].
Proof.
  unfold gens, refs. induction l as [|x l [IH1 IH2]]; [done |].
  cbn [map]. rewrite filter_cons_True by done.
  rewrite filter_cons_False by done. cbn [map fst]. by rewrite IH1.
Qed.

Lemma gens_tagged_reference l :
  gens (map (λ e, (e, ClusterMatcher.reference)) l) = []
  ∧ refs (map (λ e, (e, ClusterMatcher.reference)) l) = l.
Proof.
  unfold gens, refs. induction l as [|x l [IH1 IH2]]; [done |].
  cbn [map]. rewrite filter_cons_False by done.
  rewrite filter_cons_True by done. cbn [map fst]. by rewrite IH2.
Qed.

Lemma gens_unified gen ref : gens (ClusterMatcher.unified gen ref) = gen.
Proof.
  unfold ClusterMatcher.unified. rewrite gens_app.
  rewrite (proj1 (gens_tagged_generated gen)).
  rewrite (proj1 (gens_tagged_reference ref)). by rewrite app_nil_r.
Qed.

Lemma refs_unified gen ref : refs (ClusterMatcher.unified gen ref) = ref.
Proof.
  unfold ClusterMatcher.unified. rewrite refs_app.
  rewrite (proj2 (gens_tagged_generated gen)).
  by rewrite (proj2 (gens_tagged_reference ref)).
Qed.

Lemma gens_Permutation evs1 evs2 : evs1 ≡ₚ evs2 → gens evs1 ≡ₚ gens evs2.
Proof. intros H. unfold gens. by rewrite H. Qed.

Lemma refs_Permutation evs1 evs2 : evs1 ≡ₚ evs2 → refs evs1 ≡ₚ refs evs2.
Proof. intros H. unfold refs. by rewrite H. Qed.

Lemma gens_concat (L : list (list (ADEvent * ClusterMatcher.Source))) :
  gens (concat L) = concat (map gens L).
Proof.
  induction L as [|evs L IH]; [done |]. simpl. by rewrite gens_app, IH.
Qed.

Lemma refs_concat (L : list (list (ADEvent * ClusterMatcher.Source))) :
  refs (concat L) = concat (map refs L).
Proof.
  induction L as [|evs L IH]; [done |]. simpl. by rewrite refs_app, IH.
Qed.

Lemma elem_of_gens e evs :
  e ∈ gens evs ↔ (e, ClusterMatcher.generated) ∈ evs.
Proof.
  unfold gens. rewrite list_elem_of_fmap. split.
  - intros ([e' s] & -> & H). apply list_elem_of_filter in H as [Hs H].
    simpl in Hs. by subst.
  - intros H. exists (e, ClusterMatcher.generated). split; [done |].
    by apply list_elem_of_filter.
Qed.

Lemma elem_of_refs e evs :
  e ∈ refs evs ↔ (e, ClusterMatcher.reference) ∈ evs.
Proof.
  unfold refs. rewrite list_elem_of_fmap. split.
  - intros ([e' s] & -> & H). apply list_elem_of_filter in H as [Hs H].
    simpl in Hs. by subst.
  - intros H. exists (e, ClusterMatcher.reference). split; [done |].
    by apply list_elem_of_filter.
Qed.

Lemma generated_only_indices l :
  concat (map gen_indices (map ClusterMatcher.generated_only_record l))
  = map index l
  ∧ concat (map ref_indices (map ClusterMatcher.generated_only_record l))
    = []
  ∧ Forall text_ok (map ClusterMatcher.generated_only_record l).
Proof.
  induction l as [|e l (IH1 & IH2 & IH3)]; [by repeat constructor |].
  simpl. rewrite IH1, IH2. by repeat constructor.
Qed.

Lemma reference_only_indices l :
  concat (map gen_indices (map ClusterMatcher.reference_only_record l))
  = []
  ∧ concat (map ref_indices (map ClusterMatcher.reference_only_record l))
    = map index l
  ∧ Forall text_ok (map ClusterMatcher.reference_only_record l).
Proof.
  induction l as [|e l (IH1 & IH2 & IH3)]; [by repeat constructor |].
  simpl. rewrite IH1, IH2. by repeat constructor.
Qed.

(** The records of one cluster: they list the events of the cluster once
    each, and a cluster with events of both origins gives one matched
    record with all of them. *)
Lemma cluster_records_spec evs :
  ∃ recs, ClusterMatcher.cluster_records evs = Some recs
    ∧ concat (map gen_indices recs) ≡ₚ map index (gens evs)
    ∧ concat (map ref_indices recs) ≡ₚ map index (refs evs)
    ∧ Forall text_ok recs
    ∧ (gens evs ≠ [] → refs evs ≠ [] →
         ∃ p, recs = [p] ∧ matched p = true ∧ match_type p = cluster
              ∧ gen_events p ≡ₚ gens evs ∧ ref_events p ≡ₚ refs evs)
    ∧ (refs evs = [] →
         recs = map ClusterMatcher.generated_only_record (gens evs))
    ∧ (gens evs = [] →
         recs = map ClusterMatcher.reference_only_record (refs evs)).
Proof.
  unfold ClusterMatcher.cluster_records. cbn zeta.
  fold (gens evs) (refs evs).
  set (gs := Py.sorted Py.lt start (gens evs)).
  set (rs := Py.sorted Py.lt start (refs evs)).
  assert (gs ≡ₚ gens evs) as Hgs by apply sorted_Permutation.
  assert (rs ≡ₚ refs evs) as Hrs by apply sorted_Permutation.
  clearbody gs rs.
  destruct (gens evs) as [|g gl] eqn:Eg, (refs evs) as [|r rl] eqn:Er;
    cbn [Py.truthy andb].
  - exists []. by split_and!.
  - destruct (reference_only_indices (r :: rl)) as (H1 & H2 & H3).
    eexists. split; [done |]. rewrite H1, H2. by split_and!.
  - destruct (generated_only_indices (g :: gl)) as (H1 & H2 & H3).
    eexists. split; [done |]. rewrite H1, H2. by split_and!.
  - assert (gs ≠ []) as Hgne.
    { intros ->. by apply Permutation_nil_l in Hgs. }
    assert (rs ≠ []) as Hrne.
    { intros ->. by apply Permutation_nil_l in Hrs. }
    destruct (min_of_spec (map start gs)) as (s1 & -> & _); [by destruct gs |].
    destruct (max_of_spec (map end_ gs)) as (e1 & -> & _); [by destruct gs |].
    destruct (min_of_spec (map start rs)) as (s2 & -> & _); [by destruct rs |].
    destruct (max_of_spec (map end_ rs)) as (e2 & -> & _); [by destruct rs |].
    cbn [mbind option_bind]. eexists. split; [done |].
    cbn [map concat gen_indices ref_indices]. rewrite !app_nil_r.
    split_and!; try done.
    + by rewrite Hgs.
    + by rewrite Hrs.
    + by repeat constructor.
    + intros _ _. eexists. by split_and!.
Qed.

End ClusterRecords.

(** ** Cluster matcher: the result *)

Lemma concat_map_Permutation {A B} (f : A → list B) (l1 l2 : list A) :
  l1 ≡ₚ l2 → concat (map f l1) ≡ₚ concat (map f l2).
Proof.
  induction 1 as [| x l1 l2 _ IH | x y l | l1 l2 l3 _ IH1 _ IH2]; simpl.
  - done.
  - by rewrite IH.
  - rewrite !app_assoc. by rewrite (Permutation_app_comm (f y)).
  - by rewrite IH1.
Qed.

Lemma snd_zip_eq {A B} (l1 : list A) (l2 : list B) :
  length l1 = length l2 → map snd (zip l1 l2) = l2.
Proof.
  revert l2. induction l1 as [|x l1 IH]; intros [|y l2] H; simplify_eq/=;
    [done |]. by rewrite IH.
Qed.

Section ClusterMatch.
Local Open Scope Q_scope.
Variable self : ClusterMatcher.t.
Local Abbreviation mo := (ClusterMatcher.min_overlap_sec self).

(** The dict of clusters is the grouping of the events by representative,
    and overlapping events share theirs. *)
Lemma clusters_of_spec gen ref :
  ∃ uf roots,
    ClusterMatcher.clusters_of self gen ref
      = Some (group_list (zip roots (ClusterMatcher.unified gen ref)))
    ∧ uf_inv uf
    ∧ length roots = length (ClusterMatcher.unified gen ref)
    ∧ (∀ i r, roots !! i = Some r → root_of (UnionFind.parent uf) i r)
    ∧ (∀ i j ei ej,
         ClusterMatcher.unified gen ref !! i = Some ei →
         ClusterMatcher.unified gen ref !! j = Some ej →
         overlaps_with ei.1 ej.1 mo = true → same uf i j)
    ∧ (∀ i j, (i < length (ClusterMatcher.unified gen ref))%nat →
         same uf i j ↔ connected self (ClusterMatcher.unified gen ref) i j).
Proof.
  unfold ClusterMatcher.clusters_of. cbn zeta.
  set (events := ClusterMatcher.unified gen ref).
  destruct (build_clusters_spec self events)
    as (uf & -> & Hinv & Hlen & Hsame & Hsound). cbn [mbind option_bind].
  destruct (group_events_spec uf events Hinv Hlen)
    as (uf' & roots & -> & Hroots & Hr). cbn [mbind option_bind].
  assert (∀ i j ei ej, events !! i = Some ei → events !! j = Some ej →
            overlaps_with ei.1 ej.1 mo = true → same uf i j) as Hov.
  { intros i j ei ej Hi Hj Hov.
    destruct (Nat.lt_trichotomy i j) as [Hlt | [-> | Hgt]].
    - by eapply Hsame.
    - destruct (root_exists uf j Hinv) as [r Hroot].
      { rewrite Hlen. by eapply lookup_lt_Some. }
      by exists r.
    - apply same_sym. eapply Hsame; [done | done | done |].
      by rewrite overlaps_with_sym. }
  exists uf, roots. split_and!; try done.
  intros i j Hi. split; [apply Hsound |].
  intros Hc. induction Hc as [i | i k j (ei & ek & Hei & Hek & Hik) _ IH].
  - destruct (root_exists uf i Hinv) as [r Hroot]; [by rewrite Hlen |].
    by exists r.
  - eapply same_trans; [by eapply Hov |]. apply IH.
    by eapply lookup_lt_Some.
Qed.

Lemma mapM_cluster_records
    (L : list (list (ADEvent * ClusterMatcher.Source))) :
  ∃ per, mapM ClusterMatcher.cluster_records L = Some per
    ∧ Forall2 (λ evs recs, ClusterMatcher.cluster_records evs = Some recs)
        L per.
Proof.
  destruct (mapM ClusterMatcher.cluster_records L) as [per|] eqn:E.
  - exists per. split; [done |]. by apply mapM_Some.
  - apply mapM_None in E. apply Exists_exists in E as (evs & _ & Hevs).
    destruct (cluster_records_spec evs) as (recs & Hrecs & _). congruence.
Qed.

(** [match] always returns: the records of the clusters, sorted. *)
Lemma ClusterMatcher_match_unfold gen ref :
  ∃ clusters per,
    ClusterMatcher.clusters_of self gen ref = Some clusters
    ∧ Forall2 (λ evs recs, ClusterMatcher.cluster_records evs = Some recs)
        (map snd clusters) per
    ∧ ClusterMatcher.match_ self gen ref
      = Some (Py.sorted Py.tuple_lt ClusterMatcher.sort_key (concat per)).
Proof.
  destruct (clusters_of_spec gen ref) as (uf & roots & Hcl & _ & Hlen & _).
  destruct (mapM_cluster_records
    (map snd (group_list (zip roots (ClusterMatcher.unified gen ref)))))
    as (per & Hper & Hall).
  eexists _, per. split; [exact Hcl |]. split; [done |].
  unfold ClusterMatcher.match_. cbn zeta. case_decide as En.
  - rewrite En in Hlen. destruct roots; [| done].
    apply nil_length_inv in En. rewrite En in Hall. cbn in Hall.
    by inversion Hall.
  - rewrite Hcl. cbn [mbind option_bind]. rewrite Hper. done.
Qed.

Lemma per_cluster_indices
    (L : list (list (ADEvent * ClusterMatcher.Source))) per :
  Forall2 (λ evs recs, ClusterMatcher.cluster_records evs = Some recs)
    L per →
  concat (map gen_indices (concat per)) ≡ₚ map index (gens (concat L))
  ∧ concat (map ref_indices (concat per)) ≡ₚ map index (refs (concat L))
  ∧ Forall text_ok (concat per).
Proof.
  induction 1 as [|evs recs L per Hrec _ (IH1 & IH2 & IH3)]; [done |].
  destruct (cluster_records_spec evs) as (recs' & Hrecs' & H1 & H2 & H3 & _).
  assert (recs' = recs) as -> by congruence.
  cbn [concat]. rewrite !map_app, !concat_app, gens_app, refs_app, !map_app.
  rewrite H1, H2, IH1, IH2. split; [done |]. split; [done |].
  by apply Forall_app.
Qed.

(** The records of the cluster matcher list every generated event and
    every reference event once, and carry the combined texts of their
    own events. *)
Lemma ClusterMatcher_match_indices gen ref :
  ∃ recs, ClusterMatcher.match_ self gen ref = Some recs
    ∧ concat (map gen_indices recs) ≡ₚ map index gen
    ∧ concat (map ref_indices recs) ≡ₚ map index ref
    ∧ Forall text_ok recs.
Proof.
  destruct (ClusterMatcher_match_unfold gen ref)
    as (clusters & per & Hcl & Hper & ->).
  destruct (clusters_of_spec gen ref) as (uf & roots & Hcl' & _ & Hlen & _).
  assert (clusters
          = group_list (zip roots (ClusterMatcher.unified gen ref))) as Hc
    by congruence.
  destruct (per_cluster_indices _ _ Hper) as (H1 & H2 & H3).
  assert (concat (map snd clusters) ≡ₚ ClusterMatcher.unified gen ref) as Hp.
  { rewrite Hc, group_list_Permutation. by rewrite snd_zip_eq. }
  eexists. split; [done |]. split_and!.
  - rewrite (concat_map_Permutation gen_indices _ _
               (sorted_Permutation _ _ _)), H1.
    by rewrite (gens_Permutation _ _ Hp), gens_unified.
  - rewrite (concat_map_Permutation ref_indices _ _
               (sorted_Permutation _ _ _)), H2.
    by rewrite (refs_Permutation _ _ Hp), refs_unified.
  - by rewrite sorted_Permutation.
Qed.

Lemma ClusterMatcher_match_nil_iff gen ref :
  ClusterMatcher.match_ self gen ref = Some [] ↔ gen = [] ∧ ref = [].
Proof.
  split.
  - intros H. destruct (ClusterMatcher_match_indices gen ref)
      as (recs & Hrecs & H1 & H2 & _).
    assert (recs = []) as -> by congruence. simpl in H1, H2.
    apply Permutation_nil_l in H1, H2.
    by destruct gen, ref.
  - by intros [-> ->].
Qed.

End ClusterMatch.

(** ** Degenerate inputs *)

(** Sorting with two pairs of comparison and key that agree gives the
    same list. *)
Lemma sorted_ext {A K K'} (ltk : K → K → bool) (key : A → K)
    (ltk' : K' → K' → bool) (key' : A → K') l :
  (∀ x y, ltk (key x) (key y) = ltk' (key' x) (key' y)) →
  Py.sorted ltk key l = Py.sorted ltk' key' l.
Proof.
  intros H. induction l as [|x l IH]; simpl; [done |]. rewrite IH.
  generalize (Py.sorted ltk' key' l). intros s.
  induction s as [|y s IHs]; simpl; [done |].
  by rewrite H, IHs.
Qed.

(** On records of one kind the final sort of the cluster matcher is the
    sort by start time. *)
Lemma tuple_lt_same_tag (a b : Q) (t : nat) :
  Py.tuple_lt (a, t) (b, t) = Py.lt a b.
Proof.
  unfold Py.tuple_lt. simpl. destruct (Py.eqb a b) eqn:E; [| done].
  rewrite Nat.ltb_irrefl. symmetry. apply Py_lt_false.
  apply Py_eqb_spec in E. rewrite E. apply Qle_refl.
Qed.

Section OneSide.
Variable self : ClusterMatcher.t.

(** The records of clusters that hold generated events only. *)
Lemma generated_only_clusters
    (L : list (list (ADEvent * ClusterMatcher.Source))) per :
  Forall2 (λ evs recs, ClusterMatcher.cluster_records evs = Some recs)
    L per →
  (∀ evs, evs ∈ L → refs evs = []) →
  concat per = map ClusterMatcher.generated_only_record (gens (concat L)).
Proof.
  induction 1 as [|evs recs L per Hrec _ IH]; intros Hrefs; [done |].
  destruct (cluster_records_spec evs)
    as (recs' & Hrecs' & _ & _ & _ & _ & Hgen & _).
  assert (recs' = recs) as -> by congruence.
  cbn [concat]. rewrite gens_app, map_app, IH.
  - rewrite Hgen; [done |]. apply Hrefs. by left.
  - intros evs' H. apply Hrefs. by right.
Qed.

Lemma reference_only_clusters
    (L : list (list (ADEvent * ClusterMatcher.Source))) per :
  Forall2 (λ evs recs, ClusterMatcher.cluster_records evs = Some recs)
    L per →
  (∀ evs, evs ∈ L → gens evs = []) →
  concat per = map ClusterMatcher.reference_only_record (refs (concat L)).
Proof.
  induction 1 as [|evs recs L per Hrec _ IH]; intros Hgens; [done |].
  destruct (cluster_records_spec evs)
    as (recs' & Hrecs' & _ & _ & _ & _ & _ & Href).
  assert (recs' = recs) as -> by congruence.
  cbn [concat]. rewrite refs_app, map_app, IH.
  - rewrite Href; [done |]. apply Hgens. by left.
  - intros evs' H. apply Hgens. by right.
Qed.

(** The events of the clusters are the events supplied. *)
Lemma clusters_events gen ref clusters :
  ClusterMatcher.clusters_of self gen ref = Some clusters →
  concat (map snd clusters) ≡ₚ ClusterMatcher.unified gen ref.
Proof.
  intros Hcl.
  destruct (clusters_of_spec self gen ref) as (uf & roots & Hcl' & _ & Hlen & _).
  assert (clusters
          = group_list (zip roots (ClusterMatcher.unified gen ref))) as ->
    by congruence.
  rewrite group_list_Permutation. by rewrite snd_zip_eq.
Qed.

(** Without reference events: one [generated_only] record per generated
    event, by start time. *)
Lemma ClusterMatcher_match_generated_only gen :
  ∃ evs, ClusterMatcher.match_ self gen []
         = Some (map ClusterMatcher.generated_only_record evs)
    ∧ evs ≡ₚ gen
    ∧ StronglySorted (λ a b, (start a <= start b)%Q) evs.
Proof.
  destruct (ClusterMatcher_match_unfold self gen [])
    as (clusters & per & Hcl & Hper & ->).
  pose proof (clusters_events gen [] clusters Hcl) as Hperm.
  rewrite (generated_only_clusters _ _ Hper).
  2:{ intros evs Hevs. destruct (refs evs) as [|x l] eqn:E; [done |].
      assert (x ∈ refs evs) as Hx by (rewrite E; by left).
      apply elem_of_refs in Hx.
      assert ((x, ClusterMatcher.reference)
              ∈ concat (map snd clusters)) as Hin.
      { apply list_elem_of_In, in_concat. exists evs.
        split; by apply list_elem_of_In. }
      rewrite Hperm in Hin. apply elem_of_refs in Hin.
      rewrite refs_unified in Hin. by apply elem_of_nil in Hin. }
  rewrite sorted_map.
  rewrite (sorted_ext _ _ Py.lt start).
  2:{ intros x y. apply tuple_lt_same_tag. }
  eexists. split; [done |]. split.
  - rewrite sorted_Permutation, (gens_Permutation _ _ Hperm).
    by rewrite gens_unified.
  - apply sorted_Q_StronglySorted.
Qed.

(** Without generated events: one [reference_only] record per reference
    event, by start time. *)
Lemma ClusterMatcher_match_reference_only ref :
  ∃ evs, ClusterMatcher.match_ self [] ref
         = Some (map ClusterMatcher.reference_only_record evs)
    ∧ evs ≡ₚ ref
    ∧ StronglySorted (λ a b, (start a <= start b)%Q) evs.
Proof.
  destruct (ClusterMatcher_match_unfold self [] ref)
    as (clusters & per & Hcl & Hper & ->).
  pose proof (clusters_events [] ref clusters Hcl) as Hperm.
  rewrite (reference_only_clusters _ _ Hper).
  2:{ intros evs Hevs. destruct (gens evs) as [|x l] eqn:E; [done |].
      assert (x ∈ gens evs) as Hx by (rewrite E; by left).
      apply elem_of_gens in Hx.
      assert ((x, ClusterMatcher.generated)
              ∈ concat (map snd clusters)) as Hin.
      { apply list_elem_of_In, in_concat. exists evs.
        split; by apply list_elem_of_In. }
      rewrite Hperm in Hin. apply elem_of_gens in Hin.
      rewrite gens_unified in Hin. by apply elem_of_nil in Hin. }
  rewrite sorted_map.
  rewrite (sorted_ext _ _ Py.lt start).
  2:{ intros x y. apply tuple_lt_same_tag. }
  eexists. split; [done |]. split.
  - rewrite sorted_Permutation, (refs_Permutation _ _ Hperm).
    by rewrite refs_unified.
  - apply sorted_Q_StronglySorted.
Qed.

End OneSide.

(** C1, as amended: the DP matcher returns the empty list as soon as one
    of the sequences is empty; the cluster matcher returns the empty list
    exactly when both are. With no reference event the cluster matcher
    returns one unmatched [generated_only] record per generated event,
    and with no generated event one unmatched [reference_only] record per
    reference event, in both cases in the order of the start times. *)
Theorem empty_input_results (math_exp : Q → Q) (dp : DPMatcher.t)
    (cm : ClusterMatcher.t) (gen ref : list ADEvent) :
  (gen = [] ∨ ref = [] → DPMatcher.match_ math_exp dp gen ref = Some [])
  ∧ (ClusterMatcher.match_ cm gen ref = Some [] ↔ gen = [] ∧ ref = [])
  ∧ (∃ evs, ClusterMatcher.match_ cm gen []
            = Some (map ClusterMatcher.generated_only_record evs)
       ∧ evs ≡ₚ gen
       ∧ StronglySorted (λ a b, (start a <= start b)%Q) evs)
  ∧ (∃ evs, ClusterMatcher.match_ cm [] ref
            = Some (map ClusterMatcher.reference_only_record evs)
       ∧ evs ≡ₚ ref
       ∧ StronglySorted (λ a b, (start a <= start b)%Q) evs).
Proof.
  split; [apply DPMatcher_match_empty |].
  split; [apply ClusterMatcher_match_nil_iff |].
  split; [apply ClusterMatcher_match_generated_only |].
  apply ClusterMatcher_match_reference_only.
Qed.

(** C1 as stated fails: one generated event and no reference event give a
    [generated_only] record in the cluster matcher. *)
Lemma empty_input_counterexample :
  ClusterMatcher.match_ (ClusterMatcher.mk (1 # 2))
    [mkEvent 0 5 "cat" 0] []
  = Some [ClusterMatcher.generated_only_record (mkEvent 0 5 "cat" 0)].
Proof. vm_compute. reflexivity. Qed.

(** ** Index coverage *)

(** The [index] of every event is its position. *)
Definition index_is_position (l : list ADEvent) : Prop :=
  ∀ i e, l !! i = Some e → index e = Z.of_nat i.

(** The indices listed under [field] over all records are the positions
    of [events], each once. *)
Definition covers_once (field : MatchedPair → list Z)
    (recs : list MatchedPair) (events : list ADEvent) : Prop :=
  concat (map field recs) ≡ₚ map Z.of_nat (seq 0 (length events)).

Lemma map_index_position l :
  index_is_position l → map index l = map Z.of_nat (seq 0 (length l)).
Proof.
  intros H. apply list_eq. intros i.
  rewrite !list_lookup_fmap. destruct (l !! i) as [e|] eqn:E; simpl.
  - rewrite (H i e E). apply lookup_lt_Some in E as Hlt.
    by rewrite lookup_seq_lt.
  - apply lookup_ge_None in E. by rewrite lookup_seq_ge.
Qed.

(** C3, as amended: the records of the cluster matcher always list every
    generated index and every reference index exactly once; those of the
    DP matcher do whenever the two sequences are both empty or both
    non-empty and the configured similarity is defined on the events. *)
Theorem index_coverage (math_exp : Q → Q) (dp : DPMatcher.t)
    (cm : ClusterMatcher.t) (gen ref : list ADEvent) :
  index_is_position gen → index_is_position ref →
  (∃ recs, ClusterMatcher.match_ cm gen ref = Some recs
     ∧ covers_once gen_indices recs gen
     ∧ covers_once ref_indices recs ref)
  ∧ ((gen = [] ↔ ref = []) → similarity_total math_exp dp gen ref →
       ∃ recs, DPMatcher.match_ math_exp dp gen ref = Some recs
         ∧ covers_once gen_indices recs gen
         ∧ covers_once ref_indices recs ref).
Proof.
  intros Hgen Href. unfold covers_once.
  rewrite <- !(map_index_position gen Hgen), <- !(map_index_position ref Href).
  split.
  - destruct (ClusterMatcher_match_indices cm gen ref)
      as (recs & Hrecs & H1 & H2 & _). by exists recs.
  - intros Hboth Htot.
    destruct gen as [|g gen'] eqn:Eg.
    + assert (ref = []) as -> by (by apply (proj1 Hboth)). by exists [].
    + assert (ref ≠ []) as Hne.
      { intros E. by apply (proj2 Hboth) in E. }
      destruct (DPMatcher_match_indices math_exp dp (g :: gen') ref)
        as (recs & Hrecs & H1 & H2); [done | done | done |].
      exists recs. by rewrite H1, H2.
Qed.

(** C3 as stated fails for the DP matcher: one generated event and no
    reference event give no record, so index 0 is omitted. *)
Lemma index_coverage_counterexample :
  DPMatcher.match_ (λ x, x)
    (DPMatcher.init (3 # 10) (7 # 10) (- (1 # 5)) (- (1 # 5)) 10 false None)
    [mkEvent 0 5 "cat" 0] []
  = Some []
  ∧ map index [mkEvent 0 5 "cat" 0] = [0%Z].
Proof. by vm_compute. Qed.

(** The theorem at two generated events and one reference event. *)
Lemma index_coverage_witness :
  let gen := [mkEvent 0 5 "cat" 0; mkEvent 10 15 "dog" 1] in
  let ref := [mkEvent 1 4 "cat sits" 0] in
  (∃ recs, ClusterMatcher.match_ (ClusterMatcher.mk (1 # 2)) gen ref
           = Some recs
     ∧ covers_once gen_indices recs gen
     ∧ covers_once ref_indices recs ref)
  ∧ ∃ recs, DPMatcher.match_ (λ x, x)
              (DPMatcher.init (3 # 10) (7 # 10) (- (1 # 5)) (- (1 # 5)) 10
                 false None) gen ref
            = Some recs
      ∧ covers_once gen_indices recs gen
      ∧ covers_once ref_indices recs ref.
Proof.
  cbn zeta.
  destruct (index_coverage (λ x, x)
    (DPMatcher.init (3 # 10) (7 # 10) (- (1 # 5)) (- (1 # 5)) 10 false None)
    (ClusterMatcher.mk (1 # 2))
    [mkEvent 0 5 "cat" 0; mkEvent 10 15 "dog" 1]
    [mkEvent 1 4 "cat sits" 0]) as [H1 H2].
  - intros [|[|i]] e H; simplify_eq/=; reflexivity.
  - intros [|i] e H; simplify_eq/=; reflexivity.
  - split; [exact H1 |]. apply H2.
    + split; intros H; discriminate H.
    + apply similarity_total_default; [reflexivity | by left].
Defined.

(** ** Transitivity of the cluster matcher *)







(** ** A threshold of zero (or below) *)

Lemma filter_all {A} (P : A → Prop) `{!∀ x, Decision (P x)} (l : list A) :
  (∀ x, x ∈ l → P x) → filter P l = l.
Proof.
  induction l as [|x l IH]; intros Hall; [done |].
  rewrite filter_cons_True by (apply Hall; by left).
  f_equal. apply IH. intros y Hy. apply Hall. by right.
Qed.

(** C9: with [min_overlap <= 0] every two events overlap, because the
    overlap duration is never negative. Hence the cluster matcher puts all
    the events into one component, and every record of the overlap
    matcher holds all the reference events, however far apart in time the
    events are. *)
Theorem nonpositive_threshold (min_overlap : Q) (gen ref : list ADEvent) :
  (min_overlap <= 0)%Q →
  (∀ a b, overlaps_with a b min_overlap = true)
  ∧ (∃ clusters,
       ClusterMatcher.clusters_of (ClusterMatcher.mk min_overlap) gen ref
       = Some clusters
       ∧ map snd clusters
         = match ClusterMatcher.unified gen ref with
           | [] => []
           | _ :: _ => [ClusterMatcher.unified gen ref]
           end)
  ∧ (∃ recs,
       OverlapMatcher.match_ (OverlapMatcher.mk min_overlap) gen ref
       = Some recs
       ∧ ∀ i g, gen !! i = Some g →
           ∃ p, recs !! i = Some p ∧ gen_events p = [g]
                ∧ ref_events p ≡ₚ ref
                ∧ (ref ≠ [] → matched p = true ∧ match_type p = overlap)).
Proof.
  intros Hmo.
  assert (∀ a b, overlaps_with a b min_overlap = true) as Hall
    by (intros; by apply overlaps_with_nonpos).
  split; [done |]. split.
  - destruct (clusters_of_spec (ClusterMatcher.mk min_overlap) gen ref)
      as (uf & roots & -> & Hinv & Hlen & Hroots & Hsame & _).
    eexists. split; [done |].
    set (events := ClusterMatcher.unified gen ref) in *.
    destruct events as [|e0 events'] eqn:Ee.
    { by destruct roots. }
    destruct roots as [|r0 roots']; [done |].
    rewrite (group_list_single _ r0); [by rewrite snd_zip_eq | done |].
    intros [r e] Hp. apply list_elem_of_lookup in Hp as [i Hi].
    apply lookup_zip_with_Some in Hi as (r' & e' & Heq & Hr & He).
    simplify_eq. simpl.
    destruct (Hsame 0%nat i e0 e' eq_refl He (Hall _ _)) as (s & H0 & H1).
    rewrite (root_of_unique _ _ _ _ (Hroots i r' Hr) H1).
    by rewrite (root_of_unique _ _ _ _ (Hroots 0%nat r0 eq_refl) H0).
  - destruct (OverlapMatcher_match_Forall2 (OverlapMatcher.mk min_overlap)
                gen ref) as (recs & Hrecs & Hok).
    exists recs. split; [done |]. intros i g Hg.
    destruct (Forall2_lookup_l _ _ _ _ _ Hok Hg)
      as (p & Hp & Hgp & _ & _ & _ & _ & Hperm & _ & _ & _ & _ & Hkept).
    assert (kept_refs (OverlapMatcher.mk min_overlap) g ref = ref) as Hk.
    { apply filter_all. intros r _. simpl.
      eapply Qle_trans; [done | apply overlap_duration_nonneg]. }
    rewrite Hk in Hperm, Hkept.
    exists p. split_and!; try done.
    intros Hne. destruct ref; [done |]. tauto.
Qed.

(** The theorem at a threshold of zero and two events far apart. *)
Lemma nonpositive_threshold_witness :
  overlaps_with (mkEvent 0 1 "a" 0) (mkEvent 100 101 "b" 0) 0 = true
  ∧ ∃ clusters,
      ClusterMatcher.clusters_of (ClusterMatcher.mk 0)
        [mkEvent 0 1 "a" 0] [mkEvent 100 101 "b" 0] = Some clusters
      ∧ map snd clusters
        = [[(mkEvent 0 1 "a" 0, ClusterMatcher.generated);
            (mkEvent 100 101 "b" 0, ClusterMatcher.reference)]].
Proof.
  destruct (nonpositive_threshold 0
              [mkEvent 0 1 "a" 0] [mkEvent 100 101 "b" 0])
    as (H1 & H2 & _); [by vm_compute |].
  split; [apply H1 | exact H2].
Defined.

(** ** Combined texts and the order of supply *)

Lemma DPMatcher_record_text gen ref s p :
  DPMatcher.record_of gen ref s = Some p → text_ok p.
Proof.
  destruct s as [[[g|] [r|]] sc]; cbn; intros H.
  - destruct (gen !! g); [| done]. destruct (ref !! r); [| done].
    cbn in H. by simplify_eq.
  - destruct (gen !! g); [| done]. cbn in H. by simplify_eq.
  - destruct (ref !! r); [| done]. cbn in H. by simplify_eq.
  - done.
Qed.

Lemma DPMatcher_match_text math_exp dp gen ref recs :
  DPMatcher.match_ math_exp dp gen ref = Some recs → Forall text_ok recs.
Proof.
  unfold DPMatcher.match_.
  destruct (negb (Py.truthy gen) || negb (Py.truthy ref)).
  { intros H. by simplify_eq. }
  destruct (DPMatcher._build_similarity_matrix math_exp dp gen ref);
    [| done]. cbn [mbind option_bind].
  destruct (DPMatcher._dp_align dp l); [| done]. cbn [mbind option_bind].
  intros H. apply mapM_Some in H. apply Forall_forall. intros p Hp.
  apply list_elem_of_lookup in Hp as [i Hi].
  destruct (Forall2_lookup_r _ _ _ _ _ H Hi) as (s & _ & Hs).
  by eapply DPMatcher_record_text.
Qed.

(** The DP matcher returns whenever the similarity is defined. *)
Lemma DPMatcher_match_total math_exp dp gen ref :
  similarity_total math_exp dp gen ref →
  is_Some (DPMatcher.match_ math_exp dp gen ref).
Proof.
  intros Htot. destruct gen as [|g gen'] eqn:Eg.
  { rewrite DPMatcher_match_empty; [by eexists | by left]. }
  destruct ref as [|r ref'] eqn:Er.
  { rewrite DPMatcher_match_empty; [by eexists | by right]. }
  destruct (DPMatcher_match_indices math_exp dp (g :: gen') (r :: ref'))
    as (recs & -> & _); [done | done | done |]. by eexists.
Qed.

(** Two supply orders of the same events give the same combined text when
    no two different events share a start time. *)
Lemma combine_texts_Permutation sep (l1 l2 : list ADEvent) :
  l1 ≡ₚ l2 →
  (∀ x y, x ∈ l1 → y ∈ l1 → (start x == start y)%Q → x = y) →
  combine_texts sep l1 = combine_texts sep l2.
Proof.
  intros Hperm Hdistinct. unfold combine_texts.
  destruct l1 as [|x1 l1'] eqn:E1.
  { apply Permutation_nil_l in Hperm. by subst. }
  destruct l2 as [|x2 l2'] eqn:E2.
  { by apply Permutation_nil_r in Hperm. }
  cbn [Py.truthy negb]. rewrite <- E1, <- E2 in *. do 2 f_equal.
  apply (StronglySorted_unique_strong (λ a b, (start a <= start b)%Q)).
  - intros a b Ha Hb Hab Hba. apply Hdistinct.
    + by apply elem_of_sorted in Ha.
    + apply elem_of_sorted in Hb. by rewrite Hperm.
    + by apply Qle_antisym.
  - apply sorted_Q_StronglySorted.
  - apply sorted_Q_StronglySorted.
  - by rewrite !sorted_Permutation.
Qed.


#[global] Instance Q_eq_dec : EqDecision Q.
Proof. solve_decision. Defined.

#[global] Instance ADEvent_eq_dec : EqDecision ADEvent.
Proof. solve_decision. Defined.

(** Two records hold the same events. *)
Definition same_events (p1 p2 : MatchedPair) : Prop :=
  gen_events p1 ≡ₚ gen_events p2 ∧ ref_events p1 ≡ₚ ref_events p2.

(** No two different events of the list share a start time. *)
Definition distinct_starts (l : list ADEvent) : Prop :=
  ∀ x y, x ∈ l → y ∈ l → (start x == start y)%Q → x = y.

(** The record [p1] has a counterpart among [recs2]: a record with the
    same events, and with the same combined text on each side whose
    events have pairwise distinct start times. *)
Definition counterpart (recs2 : list MatchedPair) (p1 : MatchedPair)
  : Prop :=
  ∃ p2, p2 ∈ recs2 ∧ same_events p1 p2
    ∧ (distinct_starts (gen_events p1) →
         combined_gen_text p1 = combined_gen_text p2)
    ∧ (distinct_starts (ref_events p1) →
         combined_ref_text p1 = combined_ref_text p2).

Lemma counterpart_texts recs2 p1 p2 :
  text_ok p1 → text_ok p2 → p2 ∈ recs2 → same_events p1 p2 →
  counterpart recs2 p1.
Proof.
  intros [Hg1 Hr1] [Hg2 Hr2] Hin [Hg Hr]. exists p2.
  split; [done |]. split; [done |]. split.
  - intros Hd. rewrite Hg1, Hg2. by apply combine_texts_Permutation.
  - intros Hd. rewrite Hr1, Hr2. by apply combine_texts_Permutation.
Qed.

(** Filtering a zipped list by the first components. *)
Lemma filter_zip_entries {A} (r : nat) (P : A → Prop)
    `{!∀ x, Decision (P x)} (roots : list nat) (l : list A) :
  Forall2 (λ rj x, rj = r ↔ P x) roots l →
  map snd (filter (λ p, p.1 = r) (zip roots l)) = filter P l.
Proof.
  induction 1 as [|rj x roots l Hx _ IH]; [done |].
  cbn [zip zip_with]. rewrite !filter_cons. cbn [fst].
  destruct (decide (rj = r)) as [E | E].
  - rewrite decide_True by (by apply Hx). cbn. by rewrite IH.
  - rewrite decide_False by (by rewrite <- Hx). done.
Qed.

Lemma filter_zip_none {A} (r : nat) (roots : list nat) (l : list A) :
  (∀ j, roots !! j ≠ Some r) →
  filter (λ p : nat * A, p.1 = r) (zip roots l) = [].
Proof.
  revert l. induction roots as [|rj roots IH]; intros l H; [done |].
  destruct l as [|x l]; [done |]. cbn [zip zip_with].
  rewrite filter_cons. cbn [fst].
  rewrite decide_False by (intros ->; by apply (H 0%nat)).
  apply IH. intros j. apply (H (S j)).
Qed.

Lemma filter_zip_single {A} (r : nat) (roots : list nat) (l : list A) i e :
  roots !! i = Some r → l !! i = Some e →
  (∀ j, roots !! j = Some r → j = i) →
  map snd (filter (λ p, p.1 = r) (zip roots l)) = [e].
Proof.
  revert l i. induction roots as [|rj roots IH]; intros l i Hr He Honly;
    [done |].
  destruct l as [|x l]; [done |]. cbn [zip zip_with].
  rewrite filter_cons. cbn [fst]. destruct i as [|i].
  - simpl in Hr, He. simplify_eq. rewrite decide_True by done. cbn.
    rewrite filter_zip_none; [done |].
    intros j Hj. specialize (Honly (S j) Hj). done.
  - simpl in Hr, He. rewrite decide_False.
    2:{ intros ->. specialize (Honly 0%nat eq_refl). done. }
    apply (IH l i Hr He). intros j Hj.
    specialize (Honly (S j) Hj). lia.
Qed.

Section TwoRuns.
Local Open Scope Q_scope.
Variable self : ClusterMatcher.t.
Local Abbreviation mo := (ClusterMatcher.min_overlap_sec self).
Implicit Types (l : list (ADEvent * ClusterMatcher.Source)).

(** A chain of overlaps in one supply order is a chain in every other
    order of the same events. *)
Lemma connected_transfer l l' i j :
  (∀ x, x ∈ l → x ∈ l') →
  connected self l i j →
  ∀ i', l' !! i' = l !! i →
  ∃ j', l' !! j' = l !! j ∧ connected self l' i' j'.
Proof.
  intros Hsub Hc. induction Hc as [i | i k j Hik _ IH]; intros i' Hi'.
  - exists i'. split; [done | apply rtc_refl].
  - destruct Hik as (ei & ek & Hei & Hek & Hov).
    assert (ek ∈ l') as Hin.
    { apply Hsub. by eapply list_elem_of_lookup_2. }
    apply list_elem_of_lookup in Hin as [k' Hk'].
    destruct (IH k') as (j' & Hj' & Hc'); [congruence |].
    exists j'. split; [done |]. eapply rtc_l; [| exact Hc'].
    exists ei, ek. split; [congruence |]. done.
Qed.

(** Two positions that hold the same event are connected as soon as one
    of them has a link. *)
Lemma duplicate_connected l k j t a :
  l !! k = Some a → l !! j = Some a → linked self l k t →
  connected self l k j.
Proof.
  intros Hk Hj (ek & et & Hek & Het & Hov).
  assert (ek = a) as -> by congruence.
  eapply rtc_l; [by exists a, et |].
  apply rtc_once. apply linked_sym. by exists a, et.
Qed.

(** The first step of a chain that leaves its origin. *)
Lemma connected_link l i j :
  connected self l i j → i ≠ j → ∃ t, linked self l i t.
Proof.
  intros Hc Hne. destruct Hc as [|i k j Hik _]; [done |]. by exists k.
Qed.

Section OneRun.
Variables (gen ref : list ADEvent).
Local Abbreviation events := (ClusterMatcher.unified gen ref).
Variables (roots : list nat).
Hypothesis Hlen : length roots = length events.
Hypothesis Hroots :
  ∀ i j ri rj, roots !! i = Some ri → roots !! j = Some rj →
    ri = rj ↔ connected self events i j.

(** The cluster of the position [i]. *)
Lemma cluster_members i r evs x :
  roots !! i = Some r →
  evs = map snd (filter (λ p, p.1 = r) (zip roots events)) →
  x ∈ evs ↔ ∃ j, events !! j = Some x ∧ connected self events i j.
Proof.
  intros Hi ->. rewrite list_elem_of_fmap. split.
  - intros ([rj y] & -> & Hin). apply list_elem_of_filter in Hin as [E Hin].
    simpl in E. subst rj. apply list_elem_of_lookup in Hin as [j Hj].
    apply lookup_zip_with_Some in Hj as (rj & y' & [= <- <-] & Hrj & Hy).
    exists j. split; [done |]. by apply (Hroots i j r r).
  - intros (j & Hj & Hc).
    destruct (lookup_lt_is_Some_2 roots j) as [rj Hrj].
    { rewrite Hlen. by eapply lookup_lt_Some. }
    assert (r = rj) as <- by (by apply (Hroots i j r rj)).
    exists (r, x). split; [done |]. apply list_elem_of_filter.
    split; [done |]. apply list_elem_of_lookup. exists j.
    apply lookup_zip_with_Some. by exists r, x.
Qed.

(** A cluster whose origin has a link holds every copy of its events. *)
Lemma cluster_linked i r e t :
  roots !! i = Some r → events !! i = Some e → linked self events i t →
  let evs := map snd (filter (λ p, p.1 = r) (zip roots events)) in
  evs = filter (λ x, x ∈ evs) events.
Proof.
  intros Hi He Ht evs. unfold evs at 1.
  apply filter_zip_entries.
  apply Forall2_same_length_lookup_2; [done |].
  intros j rj x Hrj Hx. split.
  - intros ->. apply (cluster_members i r evs x Hi eq_refl).
    exists j. split; [done |]. by apply (Hroots i j r r).
  - intros Hin.
    apply (cluster_members i r evs x Hi eq_refl) in Hin as (k & Hk & Hc).
    symmetry. apply (Hroots i j r rj Hi Hrj).
    destruct (decide (k = j)) as [-> | Hkj]; [done |].
    etrans; [exact Hc |].
    destruct (decide (i = k)) as [-> | Hik].
    + by eapply duplicate_connected.
    + apply connected_sym in Hc.
      destruct (connected_link _ _ _ Hc) as [t' Ht']; [done |].
      by eapply duplicate_connected.
Qed.

(** A cluster whose origin has no link is that event alone. *)
Lemma cluster_isolated i r e :
  roots !! i = Some r → events !! i = Some e →
  (∀ t, ¬ linked self events i t) →
  map snd (filter (λ p, p.1 = r) (zip roots events)) = [e].
Proof.
  intros Hi He Hno. apply (filter_zip_single r roots events i e Hi He).
  intros j Hj. pose proof (proj1 (Hroots i j r r Hi Hj) eq_refl) as Hc.
  destruct (decide (j = i)) as [-> | Hne]; [done |].
  destruct (connected_link _ _ _ Hc) as [t Ht]; [done |].
  by apply Hno in Ht.
Qed.

End OneRun.

(** The cluster of an event holds the same events in two supply orders
    of the same events. *)
Lemma cluster_Permutation gen1 ref1 gen2 ref2 (roots1 roots2 : list nat)
    i1 i2 r1 r2 e :
  ClusterMatcher.unified gen1 ref1 ≡ₚ ClusterMatcher.unified gen2 ref2 →
  length roots1 = length (ClusterMatcher.unified gen1 ref1) →
  length roots2 = length (ClusterMatcher.unified gen2 ref2) →
  (∀ i j ri rj, roots1 !! i = Some ri → roots1 !! j = Some rj →
     ri = rj ↔ connected self (ClusterMatcher.unified gen1 ref1) i j) →
  (∀ i j ri rj, roots2 !! i = Some ri → roots2 !! j = Some rj →
     ri = rj ↔ connected self (ClusterMatcher.unified gen2 ref2) i j) →
  roots1 !! i1 = Some r1 → ClusterMatcher.unified gen1 ref1 !! i1 = Some e →
  roots2 !! i2 = Some r2 → ClusterMatcher.unified gen2 ref2 !! i2 = Some e →
  map snd (filter (λ p, p.1 = r1)
             (zip roots1 (ClusterMatcher.unified gen1 ref1)))
  ≡ₚ map snd (filter (λ p, p.1 = r2)
                (zip roots2 (ClusterMatcher.unified gen2 ref2))).
Proof.
  intros Hperm Hlen1 Hlen2 Hroots1 Hroots2 Hr1 He1 Hr2 He2.
  set (l1 := ClusterMatcher.unified gen1 ref1) in *.
  set (l2 := ClusterMatcher.unified gen2 ref2) in *.
  assert (∀ x, x ∈ l1 ↔ x ∈ l2) as Hmem by (intros x; by rewrite Hperm).
  destruct (decide (Exists (λ b, overlaps_with e.1 b.1 mo = true) l1))
    as [Hex | Hno].
  - (* the event has a link *)
    apply Exists_exists in Hex as (b & Hb & Hov).
    assert (∃ t, linked self l1 i1 t) as [t1 Ht1].
    { apply list_elem_of_lookup in Hb as [t Ht]. exists t. by exists e, b. }
    assert (∃ t, linked self l2 i2 t) as [t2 Ht2].
    { apply Hmem in Hb. apply list_elem_of_lookup in Hb as [t Ht].
      exists t. by exists e, b. }
    pose proof (cluster_linked gen1 ref1 roots1 Hlen1 Hroots1 i1 r1 e t1
                  Hr1 He1 Ht1) as E1.
    pose proof (cluster_linked gen2 ref2 roots2 Hlen2 Hroots2 i2 r2 e t2
                  Hr2 He2 Ht2) as E2.
    cbn zeta in E1, E2. fold l1 in E1. fold l2 in E2.
    set (evs1 := map snd (filter (λ p, p.1 = r1) (zip roots1 l1))) in *.
    set (evs2 := map snd (filter (λ p, p.1 = r2) (zip roots2 l2))) in *.
    rewrite E1, E2, Hperm. apply reflexive_eq. apply list_filter_iff.
    intros x.
    rewrite (cluster_members gen1 ref1 roots1 Hlen1 Hroots1 i1 r1 evs1 x
               Hr1 eq_refl).
    rewrite (cluster_members gen2 ref2 roots2 Hlen2 Hroots2 i2 r2 evs2 x
               Hr2 eq_refl).
    fold l1 l2. split.
    + intros (j & Hj & Hc).
      destruct (connected_transfer l1 l2 i1 j (λ y, proj1 (Hmem y)) Hc i2)
        as (j' & Hj' & Hc'); [congruence |].
      exists j'. split; [congruence | done].
    + intros (j & Hj & Hc).
      destruct (connected_transfer l2 l1 i2 j (λ y, proj2 (Hmem y)) Hc i1)
        as (j' & Hj' & Hc'); [congruence |].
      exists j'. split; [congruence | done].
  - (* the event is alone *)
    assert (∀ l i, (∀ x, x ∈ l → x ∈ l1) → l !! i = Some e →
              ∀ t, ¬ linked self l i t) as Halone.
    { intros l i Hsub Hi t (ei & et & Hei & Het & Hov). apply Hno.
      apply Exists_exists. exists et. split.
      - apply Hsub. by eapply list_elem_of_lookup_2.
      - congruence. }
    unfold l1, l2.
    rewrite (cluster_isolated gen1 ref1 roots1 Hroots1 i1 r1 e Hr1 He1).
    2:{ by apply (Halone l1 i1). }
    rewrite (cluster_isolated gen2 ref2 roots2 Hroots2 i2 r2 e Hr2 He2).
    2:{ apply (Halone l2 i2); [| done]. intros x. apply Hmem. }
    done.
Qed.

(** Clusters with the same events give records with the same events. *)
Lemma cluster_records_Permutation
    (evs1 evs2 : list (ADEvent * ClusterMatcher.Source)) recs1 recs2 p1 :
  evs1 ≡ₚ evs2 →
  ClusterMatcher.cluster_records evs1 = Some recs1 →
  ClusterMatcher.cluster_records evs2 = Some recs2 →
  p1 ∈ recs1 → ∃ p2, p2 ∈ recs2 ∧ same_events p1 p2.
Proof.
  intros Hperm H1 H2 Hp1.
  destruct (cluster_records_spec evs1)
    as (r1 & Hr1 & _ & _ & _ & Hmix1 & Hgen1 & Href1).
  destruct (cluster_records_spec evs2)
    as (r2 & Hr2 & _ & _ & _ & Hmix2 & Hgen2 & Href2).
  assert (r1 = recs1) as -> by congruence.
  assert (r2 = recs2) as -> by congruence.
  pose proof (gens_Permutation _ _ Hperm) as Hg.
  pose proof (refs_Permutation _ _ Hperm) as Hr.
  destruct (decide (refs evs1 = [])) as [Er | Er].
  - assert (refs evs2 = []) as Er2.
    { rewrite Er in Hr. by apply Permutation_nil_l in Hr. }
    rewrite (Hgen1 Er) in Hp1. rewrite (Hgen2 Er2).
    apply list_elem_of_fmap in Hp1 as (x & -> & Hx).
    exists (ClusterMatcher.generated_only_record x).
    split; [| done]. apply list_elem_of_fmap_2. by rewrite <- Hg.
  - destruct (decide (gens evs1 = [])) as [Eg | Eg].
    + assert (gens evs2 = []) as Eg2.
      { rewrite Eg in Hg. by apply Permutation_nil_l in Hg. }
      rewrite (Href1 Eg) in Hp1. rewrite (Href2 Eg2).
      apply list_elem_of_fmap in Hp1 as (x & -> & Hx).
      exists (ClusterMatcher.reference_only_record x).
      split; [| done]. apply list_elem_of_fmap_2. by rewrite <- Hr.
    + assert (gens evs2 ≠ []) as Eg2.
      { intros E. rewrite E in Hg. by apply Permutation_nil_r in Hg. }
      assert (refs evs2 ≠ []) as Er2.
      { intros E. rewrite E in Hr. by apply Permutation_nil_r in Hr. }
      destruct (Hmix1 Eg Er) as (q1 & -> & _ & _ & Hq1g & Hq1r).
      destruct (Hmix2 Eg2 Er2) as (q2 & -> & _ & _ & Hq2g & Hq2r).
      apply list_elem_of_singleton in Hp1 as ->.
      exists q2. split; [by left |].
      split; [by rewrite Hq1g, Hq2g | by rewrite Hq1r, Hq2r].
Qed.

(** The chains of overlaps decide the representatives. *)
Lemma roots_connected gen ref uf (roots : list nat) :
  uf_inv uf →
  length roots = length (ClusterMatcher.unified gen ref) →
  (∀ i r, roots !! i = Some r → root_of (UnionFind.parent uf) i r) →
  (∀ i j, (i < length (ClusterMatcher.unified gen ref))%nat →
     same uf i j ↔ connected self (ClusterMatcher.unified gen ref) i j) →
  ∀ i j ri rj, roots !! i = Some ri → roots !! j = Some rj →
    ri = rj ↔ connected self (ClusterMatcher.unified gen ref) i j.
Proof.
  intros Hinv Hlen Hroots Hclass i j ri rj Hi Hj.
  assert (i < length (ClusterMatcher.unified gen ref))%nat as Hlt.
  { rewrite <- Hlen. by eapply lookup_lt_Some. }
  rewrite <- (Hclass i j Hlt). split.
  - intros ->. exists rj. split; by apply Hroots.
  - intros (r & H1 & H2).
    rewrite (root_of_unique _ _ _ _ (Hroots i ri Hi) H1).
    by rewrite (root_of_unique _ _ _ _ (Hroots j rj Hj) H2).
Qed.

(** Two runs of the cluster matcher on the same events in two orders:
    every record of the first has a counterpart in the second. *)
Lemma ClusterMatcher_two_runs gen1 ref1 gen2 ref2 :
  gen1 ≡ₚ gen2 → ref1 ≡ₚ ref2 →
  ∃ recs1 recs2,
    ClusterMatcher.match_ self gen1 ref1 = Some recs1
    ∧ ClusterMatcher.match_ self gen2 ref2 = Some recs2
    ∧ Forall text_ok recs1 ∧ Forall text_ok recs2
    ∧ ∀ p1, p1 ∈ recs1 → counterpart recs2 p1.
Proof.
  intros Hgen Href.
  destruct (ClusterMatcher_match_indices self gen1 ref1)
    as (recs1 & Hm1 & _ & _ & Hok1).
  destruct (ClusterMatcher_match_indices self gen2 ref2)
    as (recs2 & Hm2 & _ & _ & Hok2).
  exists recs1, recs2. split; [done |]. split; [done |].
  split; [done |]. split; [done |].
  destruct (ClusterMatcher_match_unfold self gen1 ref1)
    as (cl1 & per1 & Hcl1 & Hper1 & Hm1').
  destruct (ClusterMatcher_match_unfold self gen2 ref2)
    as (cl2 & per2 & Hcl2 & Hper2 & Hm2').
  destruct (clusters_of_spec self gen1 ref1)
    as (uf1 & roots1 & Hcl1' & Hinv1 & Hlen1 & Hroots1 & _ & Hclass1).
  destruct (clusters_of_spec self gen2 ref2)
    as (uf2 & roots2 & Hcl2' & Hinv2 & Hlen2 & Hroots2 & _ & Hclass2).
  set (l1 := ClusterMatcher.unified gen1 ref1) in *.
  set (l2 := ClusterMatcher.unified gen2 ref2) in *.
  assert (cl1 = group_list (zip roots1 l1)) as -> by congruence.
  assert (cl2 = group_list (zip roots2 l2)) as -> by congruence.
  assert (recs1 = Py.sorted Py.tuple_lt ClusterMatcher.sort_key
                    (concat per1)) as -> by congruence.
  assert (recs2 = Py.sorted Py.tuple_lt ClusterMatcher.sort_key
                    (concat per2)) as -> by congruence.
  assert (l1 ≡ₚ l2) as Hperm.
  { unfold l1, l2, ClusterMatcher.unified. by rewrite Hgen, Href. }
  pose proof (roots_connected gen1 ref1 uf1 roots1 Hinv1 Hlen1 Hroots1
                Hclass1) as Hconn1.
  pose proof (roots_connected gen2 ref2 uf2 roots2 Hinv2 Hlen2 Hroots2
                Hclass2) as Hconn2.
  fold l1 in Hconn1. fold l2 in Hconn2.
  intros p1 Hp1. apply elem_of_sorted in Hp1.
  apply list_elem_of_In, in_concat in Hp1 as (c1 & Hc1 & Hp1).
  apply list_elem_of_In in Hc1, Hp1.
  apply list_elem_of_lookup in Hc1 as [k Hk].
  destruct (Forall2_lookup_r _ _ _ _ _ Hper1 Hk) as (evs1 & Hevs1 & Hrec1).
  apply list_lookup_fmap_Some in Hevs1 as ([r1 evs1'] & -> & Hin1).
  simpl in Hrec1. apply list_elem_of_lookup_2 in Hin1.
  apply group_list_content in Hin1 as [E1 Hne1]. simpl.
  (* an event of the cluster, and its positions in the two runs *)
  assert (∃ i1 e, roots1 !! i1 = Some r1 ∧ l1 !! i1 = Some e) as
    (i1 & e & Hr1 & He1).
  { destruct evs1' as [|x evs1'']; [done |].
    assert (x ∈ map snd (filter (λ p, p.1 = r1) (zip roots1 l1))) as Hx
      by (rewrite <- E1; by left).
    apply list_elem_of_fmap in Hx as ([rj y] & -> & Hin).
    apply list_elem_of_filter in Hin as [E Hin]. simpl in E. subst rj.
    apply list_elem_of_lookup in Hin as [j Hj].
    apply lookup_zip_with_Some in Hj as (rj & y' & [= <- <-] & Hrj & Hy).
    by exists j, y. }
  assert (e ∈ l2) as Hin2.
  { rewrite <- Hperm. by eapply list_elem_of_lookup_2. }
  apply list_elem_of_lookup in Hin2 as [i2 He2].
  destruct (lookup_lt_is_Some_2 roots2 i2) as [r2 Hr2].
  { rewrite Hlen2. by eapply lookup_lt_Some. }
  pose proof (cluster_Permutation gen1 ref1 gen2 ref2 roots1 roots2 i1 i2
                r1 r2 e Hperm Hlen1 Hlen2 Hconn1 Hconn2 Hr1 He1 Hr2 He2)
    as Hevs.
  fold l1 l2 in Hevs. rewrite <- E1 in Hevs.
  set (evs2 := map snd (filter (λ p, p.1 = r2) (zip roots2 l2))) in *.
  assert ((r2, evs2) ∈ group_list (zip roots2 l2)) as Hin2.
  { apply group_list_content. split; [done |].
    intros E. rewrite E in Hevs. apply Permutation_nil_r in Hevs.
    by subst. }
  assert (evs2 ∈ map snd (group_list (zip roots2 l2))) as Hin2'.
  { apply list_elem_of_fmap. by exists (r2, evs2). }
  apply list_elem_of_lookup in Hin2' as [k2 Hk2].
  destruct (Forall2_lookup_l _ _ _ _ _ Hper2 Hk2) as (c2 & Hc2 & Hrec2).
  destruct (cluster_records_Permutation evs1' evs2 c1 c2 p1 Hevs Hrec1 Hrec2
              Hp1) as (p2 & Hp2 & Hsame).
  assert (p2 ∈ Py.sorted Py.tuple_lt ClusterMatcher.sort_key (concat per2))
    as Hp2'.
  { apply elem_of_sorted. apply list_elem_of_In, in_concat.
    exists c2. split; apply list_elem_of_In; [| done].
    by eapply list_elem_of_lookup_2. }
  apply (counterpart_texts _ p1 p2); [| | done | done].
  - rewrite Forall_forall in Hok1. apply Hok1. apply elem_of_sorted.
    apply list_elem_of_In, in_concat. exists c1.
    split; apply list_elem_of_In; [| done].
    by eapply list_elem_of_lookup_2.
  - rewrite Forall_forall in Hok2. by apply Hok2.
Qed.

End TwoRuns.

(** Two runs of the overlap matcher on the same events in two orders. *)
Lemma OverlapMatcher_text_ok om ref g p :
  overlap_record_ok om ref g p → text_ok p.
Proof.
  intros (Hge & _ & Hgt & _ & _ & _ & _ & _ & _ & Hrt & _).
  split; [by rewrite Hge, Hgt | done].
Qed.

Lemma OverlapMatcher_two_runs om gen1 ref1 gen2 ref2 :
  gen1 ≡ₚ gen2 → ref1 ≡ₚ ref2 →
  ∃ recs1 recs2,
    OverlapMatcher.match_ om gen1 ref1 = Some recs1
    ∧ OverlapMatcher.match_ om gen2 ref2 = Some recs2
    ∧ Forall text_ok recs1 ∧ Forall text_ok recs2
    ∧ ∀ p1, p1 ∈ recs1 → counterpart recs2 p1.
Proof.
  intros Hgen Href.
  destruct (OverlapMatcher_match_Forall2 om gen1 ref1) as (recs1 & Hm1 & H1).
  destruct (OverlapMatcher_match_Forall2 om gen2 ref2) as (recs2 & Hm2 & H2).
  exists recs1, recs2. split; [done |]. split; [done |].
  assert (∀ ref gen recs, Forall2 (overlap_record_ok om ref) gen recs →
            Forall text_ok recs) as Hok.
  { intros ref gen recs H. apply Forall_forall. intros p Hp.
    apply list_elem_of_lookup in Hp as [i Hi].
    destruct (Forall2_lookup_r _ _ _ _ _ H Hi) as (g & _ & Hg).
    by eapply OverlapMatcher_text_ok. }
  split; [by eapply Hok |]. split; [by eapply Hok |].
  intros p1 Hp1. apply list_elem_of_lookup in Hp1 as [i Hi].
  destruct (Forall2_lookup_r _ _ _ _ _ H1 Hi) as (g & Hg & Hok1).
  assert (g ∈ gen2) as Hin.
  { rewrite <- Hgen. by eapply list_elem_of_lookup_2. }
  apply list_elem_of_lookup in Hin as [i2 Hi2].
  destruct (Forall2_lookup_l _ _ _ _ _ H2 Hi2) as (p2 & Hp2 & Hok2).
  apply (counterpart_texts _ p1 p2).
  - by eapply OverlapMatcher_text_ok.
  - by eapply OverlapMatcher_text_ok.
  - by eapply list_elem_of_lookup_2.
  - destruct Hok1 as (Hge1 & _ & _ & _ & _ & Hre1 & _).
    destruct Hok2 as (Hge2 & _ & _ & _ & _ & Hre2 & _).
    split; [by rewrite Hge1, Hge2 |].
    rewrite Hre1, Hre2. unfold kept_refs. by rewrite Href.
Qed.

(** The records of the DP matcher hold at most one event on each side,
    and carry its text. *)
Definition singleton_text (evs : list ADEvent) (t : string) : Prop :=
  (evs = [] ∧ t = EmptyString) ∨ ∃ e, evs = [e] ∧ t = text e.

Lemma DPMatcher_record_singleton gen ref s p :
  DPMatcher.record_of gen ref s = Some p →
  singleton_text (gen_events p) (combined_gen_text p)
  ∧ singleton_text (ref_events p) (combined_ref_text p).
Proof.
  unfold singleton_text.
  destruct s as [[[g|] [r|]] sc]; cbn; intros H.
  - destruct (gen !! g); [| done]. destruct (ref !! r); [| done].
    cbn in H. simplify_eq. cbn. split; right; by eexists.
  - destruct (gen !! g); [| done]. cbn in H. simplify_eq. cbn.
    split; [right; by eexists | by left].
  - destruct (ref !! r); [| done]. cbn in H. simplify_eq. cbn.
    split; [by left | right; by eexists].
  - done.
Qed.

Lemma DPMatcher_match_singleton math_exp dp gen ref recs p :
  DPMatcher.match_ math_exp dp gen ref = Some recs → p ∈ recs →
  singleton_text (gen_events p) (combined_gen_text p)
  ∧ singleton_text (ref_events p) (combined_ref_text p).
Proof.
  unfold DPMatcher.match_.
  destruct (negb (Py.truthy gen) || negb (Py.truthy ref)).
  { intros H Hp. simplify_eq. by apply elem_of_nil in Hp. }
  destruct (DPMatcher._build_similarity_matrix math_exp dp gen ref);
    [| done]. cbn [mbind option_bind].
  destruct (DPMatcher._dp_align dp l); [| done]. cbn [mbind option_bind].
  intros H Hp. apply mapM_Some in H.
  apply list_elem_of_lookup in Hp as [i Hi].
  destruct (Forall2_lookup_r _ _ _ _ _ H Hi) as (s & _ & Hs).
  by eapply DPMatcher_record_singleton.
Qed.

Lemma singleton_text_Permutation evs1 evs2 t1 t2 :
  singleton_text evs1 t1 → singleton_text evs2 t2 → evs1 ≡ₚ evs2 →
  t1 = t2.
Proof.
  intros [[-> ->] | (e1 & -> & ->)] [[-> ->] | (e2 & -> & ->)] H.
  - done.
  - by apply Permutation_nil_l in H.
  - by apply Permutation_nil_r in H.
  - apply Permutation_singleton_l in H. by simplify_eq.
Qed.

(** C4, as amended. For the cluster matcher and for the overlap matcher,
    two runs on the same events supplied in two orders both return, and
    every record of the first run has a counterpart in the second: a
    record with the same generated events and the same reference events,
    whose combined text on a side is identical whenever the events of
    that side have pairwise distinct start times. In the records of the
    three matchers each combined text is [combine_texts] of the events
    of the record: their texts joined by single spaces in the order of
    the stable sort by start time, so that events with equal start times
    appear in the order in which the record lists them. The records of
    the DP matcher, which aligns the two sequences in the order of
    supply, hold at most one event on a side and carry its text: two of
    them with the same events have the same texts. *)
Theorem combined_text_determinism :
  (∀ cm gen1 ref1 gen2 ref2, gen1 ≡ₚ gen2 → ref1 ≡ₚ ref2 →
     ∃ recs1 recs2,
       ClusterMatcher.match_ cm gen1 ref1 = Some recs1
       ∧ ClusterMatcher.match_ cm gen2 ref2 = Some recs2
       ∧ Forall text_ok recs1 ∧ Forall text_ok recs2
       ∧ ∀ p1, p1 ∈ recs1 → counterpart recs2 p1)
  ∧ (∀ om gen1 ref1 gen2 ref2, gen1 ≡ₚ gen2 → ref1 ≡ₚ ref2 →
       ∃ recs1 recs2,
         OverlapMatcher.match_ om gen1 ref1 = Some recs1
         ∧ OverlapMatcher.match_ om gen2 ref2 = Some recs2
         ∧ Forall text_ok recs1 ∧ Forall text_ok recs2
         ∧ ∀ p1, p1 ∈ recs1 → counterpart recs2 p1)
  ∧ (∀ math_exp dp gen ref,
       similarity_total math_exp dp gen ref →
       ∃ recs, DPMatcher.match_ math_exp dp gen ref = Some recs
               ∧ Forall text_ok recs)
  ∧ (∀ math_exp dp gen1 ref1 gen2 ref2 recs1 recs2 p1 p2,
       DPMatcher.match_ math_exp dp gen1 ref1 = Some recs1 →
       DPMatcher.match_ math_exp dp gen2 ref2 = Some recs2 →
       p1 ∈ recs1 → p2 ∈ recs2 → same_events p1 p2 →
       combined_gen_text p1 = combined_gen_text p2
       ∧ combined_ref_text p1 = combined_ref_text p2)
  ∧ (∀ events,
       let sorted_events := Py.sorted Py.lt start events in
       combine_texts " " events
       = String.concat " " (map text sorted_events)
       ∧ sorted_events ≡ₚ events
       ∧ StronglySorted (λ a b, (start a <= start b)%Q) sorted_events
       ∧ ∀ t, filter (λ e, (start e == t)%Q) sorted_events
              = filter (λ e, (start e == t)%Q) events)
  ∧ (∀ l1 l2 : list ADEvent,
       l1 ≡ₚ l2 → distinct_starts l1 →
       combine_texts " " l1 = combine_texts " " l2).
Proof.
  split_and!.
  - intros cm gen1 ref1 gen2 ref2. apply ClusterMatcher_two_runs.
  - intros om gen1 ref1 gen2 ref2. apply OverlapMatcher_two_runs.
  - intros math_exp dp gen ref Htot.
    destruct (DPMatcher_match_total math_exp dp gen ref Htot) as [recs Hrecs].
    exists recs. split; [done |]. by eapply DPMatcher_match_text.
  - intros math_exp dp gen1 ref1 gen2 ref2 recs1 recs2 p1 p2 H1 H2 Hp1 Hp2
      [Hg Hr].
    destruct (DPMatcher_match_singleton _ _ _ _ _ _ H1 Hp1) as [Hg1 Hr1].
    destruct (DPMatcher_match_singleton _ _ _ _ _ _ H2 Hp2) as [Hg2 Hr2].
    split; by eapply singleton_text_Permutation.
  - intros events. cbn zeta. split_and!.
    + destruct events as [|e events]; [done | reflexivity].
    + apply sorted_Permutation.
    + apply sorted_Q_StronglySorted.
    + intros t. apply (sorted_filter Py.lt start (λ e, (start e == t)%Q)).
      intros x y Hx Hy. apply Py_lt_false. rewrite Hx, Hy. apply Qle_refl.
  - intros l1 l2. apply combine_texts_Permutation.
Qed.

(** C4 as stated fails: two generated events with the same start and one
    reference event give, in the cluster matcher, a record whose combined
    text follows the order of supply. *)
Lemma combined_text_counterexample :
  let g1 := mkEvent 0 5 "a" 0 in
  let g2 := mkEvent 0 5 "b" 1 in
  let r := mkEvent 1 4 "c" 0 in
  let cm := ClusterMatcher.mk (1 # 2) in
  (map combined_gen_text <$> ClusterMatcher.match_ cm [g1; g2] [r])
  = Some ["a b"]
  ∧ (map combined_gen_text <$> ClusterMatcher.match_ cm [g2; g1] [r])
    = Some ["b a"].
Proof. by vm_compute. Qed.

(** ** Union-find: runs of operations *)

Section UnionFindRuns.
Implicit Types (uf : UnionFind.t) (x y : nat) (ops : list (nat * nat)).

(** A run of [union] calls from a given structure. *)
Definition unions uf ops : option UnionFind.t :=
  Py.for_ ops (λ p uf, UnionFind.union uf p.1 p.2) uf.

(** The arguments of the calls stay below [n]. *)
Definition in_range (n : nat) ops : Prop :=
  Forall (λ p, p.1 < n ∧ p.2 < n) ops.

(** The equivalence generated by the pairs of a run. *)
Definition joined ops : nat → nat → Prop :=
  rtc (λ a b, (a, b) ∈ ops ∨ (b, a) ∈ ops).

Lemma joined_sym ops a b : joined ops a b → joined ops b a.
Proof.
  induction 1 as [|a c b Hac _ IH]; [apply rtc_refl |].
  eapply rtc_r; [exact IH | tauto].
Qed.

Lemma joined_mono ops ops' a b :
  ops ⊆ ops' → joined ops a b → joined ops' a b.
Proof.
  intros Hsub. induction 1 as [|a c b Hac _ IH]; [apply rtc_refl |].
  eapply rtc_l; [| exact IH]. destruct Hac; [left | right]; by apply Hsub.
Qed.

Lemma joined_trans ops a b c :
  joined ops a b → joined ops b c → joined ops a c.
Proof. unfold joined. intros H1 H2. by etrans. Qed.

Lemma joined_nil a b : joined [] a b → a = b.
Proof.
  intros H. destruct H as [|a c b [Hac | Hac] _]; [done | |];
    by apply elem_of_nil in Hac.
Qed.

(** [find] on a representative changes nothing. *)
Lemma find_root uf r :
  UnionFind.parent uf !! r = Some r → UnionFind.find uf r = Some (uf, r).
Proof.
  intros Hr. unfold UnionFind.find. cbn [UnionFind.find_rec].
  rewrite Hr. cbn [mbind option_bind]. by rewrite decide_False by (by intros []).
Qed.

(** After [find], the element points at the result. *)
Lemma find_rec_points d uf x uf' r :
  UnionFind.find_rec d uf x = Some (uf', r) →
  UnionFind.parent uf' !! x = Some r.
Proof.
  destruct d as [|d]; [done |]. cbn [UnionFind.find_rec].
  destruct (UnionFind.parent uf !! x) as [px|] eqn:Hpx; [| done].
  cbn [mbind option_bind]. case_decide as Hne.
  - destruct (UnionFind.find_rec d uf px) as [[uf1 r1]|]; [| done].
    cbn [mbind option_bind].
    destruct (Py.setitem _ x r1) as [parent'|]; [| done].
    cbn [mbind option_bind UnionFind.parent].
    destruct (parent' !! x) as [res|] eqn:E; [| done].
    cbn. intros [= <- <-]. done.
  - cbn. intros [= <- <-]. done.
Qed.

(** The structures reached by a run of in-range unions from [init n]:
    two elements are together exactly when the pairs of the run join
    them. *)
Lemma unions_spec n ops :
  in_range n ops →
  ∃ uf, unions (UnionFind.init n) ops = Some uf
    ∧ uf_inv uf
    ∧ length (UnionFind.parent uf) = n
    ∧ ∀ a b, a < n → same uf a b ↔ joined ops a b.
Proof.
  intros Hops. unfold unions.
  edestruct (for_invariant
    (λ k uf, uf_inv uf ∧ length (UnionFind.parent uf) = n
       ∧ ∀ a b, a < n → same uf a b ↔ joined (take k ops) a b)
    ops (UnionFind.init n)) as (uf & -> & Hinv & Hlen & Hsame).
  { split; [apply uf_inv_init |]. split; [apply length_seq |].
    intros a b Ha. rewrite take_0. split.
    - intros H. apply same_init in H as ->. apply rtc_refl.
    - intros H. apply joined_nil in H as <-.
      destruct (root_exists (UnionFind.init n) a) as [r Hr];
        [apply uf_inv_init | simpl; by rewrite length_seq |].
      by exists r. }
  { intros k [x y] uf Hk (Hinv & Hlen & Hsame). cbn [fst snd].
    assert (x < n ∧ y < n) as [Hx Hy].
    { unfold in_range in Hops. rewrite Forall_forall in Hops.
      apply (Hops (x, y)). by eapply list_elem_of_lookup_2. }
    destruct (union_spec uf x y Hinv) as
      (uf' & -> & Hinv' & Hlen' & Hkeep & Hxy & Honly); [lia | lia |].
    exists uf'. split; [done |]. split; [done |]. split; [lia |].
    rewrite (take_S_r _ _ _ Hk).
    assert (∀ a b, a < n → joined (take k ops) a b → b < n) as Hrange.
    { intros a b Ha H. apply Hsame in H; [| done].
      destruct H as (r & _ & Hb). apply root_of_lt in Hb. lia. }
    intros a b Ha. split.
    - intros H. destruct (Honly a b H) as [H0 | [[H1 H2] | [H1 H2]]].
      + eapply joined_mono; [| by apply Hsame]. set_solver.
      + assert (b < n) as Hb.
        { destruct H2 as (r & Hb & _). apply root_of_lt in Hb. lia. }
        apply Hsame in H1; [| done]. apply Hsame in H2; [| done].
        eapply joined_trans.
        { eapply joined_mono; [| exact H1]. set_solver. }
        apply (rtc_l _ x y b); [left; set_solver |].
        apply joined_sym. eapply joined_mono; [| exact H2]. set_solver.
      + assert (b < n) as Hb.
        { destruct H2 as (r & Hb & _). apply root_of_lt in Hb. lia. }
        apply Hsame in H1; [| done]. apply Hsame in H2; [| done].
        eapply joined_trans.
        { eapply joined_mono; [| exact H1]. set_solver. }
        apply (rtc_l _ y x b); [right; set_solver |].
        apply joined_sym. eapply joined_mono; [| exact H2]. set_solver.
    - intros H. induction H as [a | a c b Hac _ IH].
      + destruct (root_exists uf' a Hinv') as [r Hr]; [lia |]. by exists r.
      + assert (same uf' a c) as Hsac.
        { destruct Hac as [Hac | Hac];
            apply elem_of_app in Hac as [Hac | Hac].
          - apply Hkeep, Hsame; [done |]. apply rtc_once. by left.
          - apply list_elem_of_singleton in Hac. by simplify_eq.
          - apply Hkeep, Hsame; [done |]. apply rtc_once. by right.
          - apply list_elem_of_singleton in Hac. simplify_eq.
            by apply same_sym. }
        eapply same_trans; [exact Hsac |]. apply IH.
        destruct Hsac as (r & _ & Hc). apply root_of_lt in Hc. lia. }
  exists uf. split; [done |]. split; [done |]. split; [done |].
  intros a b Ha. rewrite (Hsame a b Ha). by rewrite firstn_all.
Qed.

(** X1: on every structure built by [UnionFind(n)] and a run of [union]
    calls with arguments below [n], [find(x)] returns for every [x < n]
    without running out of depth or of range; its result is an element that
    is its own representative, and asking again, for [x] or for the
    result, returns the same answer without changing the structure any
    further. Path compression is invisible: every element has the same
    representative before and after the call, and the ranks are
    untouched. *)
Theorem find_is_transparent n ops uf x :
  in_range n ops → unions (UnionFind.init n) ops = Some uf → x < n →
  ∃ uf' r,
    UnionFind.find uf x = Some (uf', r)
    ∧ r < n
    ∧ UnionFind.find uf' r = Some (uf', r)
    ∧ UnionFind.find uf' x = Some (uf', r)
    ∧ UnionFind.rank uf' = UnionFind.rank uf
    ∧ ∀ y, y < n →
        ∃ u u' s, UnionFind.find uf y = Some (u, s)
                  ∧ UnionFind.find uf' y = Some (u', s).
Proof.
  intros Hops Hrun Hx.
  destruct (unions_spec n ops Hops) as (uf0 & Hrun0 & Hinv & Hlen & _).
  assert (uf0 = uf) as -> by congruence.
  destruct (find_spec uf x Hinv) as
    (uf' & r & Hfind & Hinv' & Hrank & Hlen' & Hroot & Hsame); [lia |].
  exists uf', r. split; [done |].
  assert (UnionFind.parent uf' !! r = Some r) as Hr.
  { eapply root_of_is_root. by apply Hsame. }
  assert (UnionFind.parent uf' !! x = Some r) as Hxr
    by (by eapply find_rec_points).
  split; [apply lookup_lt_Some in Hr; lia |].
  split; [by apply find_root |]. split; [| split; [done |]].
  - destruct (decide (r = x)) as [-> | Hne]; [by apply find_root |].
    unfold UnionFind.find. cbn [UnionFind.find_rec]. rewrite Hxr.
    cbn [mbind option_bind]. rewrite decide_True by done.
    destruct (length (UnionFind.parent uf')) as [|d] eqn:Ed; [lia |].
    cbn [UnionFind.find_rec]. rewrite Hr. cbn [mbind option_bind].
    rewrite decide_False by (by intros []).
    cbn [mbind option_bind].
    rewrite setitem_Some by (apply lookup_lt_Some in Hxr; lia).
    cbn [mbind option_bind UnionFind.parent UnionFind.rank].
    rewrite list_insert_id by done. rewrite Hxr. cbn. by destruct uf'.
  - intros y Hy.
    destruct (find_spec uf y Hinv) as (u & s & Hu & _ & _ & _ & Hs & _);
      [lia |].
    destruct (find_spec uf' y Hinv') as (u' & s' & Hu' & _ & _ & _ & Hs' & _);
      [lia |].
    apply Hsame in Hs. rewrite (root_of_unique _ _ _ _ Hs' Hs) in Hu'.
    by exists u, u', s.
Qed.

(** X2: after [UnionFind(n)] and any run of [union] calls with arguments
    below [n], none of which raises, two elements below [n] get the same
    answer from [find] exactly when the pairs of the run join them, that
    is when they are related by the reflexive, symmetric and transitive
    closure of the pairs. *)
Theorem unions_join_exactly n ops :
  in_range n ops →
  ∃ uf, unions (UnionFind.init n) ops = Some uf
    ∧ ∀ a b, a < n → b < n →
        ∃ uf1 ra uf2 rb,
          UnionFind.find uf a = Some (uf1, ra)
          ∧ UnionFind.find uf1 b = Some (uf2, rb)
          ∧ (ra = rb ↔ joined ops a b).
Proof.
  intros Hops.
  destruct (unions_spec n ops Hops) as (uf & Hrun & Hinv & Hlen & Hsame).
  exists uf. split; [done |]. intros a b Ha Hb.
  destruct (find_spec uf a Hinv) as
    (uf1 & ra & Hfa & Hinv1 & _ & Hlen1 & Hra & Heq); [lia |].
  destruct (find_spec uf1 b Hinv1) as
    (uf2 & rb & Hfb & _ & _ & _ & Hrb & _); [lia |].
  exists uf1, ra, uf2, rb. split; [done |]. split; [done |].
  apply Heq in Hrb. rewrite <- (Hsame a b Ha). split.
  - intros ->. by exists rb.
  - intros (r & H1 & H2).
    rewrite (root_of_unique _ _ _ _ Hra H1).
    by rewrite (root_of_unique _ _ _ _ Hrb H2).
Qed.

End UnionFindRuns.

(** The two theorems at three elements and the run [union(0, 1)],
    [union(1, 2)]. *)
Lemma find_is_transparent_witness :
  ∃ uf uf' r,
    unions (UnionFind.init 3) [(0, 1); (1, 2)]%nat = Some uf
    ∧ UnionFind.find uf 2 = Some (uf', r)
    ∧ UnionFind.find uf' r = Some (uf', r)
    ∧ UnionFind.find uf' 2 = Some (uf', r).
Proof.
  destruct (find_is_transparent 3 [(0, 1); (1, 2)]%nat
    (UnionFind.mk [0; 0; 0]%nat [1; 0; 0]%nat) 2)
    as (uf' & r & H1 & _ & H2 & H3 & _).
  - repeat constructor.
  - reflexivity.
  - lia.
  - by eexists _, uf', r.
Defined.

Lemma unions_join_exactly_witness :
  ∃ uf uf1 ra uf2 rb,
    unions (UnionFind.init 3) [(0, 1); (1, 2)]%nat = Some uf
    ∧ UnionFind.find uf 0 = Some (uf1, ra)
    ∧ UnionFind.find uf1 2 = Some (uf2, rb)
    ∧ (ra = rb ↔ joined [(0, 1); (1, 2)]%nat 0 2).
Proof.
  destruct (unions_join_exactly 3 [(0, 1); (1, 2)]%nat) as (uf & H & Hall).
  - repeat constructor.
  - destruct (Hall 0 2)%nat as (uf1 & ra & uf2 & rb & H1 & H2 & H3);
      [lia | lia |].
    by exists uf, uf1, ra, uf2, rb.
Defined.

(** ** The matcher factory *)

Section FactoryFacts.





End FactoryFacts.

(** ** Scenarios *)

(** Two generated events and one reference event that overlaps the first:
    the cluster matcher gives a [cluster] record and a [generated_only]
    record, the overlap matcher an [overlap] and a [no_overlap] record. *)
Example scenario_cluster :
  map (λ p, (gen_indices p, ref_indices p, match_type p))
    <$> ClusterMatcher.match_ (ClusterMatcher.mk (1 # 2))
          [mkEvent 0 5 "cat" 0; mkEvent 10 15 "dog" 1]
          [mkEvent 1 4 "cat sits" 0]
  = Some [([0%Z], [0%Z], cluster); ([1%Z], [], generated_only)].
Proof. by vm_compute. Qed.

Example scenario_overlap :
  map (λ p, (gen_indices p, ref_indices p, match_type p))
    <$> OverlapMatcher.match_ (OverlapMatcher.mk (1 # 2))
          [mkEvent 0 5 "cat" 0; mkEvent 10 15 "dog" 1]
          [mkEvent 1 4 "cat sits" 0]
  = Some [([0%Z], [0%Z], overlap); ([1%Z], [], no_overlap)].
Proof. by vm_compute. Qed.

(** Equal texts, text weight 1 and time weight 0: one [dp_match] record of
    score 1. *)
Example scenario_dp :
  map (λ p, (match_type p, Qred <$> score p))
    <$> DPMatcher.match_ (λ x, x)
          (DPMatcher.init 0 1 (- (1 # 5)) (- (1 # 5)) 10 false None)
          [mkEvent 0 1 "a b" 0] [mkEvent 0 1 "a b" 0]
  = Some [(dp_match, Some 1%Q)].
Proof. by vm_compute. Qed.

(** Tokens are lower-cased and separated by runs of white space. *)
Example scenario_tokens :
  Py.split (Py.lower "  The Cat  sits ") = ["the"; "cat"; "sits"]
  ∧ (Qred <$> DPMatcher._token_overlap_similarity "the cat" "The dog")
    = Some (1 # 3)%Q
  ∧ DPMatcher._token_overlap_similarity "" "the dog" = Some 0%Q.
Proof. by vm_compute. Qed.

(** A chain in the union-find structure is compressed by [find]. *)
Example scenario_find :
  UnionFind.find (UnionFind.mk [1; 2; 2]%nat [0; 1; 2]%nat) 0
  = Some (UnionFind.mk [2; 2; 2]%nat [0; 1; 2]%nat, 2%nat).
Proof. by vm_compute. Qed.

(** The code's answers on inputs where rounding matters: the overlap of
    (0.0, 0.6) and (0.1, 1.0) is exactly 0.5 in binary64, so the two
    events overlap at the default threshold 0.5, while (0.0, 0.7) and
    (0.2, 1.0) do not; and an event from 1.0 to 1e16 overlaps itself by
    1e16. *)
Example scenario_rounding :
  let ev s e := F64.mkEvent s e "" 0 in
  let half := F64.of_decimal 5 10 in
  let big := F64.of_Z 10000000000000000 in
  F64.overlap_duration (ev F64.zero (F64.of_decimal 6 10))
                       (ev (F64.of_decimal 1 10) (F64.of_Z 1)) = half
  ∧ F64.overlaps_with (ev F64.zero (F64.of_decimal 6 10))
                      (ev (F64.of_decimal 1 10) (F64.of_Z 1)) half = true
  ∧ F64.overlaps_with (ev F64.zero (F64.of_decimal 7 10))
                      (ev (F64.of_decimal 2 10) (F64.of_Z 1)) half = false
  ∧ F64.overlaps_with (ev (F64.of_Z 1) big) (ev (F64.of_Z 1) big) big = true.
Proof. by vm_compute. Qed.

(** The table of choices on one generated and three reference events of
    similarity 1 with the default gap penalties of -0.2: in binary64
    [-0.4 + 1] is below [0.8 - 0.2], so the last cell records
    skip-reference. *)
Example scenario_dp_rounding :
  let gap := F64.neg (F64.of_decimal 2 10) in
  let self := F64.DPMatcher.init (F64.of_decimal 3 10) (F64.of_decimal 7 10)
                gap gap (F64.of_Z 10) true None in
  let one := F64.of_Z 1 in
  snd <$> F64.DPMatcher.dp_tables self [[one; one; one]]
  = Some [[0; 2; 2; 2]; [1; 0; 0; 2]]%nat
  ∧ F64.lt (F64.add (F64.add gap gap) one) (F64.add (F64.add one gap) gap)
    = true.
Proof. by vm_compute. Qed.

(** In the overlap matcher two reference events with the same start are
    listed by descending overlap, whatever the order of supply. *)
Example scenario_overlap_ties :
  let g := mkEvent 0 10 "g" 0 in
  let x := mkEvent 2 3 "x" 0 in
  let y := mkEvent 2 8 "y" 1 in
  let om := OverlapMatcher.mk (1 # 2) in
  (map combined_ref_text <$> OverlapMatcher.match_ om [g] [x; y])
  = Some ["y x"]
  ∧ (map combined_ref_text <$> OverlapMatcher.match_ om [g] [y; x])
    = Some ["y x"].
Proof. by vm_compute. Qed.

(** The pairing of the DP matcher depends on the order of supply: with
    the texts as the only similarity and gap penalties of -0.25, the
    generated events "x", "y" against the reference events "x", "y" give
    two matched pairs, and the generated events "y", "x" one matched
    pair between two gaps. *)
Example scenario_dp_order :
  let dp := DPMatcher.init 0 1 (- (1 # 4)) (- (1 # 4)) 10 false None in
  let a := mkEvent 0 1 "x" 0 in
  let b := mkEvent 2 3 "y" 1 in
  (map (λ p, (map text (gen_events p), map text (ref_events p)))
     <$> DPMatcher.match_ (λ x, x) dp [a; b] [a; b])
  = Some [(["x"], ["x"]); (["y"], ["y"])]
  ∧ (map (λ p, (map text (gen_events p), map text (ref_events p)))
       <$> DPMatcher.match_ (λ x, x) dp [b; a] [a; b])
    = Some [([], ["x"]); (["y"], ["y"]); (["x"], [])].
Proof. by vm_compute. Qed.

(** The creation of the matcher with the default parameters of
    [MatcherConfig], for the methods dp, DP and Cluster, and the factory
    called with a keyword of the DP matcher only. *)
Example scenario_factory :
  let config method :=
    Factory.mkConfig method
      (Factory.VFloat (F64.of_decimal 5 10))
      (Factory.VFloat (F64.of_decimal 3 10))
      (Factory.VFloat (F64.of_decimal 7 10))
      (Factory.VFloat (F64.neg (F64.of_decimal 2 10)))
      (Factory.VFloat (F64.neg (F64.of_decimal 2 10)))
      (Factory.VFloat (F64.of_Z 10))
      (Factory.VBool true) in
  Factory.create_matcher (config "dp") = inl Factory.TypeError
  ∧ Factory.create_matcher (config "DP") = inl Factory.TypeError
  ∧ Factory.create_matcher (config "Cluster")
    = inr (Factory.ClusterMatcher_ (Factory.VFloat (F64.of_decimal 5 10)))
  ∧ Factory.create_matcher (config "greedy") = inl Factory.ValueError
  ∧ Factory.get_matcher "Dp" [("time_soft", Factory.VBool false)]
    = inr (Factory.DPMatcher_
             (Factory.VFloat (F64.of_decimal 3 10))
             (Factory.VFloat (F64.of_decimal 7 10))
             (Factory.VFloat (F64.neg (F64.of_decimal 2 10)))
             (Factory.VFloat (F64.neg (F64.of_decimal 2 10)))
             (Factory.VFloat (F64.of_Z 10))
             (Factory.VBool false) None).
Proof. by vm_compute. Qed.
